(** * rag-repo-assistant: retrieval, routing, selection and evaluation

    A shallow embedding of the decision logic of the repository:
    - [packages/vectorstore/src/sqliteStore.ts] : [cosineSimilarity];
    - [packages/embeddings] (module [Embeddings]) : [embed] and
      [ollamaEmbedOne], over the HTTP call to the embedding service;
    - [scripts/ask.ts] : [truncateText], [formatSource], [cosine], and in
      module [Ask] [inferRoutePlan], [assembleContextFromCandidates] and
      the fallback ladder that builds [assembled];
    - [scripts/eval.ts] (module [Eval]) : [hitAtK], [inferRoutePlan],
      [retrieveWithRouting], [selectForContext], the fallback ladder that
      builds [selectedFinal], and the main loop with its report.
    [isPrioritySource] and [isLowSignalChunk] are the same text in ask.ts
    and eval.ts and are embedded once.

    Conventions.
    - A JavaScript string is the list of its UTF-16 code units.
    - A JavaScript number that holds a count or a size (maxChunks,
      maxPerFile, minChars, k, ...) is an integer of [Z]; the command line
      accepts negative values, so does the model.  Fractional values are
      outside the model.
    - A JavaScript number that holds a similarity or a vector component is
      an IEEE 754 binary64 value, the kernel's [float].
    - A [Map] is a [gmap], a [Set] is a [gset].
    - [String.prototype.toLowerCase], the HTTP call to the embedding
      service and the store's [search] are parameters of the definitions
      that use them. *)

From Stdlib Require Import ZArith NArith List Bool Lia Floats Ascii String.
From Stdlib Require Import Reals Lra.
From stdpp Require Import gmap strings list.
Import ListNotations.
Open Scope Z_scope.

(* ===================================================================== *)
(** * JavaScript strings and arrays *)
(* ===================================================================== *)

Module JS.

(** A string is a sequence of UTF-16 code units. *)
Definition jsstring := list N.

(** An ASCII literal of the source, as code units. *)
Definition lit (s : string) : jsstring :=
  map N_of_ascii (list_ascii_of_string s).

(** [s.length] *)
Definition len {A} (l : list A) : Z := Z.of_nat (length l).

(** [l.slice(0, e)]: a negative [e] counts from the end, and the end
    position is clamped to [0 .. l.length]. *)
Definition slice0 {A} (l : list A) (e : Z) : list A :=
  let final := if e <? 0 then Z.max (len l + e) 0 else Z.min e (len l) in
  firstn (Z.to_nat final) l.

(** [s.startsWith(p)] *)
Fixpoint startsWith (s p : jsstring) : bool :=
  match p, s with
  | [], _ => true
  | _ :: _, [] => false
  | c :: p', d :: s' => N.eqb c d && startsWith s' p'
  end.

(** [s.includes(w)] *)
Fixpoint includes (s w : jsstring) : bool :=
  startsWith s w ||
  match s with
  | [] => false
  | _ :: s' => includes s' w
  end.

(** [s.indexOf(c)] for a one-unit needle; [None] stands for -1. *)
Fixpoint indexOf (s : jsstring) (c : N) : option nat :=
  match s with
  | [] => None
  | d :: s' => if N.eqb d c then Some O else option_map S (indexOf s' c)
  end.

(** The code units that [trim], [trimStart] and [trimEnd] strip:
    ECMAScript's WhiteSpace and LineTerminator productions. *)
Definition isWhiteSpace (c : N) : bool :=
  existsb (N.eqb c)
    [9; 10; 11; 12; 13; 32; 160; 5760; 8232; 8233; 8239; 8287; 12288; 65279]%N
  || (N.leb 8192 c && N.leb c 8202).

Fixpoint trimStart (s : jsstring) : jsstring :=
  match s with
  | c :: s' => if isWhiteSpace c then trimStart s' else s
  | [] => []
  end.

Definition trimEnd (s : jsstring) : jsstring := rev (trimStart (rev s)).

Definition trim (s : jsstring) : jsstring := trimEnd (trimStart s).

(** The two halves of a surrogate pair. *)
Definition isHighSurrogate (c : N) : bool := N.leb 55296 c && N.leb c 56319.
Definition isLowSurrogate (c : N) : bool := N.leb 56320 c && N.leb c 57343.

(** Cutting [s] at index [i] separates a high surrogate from the low
    surrogate that follows it. *)
Definition splitsPair (s : jsstring) (i : nat) : bool :=
  match i with
  | O => false
  | S j => isHighSurrogate (nth j s 0%N) && isLowSurrogate (nth i s 0%N)
  end.

(** [toLowerCase] on the Basic Latin range, where it is exactly the map
    of A..Z to a..z; used to run the router on ASCII queries. *)
Definition asciiLower (s : jsstring) : jsstring :=
  map (fun c => if N.leb 65 c && N.leb c 90 then (c + 32)%N else c) s.

End JS.
Import JS.

(* ===================================================================== *)
(** * Data model ([packages/core]) *)
(* ===================================================================== *)

Inductive SourceType := markdown | text_doc | code.

Record ChunkMetadata := {
  collection : jsstring;
  sourcePath : jsstring;
  sourceType : SourceType;
  sectionPath : option jsstring;
  contentHash : jsstring
}.

Record Chunk := {
  id : jsstring;
  text : jsstring;
  metadata : ChunkMetadata
}.

(** [RetrievedChunk], with the [vector] of [RetrievedChunkWithVector] when
    the store was asked for it. *)
Record RetrievedChunk := {
  chunk : Chunk;
  similarity : float;
  vector : option (list float)
}.

(** [md.sectionPath ?? ""] *)
Definition sectionKey (r : RetrievedChunk) : jsstring :=
  match sectionPath (metadata (chunk r)) with
  | Some s => s
  | None => []
  end.

(** The [(sourcePath, sectionPath)] pair of an item. *)
Definition keyPair (r : RetrievedChunk) : jsstring * option jsstring :=
  (sourcePath (metadata (chunk r)), sectionPath (metadata (chunk r))).

(** [`${file}::${sectionKey}`] *)
Definition dedupKey (r : RetrievedChunk) : jsstring :=
  sourcePath (metadata (chunk r)) ++ lit "::" ++ sectionKey r.

(** [formatSource] of ask.ts, [normalizeSource] of eval.ts: the section is
    appended after a [#] when it is a non-empty string. *)
Definition formatSource (r : RetrievedChunk) : jsstring :=
  let md := metadata (chunk r) in
  let section :=
    match sectionPath md with
    | Some (c :: s) => lit "#" ++ (c :: s)
    | _ => []
    end in
  sourcePath md ++ section.

(* ===================================================================== *)
(** * Rendering truncation ([truncateText], ask.ts) *)
(* ===================================================================== *)

(** The marker ["\n…"]: a line feed and U+2026. *)
Definition continuationMarker : jsstring := [10; 8230]%N.

Definition truncateText (text : jsstring) (maxChars : Z) : jsstring :=
  if len text <=? maxChars then text
  else trimEnd (slice0 text maxChars) ++ continuationMarker.

(** The property the specification asks of a truncated text: a piece of
    [text] of at most [maxChars] units, cut outside any surrogate pair,
    followed by the marker. *)
Definition cleanCut (text : jsstring) (maxChars : Z) (out : jsstring) : Prop :=
  exists kept,
    out = kept ++ continuationMarker /\
    kept `prefix_of` text /\
    len kept <= maxChars /\
    splitsPair text (length kept) = false.

(* ===================================================================== *)
(** * Cosine similarity ([cosineSimilarity], sqliteStore.ts; [cosine],
      ask.ts: the two bodies are the same) *)
(* ===================================================================== *)

(** The three accumulators of the loop. *)
Record CosAcc := { dot : float; na : float; nb : float }.

Definition cosineStep (acc : CosAcc) (p : float * float) : CosAcc :=
  let av := fst p in
  let bv := snd p in
  {| dot := dot acc + av * bv;
     na := na acc + av * av;
     nb := nb acc + bv * bv |}%float.

(** The loop runs over the indices below [Math.min(a.length, b.length)],
    that is over the pairs of [combine a b]. *)
Definition cosineLoop (a b : list float) : CosAcc :=
  fold_left cosineStep (combine a b) {| dot := 0; na := 0; nb := 0 |}%float.

Definition cosineSimilarity (a b : list float) : float :=
  let acc := cosineLoop a b in
  if (na acc =? 0)%float || (nb acc =? 0)%float then 0%float
  else (dot acc / (PrimFloat.sqrt (na acc) * PrimFloat.sqrt (nb acc)))%float.

Definition cosine (a b : list float) : float := cosineSimilarity a b.

(** The same function with its numbers read as real numbers and its
    operations as the exact ones: what the loop computes when nothing is
    rounded. *)
Record CosAccR := { dotR : R; naR : R; nbR : R }.

Definition cosineStepR (acc : CosAccR) (p : R * R) : CosAccR :=
  let av := fst p in
  let bv := snd p in
  {| dotR := dotR acc + av * bv;
     naR := naR acc + av * av;
     nbR := nbR acc + bv * bv |}%R.

Definition cosineLoopR (a b : list R) : CosAccR :=
  fold_left cosineStepR (combine a b) {| dotR := 0; naR := 0; nbR := 0 |}%R.

Definition cosineR (a b : list R) : R :=
  let acc := cosineLoopR a b in
  if Req_dec_T (naR acc) 0 then 0%R
  else if Req_dec_T (nbR acc) 0 then 0%R
  else (dotR acc / (sqrt (naR acc) * sqrt (nbR acc)))%R.

(** A vector of zero norm: every component is a zero ([+0] or [-0]). *)
Definition zeroNorm (a : list float) : bool :=
  forallb (fun x => (x =? 0)%float) a.

(** [-1 <= x <= 1] as JavaScript evaluates it: false for NaN. *)
Definition inUnitInterval (x : float) : bool :=
  ((-1 <=? x) && (x <=? 1))%float.

(* ===================================================================== *)
(** * Intent routing: the types shared by ask.ts and eval.ts *)
(* ===================================================================== *)

Inductive Intent := tests | db | migrations | openapi | auth | general.

Record RoutePlan := { prefixes : list jsstring; intent : Intent }.

(** [hasAny]: [words.some((w) => q.includes(w))] *)
Definition hasAny (q : jsstring) (words : list string) : bool :=
  existsb (fun w => includes q (lit w)) words.

(** The order in which both routers test the intents. *)
Definition precedence : list Intent :=
  [tests; migrations; openapi; auth; db; general].

(** The specification's reading of a router with keyword table [words]:
    the first intent of [precedence] whose keywords the case-folded query
    [q] matches, [general] matching every query. *)
Definition firstMatching (words : Intent -> list string) (q : jsstring)
    : option Intent :=
  find (fun i => match i with
                 | general => true
                 | _ => hasAny q (words i)
                 end) precedence.

(* ===================================================================== *)
(** * Selection: what ask.ts and eval.ts share word for word *)
(* ===================================================================== *)

(** [isPrioritySource] *)
Definition isPrioritySource (sourcePath : jsstring)
    (priorityPrefixes : list jsstring) : bool :=
  existsb (fun p => startsWith sourcePath p) priorityPrefixes.

(** [isLowSignalChunk].  [String.prototype.toLowerCase] is a parameter:
    nothing below depends on how it folds case. *)
Section LowSignal.
Variable toLowerCase : jsstring -> jsstring.

Definition isLowSignalChunk (r : RetrievedChunk) (minChars : Z)
    (dropStatus : bool) (priorityPrefixes : list jsstring) : bool :=
  let md := metadata (chunk r) in
  if isPrioritySource (sourcePath md) priorityPrefixes then false
  else if len (trim (text (chunk r))) <? minChars then true
  else if dropStatus && includes (toLowerCase (sectionKey r)) (lit "status")
       then true
  else false.
End LowSignal.

(** The state of a selection loop: the [perFileCount] map, the [seen] set
    and the [selected] array. *)
Record SelState := {
  perFileCount : gmap jsstring Z;
  seen : gset jsstring;
  selected : list RetrievedChunk
}.

Definition emptySel : SelState :=
  {| perFileCount := ∅; seen := ∅; selected := [] |}.

(** External failures, as the exceptions the code throws. *)
Inductive Error :=
| FetchRejected
| OllamaRequestFailed (status : Z)
| InvalidJson
| MissingEmbeddingArray
| InconsistentDimension (expected got : Z).

(** The body of a response: not JSON, or JSON with or without an
    [embedding] array. *)
Inductive Payload :=
| NotJson
| Json (embedding : option (list float)).

(** What the HTTP call of [ollamaEmbedOne] can produce: a response with
    its [ok] flag, its status and its body. *)
Record HttpResponse := {
  ok : bool;
  status : Z;
  payload : Payload
}.

(* ===================================================================== *)
(** * The embedder ([packages/embeddings]) *)
(* ===================================================================== *)

Module Embeddings.
Section Embed.
(** The POST to [/api/embeddings] with a model and a prompt; [None] when
    [fetch] itself rejects. *)
Variable post : jsstring -> jsstring -> option HttpResponse.

Definition DEFAULT_MODEL : jsstring := lit "nomic-embed-text:latest".

Definition normalizeModelName (model : jsstring) : jsstring := trim model.

Definition ollamaEmbedOne (model text : jsstring) : Error + list float :=
  match post (normalizeModelName model) text with
  | None => inl FetchRejected
  | Some res =>
      if negb (ok res) then inl (OllamaRequestFailed (status res))
      else match payload res with
           | NotJson => inl InvalidJson
           | Json None => inl MissingEmbeddingArray
           | Json (Some v) => inr v
           end
  end.

(** The loop that fills [vectors]: the first failing call throws. *)
Fixpoint embedEach (model : jsstring) (texts : list jsstring)
    : Error + list (list float) :=
  match texts with
  | [] => inr []
  | t :: rest =>
      match ollamaEmbedOne model t with
      | inl e => inl e
      | inr v =>
          match embedEach model rest with
          | inl e => inl e
          | inr vs => inr (v :: vs)
          end
      end
  end.

Definition embed (texts : list jsstring) (model : option jsstring)
    : Error + list (list float) :=
  let model := default DEFAULT_MODEL model in
  match texts with
  | [] => inr []
  | _ :: _ =>
      match embedEach model texts with
      | inl e => inl e
      | inr vectors =>
          let dim := match vectors with v :: _ => len v | [] => 0 end in
          match find (fun v => negb (len v =? dim)) vectors with
          | Some v => inl (InconsistentDimension dim (len v))
          | None => inr vectors
          end
      end
  end.
End Embed.
End Embeddings.

(* ===================================================================== *)
(** * scripts/ask.ts *)
(* ===================================================================== *)

Module Ask.
Section WithLowerCase.
Variable toLowerCase : jsstring -> jsstring.

Definition testsWords : list string :=
  ["integration test"; "integration tests"; "vitest"; "test:db";
   "pnpm test"; "run the integration tests"; "run integration tests";
   "run tests"; "how do i run the tests";
   "how do i run integration tests";
   "how do i run the integration test"]%string.

Definition dbWords : list string :=
  ["database"; "postgres"; "postgresql"; "pg pool"; "pool"; "connection";
   "connect"; "access the database"; "db access"]%string.

Definition authWords : list string :=
  ["authentication"; "auth"; "x-user-id"; "jwt"; "oauth"; "cognito"]%string.

Definition openApiWords : list string :=
  ["openapi"; "swagger"; "typebox"]%string.

Definition migrationsWords : list string :=
  ["migration"; "migrations"; "migrate"; "migrating";
   "database migrations"; "migrations handled";
   "how are database migrations handled"; "schema changes";
   "schema change"; "ddl"; "sql-first"; "sql files";
   "apply migrations"]%string.

(** The keyword table, by intent. *)
Definition wordsOf (i : Intent) : list string :=
  match i with
  | tests => testsWords
  | migrations => migrationsWords
  | openapi => openApiWords
  | auth => authWords
  | db => dbWords
  | general => []
  end.

Definition inferRoutePlan (query : jsstring) : RoutePlan :=
  let q := toLowerCase query in
  let isTests := hasAny q testsWords in
  let isDb := hasAny q dbWords in
  let isAuth := hasAny q authWords in
  let isOpenApi := hasAny q openApiWords in
  let isMigrations := hasAny q migrationsWords in
  if isTests then
    {| intent := tests; prefixes := [lit "apps/api/README.md"] |}
  else if isMigrations then
    {| intent := migrations;
       prefixes := [lit "apps/docs/app/adr/"; lit "README.md"] |}
  else if isOpenApi then
    {| intent := openapi;
       prefixes := [lit "apps/api/README.md";
                    lit "apps/docs/app/adr/0002-fastify-typebox-openapi.md"] |}
  else if isAuth then
    {| intent := auth; prefixes := [lit "apps/api/README.md"; lit "README.md"] |}
  else if isDb then
    {| intent := db; prefixes := [lit "README.md"; lit "apps/api/README.md"] |}
  else {| intent := general; prefixes := [] |}.

(** The options object of [assembleContextFromCandidates]. *)
Record Opts := {
  maxChunks : Z;
  maxPerFile : Z;
  maxCharsPerChunk : Z;
  minChars : Z;
  dropStatus : bool;
  priorityPrefixes : list jsstring
}.

(** The [for (const r of candidates)] loop, with its [continue]s and its
    [break]. *)
Fixpoint selectLoop (opts : Opts) (candidates : list RetrievedChunk)
    (st : SelState) : SelState :=
  match candidates with
  | [] => st
  | r :: rest =>
      if isLowSignalChunk toLowerCase r (minChars opts) (dropStatus opts)
           (priorityPrefixes opts)
      then selectLoop opts rest st
      else
        let file := sourcePath (metadata (chunk r)) in
        let isPriority := isPrioritySource file (priorityPrefixes opts) in
        if bool_decide (dedupKey r ∈ seen st) then selectLoop opts rest st
        else
          let seen' := {[dedupKey r]} ∪ seen st in
          let count := default 0 (perFileCount st !! file) in
          if negb isPriority && (maxPerFile opts <=? count) then
            selectLoop opts rest
              {| perFileCount := perFileCount st; seen := seen';
                 selected := selected st |}
          else
            let st' :=
              {| perFileCount :=
                   if negb isPriority
                   then <[file := count + 1]> (perFileCount st)
                   else perFileCount st;
                 seen := seen';
                 selected := selected st ++ [r] |} in
            if maxChunks opts <=? len (selected st') then st'
            else selectLoop opts rest st'
  end.

(** One block of the context string: the citation number of [S<i+1>],
    the source, the similarity (printed with four decimals) and the
    truncated text. *)
Record ContextBlock := {
  citation : Z;
  source : jsstring;
  shownSimilarity : float;
  body : jsstring
}.

Definition render (maxCharsPerChunk : Z) (sel : list RetrievedChunk)
    : list ContextBlock :=
  imap (fun i r =>
          {| citation := Z.of_nat i + 1;
             source := formatSource r;
             shownSimilarity := similarity r;
             body := truncateText (text (chunk r)) maxCharsPerChunk |}) sel.

(** The returned object; [chosen] is its [selected] field. *)
Record Assembled := {
  context : list ContextBlock;
  chosen : list RetrievedChunk
}.

Definition assembleContextFromCandidates (candidates : list RetrievedChunk)
    (opts : Opts) : Assembled :=
  let sel := selected (selectLoop opts candidates emptySel) in
  {| context := render (maxCharsPerChunk opts) sel; chosen := sel |}.

(** The relaxed options of the second pass. *)
Definition relaxed (opts : Opts) : Opts :=
  {| maxChunks := maxChunks opts;
     maxPerFile := maxPerFile opts;
     maxCharsPerChunk := maxCharsPerChunk opts;
     minChars := Z.min (minChars opts) 60;
     dropStatus := false;
     priorityPrefixes := priorityPrefixes opts |}.

(** Step 3 of the script: [assembled] after the fallback ladder, from
    [candidatesForSelection] and the options built from the command
    line and the route plan. *)
Definition assembled (candidatesForSelection : list RetrievedChunk)
    (opts : Opts) : Assembled :=
  let first := assembleContextFromCandidates candidatesForSelection opts in
  if len (chosen first) =? 0 then
    let second :=
      assembleContextFromCandidates candidatesForSelection (relaxed opts) in
    if len (chosen second) =? 0 then
      let fallbackChosen := slice0 candidatesForSelection (maxChunks opts) in
      {| context := render (maxCharsPerChunk opts) fallbackChosen;
         chosen := fallbackChosen |}
    else second
  else first.
End WithLowerCase.
End Ask.

(* ===================================================================== *)
(** * scripts/eval.ts *)
(* ===================================================================== *)

Module Eval.

Record EvalCase := {
  caseId : option jsstring;
  q : jsstring;
  caseCollection : jsstring;
  mustContain : list jsstring
}.

(** ** Matching helpers *)

Definition normalizeSource (r : RetrievedChunk) : jsstring := formatSource r.

Definition toPathOnly (s : jsstring) : jsstring :=
  match indexOf s 35%N with
  | None => s
  | Some idx => firstn idx s
  end.

Definition jsstring_eqb (a b : jsstring) : bool := bool_decide (a = b).

Definition sourceMatchesNeedle (source needle : jsstring) : bool :=
  let sPath := toPathOnly source in
  let nPath := toPathOnly needle in
  if jsstring_eqb sPath nPath then true
  else if startsWith sPath nPath then true
  else if includes source needle then true
  else false.

Definition hitAtK (selectedSources mustContain : list jsstring) (k : Z) : bool :=
  let top := slice0 selectedSources k in
  existsb (fun needle => existsb (fun s => sourceMatchesNeedle s needle) top)
    mustContain.

(** ** Selection *)

Record Opts := {
  maxChunks : Z;
  maxPerFile : Z;
  minChars : Z;
  dropStatus : bool;
  priorityPrefixes : list jsstring
}.

(** ** The store, as [retrieveWithRouting] queries it: one collection, a
    query vector, a fetch width and an optional [sourcePathPrefix]. *)
Record SearchParams := {
  collections : list jsstring;
  queryVector : list float;
  searchTopK : Z;
  sourcePathPrefix : option jsstring
}.

(** ** Command line *)
Record Args := {
  topK : Z;
  argMaxChunks : Z;
  argMaxPerFile : Z;
  argMinChars : Z;
  argDropStatus : bool;
  debugMisses : bool
}.

(** [c.id ?? total] *)
Inductive CaseLabel := ById (name : jsstring) | ByIndex (n : Z).

(** What the run writes to the console, line by line. *)
Inductive Event :=
| MissingEmbedding (label : CaseLabel)
| CaseLine (label : CaseLabel) (ok3 : bool) (best : option jsstring)
           (query : jsstring)
| MissDetails (must : list jsstring) (i : Intent) (pre : list jsstring)
              (top : list jsstring)
| ResultsHeader
| ResultLine (k hitCount total : Z)
| DoneLine.

(** The variables of the main loop. *)
Record LoopState := {
  total : Z;
  hits : gmap Z Z;
  log : list Event
}.

(** How the script ends. *)
Inductive Outcome :=
| Exited (exitCode : Z)
| Threw (e : Error) (at_ : LoopState)
| Finished (final : LoopState).

Section WithEnvironment.
Variable toLowerCase : jsstring -> jsstring.
Variable post : jsstring -> jsstring -> option HttpResponse.
Variable search : SearchParams -> list RetrievedChunk.

(** ** Intent routing *)

Definition testsWords : list string :=
  ["integration test"; "integration tests"; "vitest"; "test:db";
   "pnpm test"]%string.

Definition dbWords : list string :=
  ["database"; "postgres"; "postgresql"; "pg pool"; "connection";
   "access the database"]%string.

Definition authWords : list string :=
  ["authentication"; "auth"; "x-user-id"; "jwt"; "oauth"; "cognito"]%string.

Definition openApiWords : list string :=
  ["openapi"; "swagger"; "typebox"]%string.

Definition migrationsWords : list string :=
  ["migration"; "migrations"; "database migrations";
   "how are database migrations handled"; "sql-first"]%string.

(** The keyword table, by intent. *)
Definition wordsOf (i : Intent) : list string :=
  match i with
  | tests => testsWords
  | migrations => migrationsWords
  | openapi => openApiWords
  | auth => authWords
  | db => dbWords
  | general => []
  end.

Definition inferRoutePlan (query : jsstring) : RoutePlan :=
  let q := toLowerCase query in
  let isTests := hasAny q testsWords in
  let isDb := hasAny q dbWords in
  let isAuth := hasAny q authWords in
  let isOpenApi := hasAny q openApiWords in
  let isMigrations := hasAny q migrationsWords in
  if isTests then
    {| intent := tests; prefixes := [lit "apps/api/README.md"] |}
  else if isMigrations then
    {| intent := migrations;
       prefixes := [lit "apps/docs/app/adr/"; lit "apps/docs/README.md";
                    lit "README.md"] |}
  else if isOpenApi then
    {| intent := openapi;
       prefixes := [lit "apps/api/README.md";
                    lit "apps/docs/app/adr/0002-fastify-typebox-openapi.md"] |}
  else if isAuth then
    {| intent := auth; prefixes := [lit "apps/api/README.md"; lit "README.md"] |}
  else if isDb then
    {| intent := db; prefixes := [lit "README.md"; lit "apps/api/README.md"] |}
  else {| intent := general; prefixes := [] |}.

(** ** Routed retrieval *)

(** [pushDedup]: appends the unseen items to [out] and returns as soon
    as [out] holds [topK] of them. *)
Fixpoint pushDedup (topK : Z) (items : list RetrievedChunk)
    (st : list RetrievedChunk * gset jsstring)
    : list RetrievedChunk * gset jsstring :=
  match items with
  | [] => st
  | r :: rest =>
      if bool_decide (id (chunk r) ∈ st.2) then pushDedup topK rest st
      else
        let st' := (st.1 ++ [r], {[id (chunk r)]} ∪ st.2) in
        if topK <=? len st'.1 then st' else pushDedup topK rest st'
  end.

Definition fetch (coll : jsstring) (qv : list float) (topK : Z)
    (flt : option jsstring) : list RetrievedChunk :=
  search {| collections := [coll]; queryVector := qv;
            searchTopK := Z.max topK 32; sourcePathPrefix := flt |}.

(** The routed-first loop: [inl out] when it returns from inside the
    loop, [inr st] when it falls through to the backfill. *)
Fixpoint routedFirst (coll : jsstring) (qv : list float) (topK : Z)
    (pre : list jsstring) (st : list RetrievedChunk * gset jsstring)
    : list RetrievedChunk + list RetrievedChunk * gset jsstring :=
  match pre with
  | [] => inr st
  | p :: rest =>
      let st' := pushDedup topK (fetch coll qv topK (Some p)) st in
      if topK <=? len st'.1 then inl st'.1
      else routedFirst coll qv topK rest st'
  end.

Definition retrieveWithRouting (coll query : jsstring) (qv : list float)
    (topK : Z) : RoutePlan * list RetrievedChunk :=
  let plan := inferRoutePlan query in
  match routedFirst coll qv topK (prefixes plan) ([], ∅) with
  | inl out => (plan, out)
  | inr st =>
      let st' := pushDedup topK (fetch coll qv topK None) st in
      (plan, slice0 st'.1 topK)
  end.

(** ** Selection *)

(** The [for (const r of candidates)] loop of [selectForContext]. *)
Fixpoint selectLoop (opts : Opts) (candidates : list RetrievedChunk)
    (st : SelState) : SelState :=
  match candidates with
  | [] => st
  | r :: rest =>
      if isLowSignalChunk toLowerCase r (minChars opts) (dropStatus opts)
           (priorityPrefixes opts)
      then selectLoop opts rest st
      else
        let file := sourcePath (metadata (chunk r)) in
        if bool_decide (dedupKey r ∈ seen st) then selectLoop opts rest st
        else
          let seen' := {[dedupKey r]} ∪ seen st in
          let count := default 0 (perFileCount st !! file) in
          if maxPerFile opts <=? count then
            selectLoop opts rest
              {| perFileCount := perFileCount st; seen := seen';
                 selected := selected st |}
          else
            let st' :=
              {| perFileCount := <[file := count + 1]> (perFileCount st);
                 seen := seen';
                 selected := selected st ++ [r] |} in
            if maxChunks opts <=? len (selected st') then st'
            else selectLoop opts rest st'
  end.

Definition selectForContext (candidates : list RetrievedChunk)
    (opts : Opts) : list RetrievedChunk :=
  selected (selectLoop opts candidates emptySel).

(** The options of the first pass, from the command line and the plan. *)
Definition primary (args : Args) (pre : list jsstring) : Opts :=
  {| maxChunks := argMaxChunks args;
     maxPerFile := argMaxPerFile args;
     minChars := argMinChars args;
     dropStatus := argDropStatus args;
     priorityPrefixes := pre |}.

(** The options of the second pass. *)
Definition relaxed (args : Args) (pre : list jsstring) : Opts :=
  {| maxChunks := argMaxChunks args;
     maxPerFile := argMaxPerFile args;
     minChars := Z.min (argMinChars args) 60;
     dropStatus := false;
     priorityPrefixes := pre |}.

(** [selectedFinal] after the fallback ladder. *)
Definition selectedFinal (args : Args) (pre : list jsstring)
    (candidatePool : list RetrievedChunk) : list RetrievedChunk :=
  let first := selectForContext candidatePool (primary args pre) in
  if len first =? 0 then
    let second := selectForContext candidatePool (relaxed args pre) in
    if len second =? 0 then slice0 candidatePool (argMaxChunks args)
    else second
  else first.

(** ** The main loop *)

(** [ks] *)
Definition ks (args : Args) : list Z :=
  List.filter (fun x => x <=? argMaxChunks args) [1; 3; 5; 8].

(** [Object.fromEntries(ks.map((k) => [k, 0]))] *)
Definition initialHits (args : Args) : gmap Z Z :=
  list_to_map (map (fun k => (k, 0)) (ks args)).

Definition initialState (args : Args) : LoopState :=
  {| total := 0; hits := initialHits args; log := [] |}.

(** [for (const k of ks) if (hitAtK(...)) hits[k] = (hits[k] ?? 0) + 1] *)
Definition countHits (args : Args) (sources must : list jsstring)
    (h : gmap Z Z) : gmap Z Z :=
  fold_left
    (fun h k =>
       if hitAtK sources must k then <[k := default 0 (h !! k) + 1]> h else h)
    (ks args) h.

(** One turn of [for (const c of cases)]: [inl] when the turn throws
    (with the state at that point), [inr] when it runs to its end or to
    its [continue]. *)
Definition caseStep (args : Args) (st : LoopState) (c : EvalCase)
    : Error * LoopState + LoopState :=
  let total' := total st + 1 in
  let label := match caseId c with
               | Some name => ById name
               | None => ByIndex total'
               end in
  match Embeddings.embed post [q c] None with
  | inl e => inl (e, {| total := total'; hits := hits st; log := log st |})
  | inr [] =>
      inr {| total := total'; hits := hits st;
             log := log st ++ [MissingEmbedding label] |}
  | inr (qVec :: _) =>
      let '(plan, retrieved) :=
        retrieveWithRouting (caseCollection c) (q c) qVec (topK args) in
      let candidatePool :=
        slice0 retrieved (Z.max (topK args) (argMaxChunks args * 4)) in
      let sel := selectedFinal args (prefixes plan) candidatePool in
      let sources := map normalizeSource sel in
      let hits' := countHits args sources (mustContain c) (hits st) in
      let ok3 := hitAtK sources (mustContain c) 3 in
      let line := CaseLine label ok3 (head sources) (q c) in
      let details :=
        if negb ok3 && debugMisses args
        then [MissDetails (mustContain c) (intent plan) (prefixes plan)
                (slice0 sources (Z.min 8 (len sources)))]
        else [] in
      inr {| total := total'; hits := hits';
             log := log st ++ line :: details |}
  end.

Fixpoint runCases (args : Args) (cases : list EvalCase) (st : LoopState)
    : Error * LoopState + LoopState :=
  match cases with
  | [] => inr st
  | c :: rest =>
      match caseStep args st c with
      | inl stop => inl stop
      | inr st' => runCases args rest st'
      end
  end.

(** The report after the loop: one line per [k] of [ks]. *)
Definition report (args : Args) (st : LoopState) : list Event :=
  ResultsHeader
    :: map (fun k => ResultLine k (default 0 (hits st !! k)) (total st))
         (ks args)
    ++ [DoneLine].

(** The script from [loadJsonl] on: no cases ends the process with code
    1; an exception of a turn ends it where it is; otherwise the report
    is printed. *)
Definition main (args : Args) (cases : list EvalCase) : Outcome :=
  match cases with
  | [] => Exited 1
  | _ :: _ =>
      match runCases args cases (initialState args) with
      | inl (e, st) => Threw e st
      | inr st =>
          Finished {| total := total st; hits := hits st;
                      log := log st ++ report args st |}
      end
  end.

End WithEnvironment.
End Eval.

(** The values of [k] for which a console line shows a hit@k: the line of
    a case shows [hit@3], a result line shows [hit@k]. *)
Definition hitKsOf (e : Eval.Event) : list Z :=
  match e with
  | Eval.CaseLine _ _ _ _ => [3]
  | Eval.ResultLine k _ _ => [k]
  | _ => []
  end.

(** The [k]s of the result lines of a log, in order. *)
Definition resultKs (l : list Eval.Event) : list Z :=
  flat_map (fun e => match e with
                     | Eval.ResultLine k _ _ => [k]
                     | _ => []
                     end) l.

(* ===================================================================== *)
(** * scripts/ask.ts, legacy variant: the selection without routing *)
(* ===================================================================== *)

Module Legacy.
Section WithLowerCase.
Variable toLowerCase : jsstring -> jsstring.

(** The optional fields of the options object of [isLowSignalChunk]. *)
Record FilterOpts := {
  filterMinChars : option Z;
  filterDropStatus : option bool
}.

(** [isLowSignalChunk(r, opts?)]: no priority sources here. *)
Definition isLowSignalChunk (r : RetrievedChunk) (opts : option FilterOpts)
    : bool :=
  let minChars := default 120 (opts ≫= filterMinChars) in
  if len (trim (text (chunk r))) <? minChars then true
  else
    let dropStatus := default true (opts ≫= filterDropStatus) in
    if dropStatus && includes (toLowerCase (sectionKey r)) (lit "status")
    then true
    else false.

(** The optional fields of the options object of [assembleContext]. *)
Record Opts := {
  maxChunks : option Z;
  maxPerFile : option Z;
  maxCharsPerChunk : option Z;
  minChars : option Z;
  dropStatus : option bool
}.

(** [filterOpts], rebuilt at every turn from the fields that are defined. *)
Definition filterOptsOf (opts : option Opts) : option FilterOpts :=
  Some {| filterMinChars := opts ≫= minChars;
          filterDropStatus := opts ≫= dropStatus |}.

Fixpoint selectLoop (opts : option Opts) (results : list RetrievedChunk)
    (st : SelState) : SelState :=
  let maxChunks := default 6 (opts ≫= maxChunks) in
  let maxPerFile := default 2 (opts ≫= maxPerFile) in
  match results with
  | [] => st
  | r :: rest =>
      if isLowSignalChunk r (filterOptsOf opts) then selectLoop opts rest st
      else
        let file := sourcePath (metadata (chunk r)) in
        if bool_decide (dedupKey r ∈ seen st) then selectLoop opts rest st
        else
          let seen' := {[dedupKey r]} ∪ seen st in
          let count := default 0 (perFileCount st !! file) in
          if maxPerFile <=? count then
            selectLoop opts rest
              {| perFileCount := perFileCount st; seen := seen';
                 selected := selected st |}
          else
            let st' :=
              {| perFileCount := <[file := count + 1]> (perFileCount st);
                 seen := seen';
                 selected := selected st ++ [r] |} in
            if maxChunks <=? len (selected st') then st'
            else selectLoop opts rest st'
  end.

(** The [selected] field of what [assembleContext] returns. *)
Definition assembleContext (results : list RetrievedChunk)
    (opts : option Opts) : list RetrievedChunk :=
  selected (selectLoop opts results emptySel).

End WithLowerCase.
End Legacy.

(* ===================================================================== *)
(** * scripts/ask.ts, continued: diversification and the candidate pool *)
(* ===================================================================== *)

Module AskFlow.

(** [Math.max(...values)]: NaN as soon as one value is NaN; otherwise the
    largest value, starting from -Infinity, with [+0] above [-0]. *)
Definition mathMax (values : list float) : float :=
  if existsb is_nan values then nan
  else
    fold_left
      (fun highest x =>
         if (is_zero x && negb (get_sign x))
            && (is_zero highest && get_sign highest)
         then x
         else if (highest <? x)%float then x
         else highest)
      values neg_infinity.

(** [redundancy] of a remaining candidate against the selected items. *)
Definition redundancy (selected : list RetrievedChunk) (c : RetrievedChunk)
    : float :=
  match selected, vector c with
  | _ :: _, Some cv =>
      mathMax (map (fun s => match vector s with
                             | Some sv => cosine cv sv
                             | None => 0%float
                             end) selected)
  | _, _ => 0%float
  end.

Definition mmrScore (lambda : float) (selected : list RetrievedChunk)
    (c : RetrievedChunk) : float :=
  (lambda * similarity c - (1 - lambda) * redundancy selected c)%float.

(** One turn of the inner [for] loop on [(bestIdx, bestScore)]. *)
Definition bestStep (lambda : float) (selected : list RetrievedChunk)
    (best : nat * float) (ic : nat * RetrievedChunk) : nat * float :=
  let score := mmrScore lambda selected ic.2 in
  if (best.2 <? score)%float then (ic.1, score) else best.

(** [bestIdx] after the inner loop over [remaining]. *)
Definition bestIdx (lambda : float) (selected remaining : list RetrievedChunk)
    : nat :=
  (fold_left (bestStep lambda selected)
     (combine (seq 0 (length remaining)) remaining)
     (O, neg_infinity)).1.

(** The [while] loop; every turn moves one item from [remaining] to
    [selected], so [fuel] turns are enough when [fuel] is the length of
    [remaining]. *)
Fixpoint mmrLoop (fuel : nat) (k : Z) (lambda : float)
    (selected remaining : list RetrievedChunk) : list RetrievedChunk :=
  match fuel with
  | O => selected
  | S fuel' =>
      if (len selected <? k) && (0 <? len remaining) then
        let i := bestIdx lambda selected remaining in
        match remaining !! i with
        | Some c => mmrLoop fuel' k lambda (selected ++ [c]) (delete i remaining)
        | None => selected
        end
      else selected
  end.

Definition mmrSelect (candidates : list RetrievedChunk) (k : Z)
    (lambda : float) : list RetrievedChunk :=
  mmrLoop (length candidates) k lambda [] candidates.

(** The store as ask.ts queries it. *)
Record SearchParams := {
  collections : list jsstring;
  queryVector : list float;
  searchTopK : Z;
  includeVectors : bool;
  sourcePathPrefix : option jsstring
}.

(** The options of the command line that shape the candidate pool. *)
Record Args := {
  topK : Z;
  maxChunks : Z;
  useMmr : bool;
  mmrLambda : float;
  k : Z;
  minSim : float
}.

Section WithEnvironment.
Variable toLowerCase : jsstring -> jsstring.
Variable search : SearchParams -> list RetrievedChunk.

Definition fetch (coll : jsstring) (qv : list float) (topK : Z)
    (vectors : bool) (flt : option jsstring) : list RetrievedChunk :=
  search {| collections := [coll]; queryVector := qv;
            searchTopK := Z.max topK 32; includeVectors := vectors;
            sourcePathPrefix := flt |}.

(** The routed-first loop; [pushDedup] is the same text as in eval.ts. *)
Fixpoint routedFirst (coll : jsstring) (qv : list float) (topK : Z)
    (vectors : bool) (pre : list jsstring)
    (st : list RetrievedChunk * gset jsstring)
    : list RetrievedChunk + list RetrievedChunk * gset jsstring :=
  match pre with
  | [] => inr st
  | p :: rest =>
      let st' := Eval.pushDedup topK (fetch coll qv topK vectors (Some p)) st in
      if topK <=? len st'.1 then inl st'.1
      else routedFirst coll qv topK vectors rest st'
  end.

Definition retrieveWithRouting (coll query : jsstring) (qv : list float)
    (topK : Z) (vectors : bool) : RoutePlan * list RetrievedChunk :=
  let plan := Ask.inferRoutePlan toLowerCase query in
  match routedFirst coll qv topK vectors (prefixes plan) ([], ∅) with
  | inl out => (plan, out)
  | inr st =>
      let st' := Eval.pushDedup topK (fetch coll qv topK vectors None) st in
      (plan, slice0 st'.1 topK)
  end.

(** [retrievalTopK] and [candidatePoolSize] *)
Definition retrievalTopK (args : Args) : Z := Z.max (topK args) 16.

Definition candidatePoolSize (args : Args) : Z :=
  Z.max (retrievalTopK args) (maxChunks args * 4).

(** [candidatesForSelection], from [retrievedRaw]. *)
Definition candidatesForSelection (args : Args)
    (retrievedRaw : list RetrievedChunk) : list RetrievedChunk :=
  if useMmr args then
    let pool :=
      List.filter (fun c => (minSim args <=? similarity c)%float)
        retrievedRaw in
    let mmrK := Z.max (candidatePoolSize args) (k args) in
    let mmrChosen := mmrSelect pool mmrK (mmrLambda args) in
    slice0 (if 0 <? len mmrChosen then mmrChosen else retrievedRaw)
      (candidatePoolSize args)
  else slice0 retrievedRaw (candidatePoolSize args).

(** Steps 2 of the script: the plan and the candidates that go to the
    selection, from the query and its vector. *)
Definition retrieveCandidates (args : Args) (coll query : jsstring)
    (qv : list float) : RoutePlan * list RetrievedChunk :=
  let '(plan, retrievedRaw) :=
    retrieveWithRouting coll query qv (retrievalTopK args) (useMmr args) in
  (plan, candidatesForSelection args retrievedRaw).

End WithEnvironment.
End AskFlow.


(* ===================================================================== *)
(** * packages/vectorstore/src/sqliteStore.ts *)
(* ===================================================================== *)

Module Store.

(** A row of the table [chunks]. *)
Record TableRow := {
  chunk_id : jsstring;
  rowCollection : jsstring;
  rowText : jsstring;
  metadata_json : jsstring;
  vector_json : jsstring
}.

Record EmbeddedChunk := { embeddedChunk : Chunk; embeddedVector : list float }.

Record VectorStoreFilter := {
  allowedSourceTypes : option (list jsstring);
  sourcePathPrefix : option jsstring
}.

Record SearchParams := {
  collections : list jsstring;
  queryVector : list float;
  topK : Z;
  filter : option VectorStoreFilter;
  includeVectors : option bool
}.

(** The string that the [sourceType] field holds. *)
Definition sourceTypeName (t : SourceType) : jsstring :=
  match t with
  | markdown => lit "markdown"
  | text_doc => lit "text"
  | code => lit "code"
  end.

(** [normalizePath]: backslashes become slashes, then one leading "./"
    and then one leading "/" are removed. *)
Definition normalizePath (p : jsstring) : jsstring :=
  let s := map (fun c => if N.eqb c 92 then 47%N else c) p in
  let s := if startsWith s (lit "./") then skipn 2 s else s in
  if startsWith s (lit "/") then skipn 1 s else s.

Section WithJson.
(** [JSON.stringify] and [JSON.parse] on the two JSON columns, and
    [Array.prototype.sort] with the comparator
    [(a, b) => b.similarity - a.similarity]. *)
Variable stringifyMetadata : ChunkMetadata -> jsstring.
Variable parseMetadata : jsstring -> ChunkMetadata.
Variable stringifyVector : list float -> jsstring.
Variable parseVector : jsstring -> list float.
Variable sortBySimilarity : list RetrievedChunk -> list RetrievedChunk.

(** The table is the list of its rows in the order in which the SELECT
    of [search] reads them.  One [stmt.run]: the row of the same
    [chunk_id] is replaced where it stands, a new row is added. *)
Definition upsertRow (collection : jsstring) (table : list TableRow)
    (it : EmbeddedChunk) : list TableRow :=
  let row :=
    {| chunk_id := id (embeddedChunk it);
       rowCollection := collection;
       rowText := text (embeddedChunk it);
       metadata_json := stringifyMetadata (metadata (embeddedChunk it));
       vector_json := stringifyVector (embeddedVector it) |} in
  if existsb (fun r => bool_decide (chunk_id r = chunk_id row)) table
  then map (fun r => if bool_decide (chunk_id r = chunk_id row) then row
                     else r) table
  else table ++ [row].

(** [upsertEmbeddedChunks]: the transaction runs the statement on every
    item in turn. *)
Definition upsertEmbeddedChunks (collection : jsstring)
    (items : list EmbeddedChunk) (table : list TableRow) : list TableRow :=
  fold_left (upsertRow collection) items table.

(** [prefixNorm]: [null] when the prefix is absent or empty. *)
Definition prefixNormOf (flt : VectorStoreFilter) : option jsstring :=
  match sourcePathPrefix flt with
  | Some (c :: p) => Some (normalizePath (c :: p))
  | _ => None
  end.

(** The two [continue]s of the loop over the rows. *)
Definition passesFilter (flt : VectorStoreFilter) (md : ChunkMetadata)
    : bool :=
  (match allowedSourceTypes flt with
   | Some (t :: ts) =>
       existsb (fun a => bool_decide (a = sourceTypeName (sourceType md)))
         (t :: ts)
   | _ => true
   end)
  &&
  (match prefixNormOf flt with
   | Some (c :: p) => startsWith (normalizePath (sourcePath md)) (c :: p)
   | _ => true
   end).

(** What the loop pushes on [scored] for a row that passes. *)
Definition scoreRow (params : SearchParams) (row : TableRow)
    : RetrievedChunk :=
  let vec := parseVector (vector_json row) in
  {| chunk := {| id := chunk_id row; text := rowText row;
                 metadata := parseMetadata (metadata_json row) |};
     similarity := cosineSimilarity (queryVector params) vec;
     vector := if default false (includeVectors params) then Some vec
               else None |}.

Definition emptyFilter : VectorStoreFilter :=
  {| allowedSourceTypes := None; sourcePathPrefix := None |}.

Definition search (table : list TableRow) (params : SearchParams)
    : list RetrievedChunk :=
  if len (collections params) =? 0 then []
  else if topK params <=? 0 then []
  else
    let rows :=
      List.filter
        (fun row => existsb (fun c => bool_decide (c = rowCollection row))
                      (collections params)) table in
    let flt := default emptyFilter (filter params) in
    let scored :=
      map (scoreRow params)
        (List.filter
           (fun row => passesFilter flt (parseMetadata (metadata_json row)))
           rows) in
    slice0 (sortBySimilarity scored) (topK params).

End WithJson.

(** A stable insertion sort for the comparator of [search]: [x] moves
    behind [y] when [y.similarity - x.similarity] is positive. *)
Fixpoint insertBySimilarity (x : RetrievedChunk) (l : list RetrievedChunk)
    : list RetrievedChunk :=
  match l with
  | [] => [x]
  | y :: l' =>
      if (0 <? similarity y - similarity x)%float
      then y :: insertBySimilarity x l'
      else x :: l
  end.

Definition insertionSort (l : list RetrievedChunk) : list RetrievedChunk :=
  foldr insertBySimilarity [] l.

End Store.

(* ===================================================================== *)
(** * scripts/ingest.ts: from the chunks to the stored rows *)
(* ===================================================================== *)

Module Ingest.

(** The exceptions of the script: those of [embed], and its own three
    checks. *)
Inductive Failure :=
| EmbedFailed (e : Error)
| CountMismatch (got expected : Z)
| DimensionMismatch (expected got : Z)
| MissingEmbedding (index : Z).

Section WithEmbedder.
Variable post : jsstring -> jsstring -> option HttpResponse.

(** [chunks.map((chunk, i) => ...)]: [inl i] at the first index without a
    vector. *)
Fixpoint pairItems (i : Z) (chunks : list Chunk) (vectors : list (list float))
    : Z + list Store.EmbeddedChunk :=
  match chunks with
  | [] => inr []
  | c :: rest =>
      match vectors with
      | [] => inl i
      | v :: vs =>
          match pairItems (i + 1) rest vs with
          | inl j => inl j
          | inr items =>
              inr ({| Store.embeddedChunk := c; Store.embeddedVector := v |}
                     :: items)
          end
      end
  end.

(** From [result.chunks] to the [items] handed to
    [upsertEmbeddedChunks]. *)
Definition embedChunks (chunks : list Chunk)
    : Failure + list Store.EmbeddedChunk :=
  match Embeddings.embed post (map text chunks) None with
  | inl e => inl (EmbedFailed e)
  | inr vectors =>
      if negb (len vectors =? len chunks)
      then inl (CountMismatch (len vectors) (len chunks))
      else
        let dim := match vectors with v :: _ => len v | [] => 0 end in
        match find (fun v => negb (len v =? dim)) vectors with
        | Some v => inl (DimensionMismatch dim (len v))
        | None =>
            match pairItems 0 chunks vectors with
            | inl i => inl (MissingEmbedding i)
            | inr items => inr items
            end
        end
  end.

End WithEmbedder.
End Ingest.


(* ===================================================================== *)
(** * Notions used to state and prove the properties *)
(* ===================================================================== *)

(** The accumulators of the cosine loop when the two vectors trade
    places. *)
Definition swapAcc (acc : CosAcc) : CosAcc :=
  {| dot := dot acc; na := nb acc; nb := na acc |}.

(** The Cauchy-Schwarz invariant of the exact loop. *)
Definition csInv (acc : CosAccR) : Prop :=
  (0 <= naR acc /\ 0 <= nbR acc /\
   dotR acc * dotR acc <= naR acc * nbR acc)%R.

(** The lines that a turn of the main loop of eval.ts can print. *)
Definition isLoopEvent (e : Eval.Event) : bool :=
  match e with
  | Eval.MissingEmbedding _ | Eval.CaseLine _ _ _ _
  | Eval.MissDetails _ _ _ _ => true
  | _ => false
  end.

(** What every turn of that loop preserves: the keys of [hits] are the
    members of [ks], and the log holds lines of the loop only. *)
Definition loopInv (args : Eval.Args) (st : Eval.LoopState) : Prop :=
  dom (Eval.hits st) = list_to_set (Eval.ks args) /\
  forallb isLoopEvent (Eval.log st) = true.

(** The two selection loops in one: they differ only in whether a
    priority source escapes the per-file cap ([waive], true for ask.ts,
    false for eval.ts).  Each loop is shown below to be an instance. *)
Section GenericSelection.
Variable toLowerCase : jsstring -> jsstring.
Variable waive : bool.
Variables (minChars : Z) (dropStatus : bool).
Variable priorityPrefixes : list jsstring.
Variables (maxPerFile maxChunks : Z).

(** The files that the per-file cap leaves alone. *)
Definition exempt (file : jsstring) : bool :=
  waive && isPrioritySource file priorityPrefixes.

Fixpoint genLoop (candidates : list RetrievedChunk) (st : SelState)
    : SelState :=
  match candidates with
  | [] => st
  | r :: rest =>
      if isLowSignalChunk toLowerCase r minChars dropStatus priorityPrefixes
      then genLoop rest st
      else
        let file := sourcePath (metadata (chunk r)) in
        if bool_decide (dedupKey r ∈ seen st) then genLoop rest st
        else
          let seen' := {[dedupKey r]} ∪ seen st in
          let count := default 0 (perFileCount st !! file) in
          if negb (exempt file) && (maxPerFile <=? count) then
            genLoop rest
              {| perFileCount := perFileCount st; seen := seen';
                 selected := selected st |}
          else
            let st' :=
              {| perFileCount :=
                   if negb (exempt file)
                   then <[file := count + 1]> (perFileCount st)
                   else perFileCount st;
                 seen := seen';
                 selected := selected st ++ [r] |} in
            if maxChunks <=? len (selected st') then st'
            else genLoop rest st'
  end.
End GenericSelection.

(** The number of items of a list that come from a file. *)
Definition fromFile (file : jsstring) (l : list RetrievedChunk) : Z :=
  len (List.filter
         (fun r => bool_decide (sourcePath (metadata (chunk r)) = file)) l).

(** The dedup key as a function of the [(sourcePath, sectionPath)] pair. *)
Definition keyOfPair (p : jsstring * option jsstring) : jsstring :=
  p.1 ++ lit "::" ++ default [] p.2.

(** The keys of the selected items are distinct and all in [seen]. *)
Definition dedupInv (st : SelState) : Prop :=
  NoDup (map dedupKey (selected st)) /\
  forall r, r ∈ selected st -> dedupKey r ∈ seen st.

(** For a file under the cap, [perFileCount] is the number of its selected
    items, and that number is within the cap. *)
Definition capInv (waive : bool) (priorityPrefixes : list jsstring)
    (maxPerFile : Z) (st : SelState) : Prop :=
  forall file, exempt waive priorityPrefixes file = false ->
    default 0 (perFileCount st !! file) = fromFile file (selected st) /\
    fromFile file (selected st) <= Z.max 0 maxPerFile.

(** Every item of a pool is an unrouted chunk whose trimmed text is
    shorter than [minChars]. *)
Definition allShort (minChars : Z) (priorityPrefixes : list jsstring)
    (pool : list RetrievedChunk) : bool :=
  forallb (fun r =>
             negb (isPrioritySource (sourcePath (metadata (chunk r)))
                     priorityPrefixes)
             && (len (trim (text (chunk r))) <? minChars)) pool.

(** Every item of a pool comes from a priority source. *)
Definition allPriority (priorityPrefixes : list jsstring)
    (pool : list RetrievedChunk) : bool :=
  forallb (fun r => isPrioritySource (sourcePath (metadata (chunk r)))
                      priorityPrefixes) pool.

(** The chunk ids of a list of items. *)
Definition idsOf (l : list RetrievedChunk) : gset jsstring :=
  list_to_set (map (fun r => id (chunk r)) l).

(** The items of a list whose chunk id is neither in [seen] nor carried
    by an earlier item of the list. *)
Fixpoint dedupFrom (seen : gset jsstring) (items : list RetrievedChunk)
    : list RetrievedChunk :=
  match items with
  | [] => []
  | r :: rest =>
      if bool_decide (id (chunk r) ∈ seen) then dedupFrom seen rest
      else r :: dedupFrom ({[id (chunk r)]} ∪ seen) rest
  end.

(** The routed-first loop over the results of its fetches. *)
Fixpoint routedOver (topK : Z) (fetched : list (list RetrievedChunk))
    (st : list RetrievedChunk * gset jsstring)
    : list RetrievedChunk + list RetrievedChunk * gset jsstring :=
  match fetched with
  | [] => inr st
  | items :: rest =>
      let st' := Eval.pushDedup topK items st in
      if topK <=? len st'.1 then inl st'.1 else routedOver topK rest st'
  end.

(** A whole retrieval over the results of its routed fetches and of its
    backfill fetch. *)
Definition retrieveOver (topK : Z) (fetched : list (list RetrievedChunk))
    (backfill : list RetrievedChunk) : list RetrievedChunk :=
  match routedOver topK fetched ([], ∅) with
  | inl out => out
  | inr st => slice0 (Eval.pushDedup topK backfill st).1 topK
  end.

(** The lines of cases in a log. *)
Definition caseLines (l : list Eval.Event) : list Eval.Event :=
  List.filter (fun e => match e with
                        | Eval.CaseLine _ _ _ _ => true
                        | _ => false
                        end) l.

(** [hits[k] ?? 0] *)
Definition hitCount (h : gmap Z Z) (k : Z) : Z := default 0 (h !! k).

(** What the main loop of eval.ts keeps true of its counters: the hit
    counts are non-negative, at most [total], and non-decreasing along
    [ks]. *)
Definition countersInv (args : Eval.Args) (st : Eval.LoopState) : Prop :=
  (forall k, k ∈ Eval.ks args ->
             0 <= hitCount (Eval.hits st) k <= Eval.total st) /\
  (forall k k', k ∈ Eval.ks args -> k' ∈ Eval.ks args -> k <= k' ->
                hitCount (Eval.hits st) k <= hitCount (Eval.hits st) k').

(** The chunk ids of a table are pairwise distinct. *)
Definition uniqueIds (table : list Store.TableRow) : Prop :=
  NoDup (map Store.chunk_id table).

(** The row of a chunk id in a table. *)
Definition rowOf (table : list Store.TableRow) (cid : jsstring)
    : option Store.TableRow :=
  find (fun r => bool_decide (Store.chunk_id r = cid)) table.


(** The options of eval.ts that carry the same values as options of
    ask.ts. *)
Definition evalOptsOf (o : Ask.Opts) : Eval.Opts :=
  {| Eval.maxChunks := Ask.maxChunks o;
     Eval.maxPerFile := Ask.maxPerFile o;
     Eval.minChars := Ask.minChars o;
     Eval.dropStatus := Ask.dropStatus o;
     Eval.priorityPrefixes := Ask.priorityPrefixes o |}.

(** The options of ask.ts that the legacy [assembleContext] stands for:
    the fields that are given, the defaults 6, 2, 1600, 120 and true for
    the others, and no priority prefix. *)
Definition askOptsOfLegacy (o : option Legacy.Opts) : Ask.Opts :=
  {| Ask.maxChunks := default 6 (o ≫= Legacy.maxChunks);
     Ask.maxPerFile := default 2 (o ≫= Legacy.maxPerFile);
     Ask.maxCharsPerChunk := default 1600 (o ≫= Legacy.maxCharsPerChunk);
     Ask.minChars := default 120 (o ≫= Legacy.minChars);
     Ask.dropStatus := default true (o ≫= Legacy.dropStatus);
     Ask.priorityPrefixes := [] |}.

(** No item of a pool comes from a priority source. *)
Definition nonePriority (priorityPrefixes : list jsstring)
    (pool : list RetrievedChunk) : bool :=
  forallb (fun r => negb (isPrioritySource (sourcePath (metadata (chunk r)))
                            priorityPrefixes)) pool.


(** The command line of eval.ts that carries the values of options of
    ask.ts. *)
Definition evalArgsOf (o : Ask.Opts) (topK : Z) (debugMisses : bool)
    : Eval.Args :=
  {| Eval.topK := topK;
     Eval.argMaxChunks := Ask.maxChunks o;
     Eval.argMaxPerFile := Ask.maxPerFile o;
     Eval.argMinChars := Ask.minChars o;
     Eval.argDropStatus := Ask.dropStatus o;
     Eval.debugMisses := debugMisses |}.


(** The row that an upsert writes for an item. *)
Definition rowOfItem (stringifyMetadata : ChunkMetadata -> jsstring)
    (stringifyVector : list float -> jsstring) (collection : jsstring)
    (it : Store.EmbeddedChunk) : Store.TableRow :=
  {| Store.chunk_id := id (Store.embeddedChunk it);
     Store.rowCollection := collection;
     Store.rowText := text (Store.embeddedChunk it);
     Store.metadata_json :=
       stringifyMetadata (metadata (Store.embeddedChunk it));
     Store.vector_json := stringifyVector (Store.embeddedVector it) |}.

(** A row after a batch of upserts that all find it or pass it by: the
    row of the last item of the batch with its chunk id, or the row
    itself. *)
Definition overwrittenBy (stringifyMetadata : ChunkMetadata -> jsstring)
    (stringifyVector : list float -> jsstring) (collection : jsstring)
    (items : list Store.EmbeddedChunk) (r : Store.TableRow)
    : Store.TableRow :=
  fold_left
    (fun r it =>
       if bool_decide (Store.chunk_id r = id (Store.embeddedChunk it))
       then rowOfItem stringifyMetadata stringifyVector collection it
       else r) items r.

(** The rows of a table that a search with these parameters reads and
    keeps. *)
Definition matchingRows (parseMetadata : jsstring -> ChunkMetadata)
    (table : list Store.TableRow) (params : Store.SearchParams)
    : list Store.TableRow :=
  List.filter
    (fun row =>
       existsb (fun c => bool_decide (c = Store.rowCollection row))
         (Store.collections params)
       && Store.passesFilter (default Store.emptyFilter (Store.filter params))
            (parseMetadata (Store.metadata_json row))) table.


(** The last item of a batch that carries a chunk id. *)
Definition lastWrite (items : list Store.EmbeddedChunk) (cid : jsstring)
    : option Store.EmbeddedChunk :=
  find (fun it => bool_decide (id (Store.embeddedChunk it) = cid))
    (rev items).


(** The place of an intent in the order of the tests of the routers. *)
Definition rank (i : Intent) : nat :=
  match i with
  | tests => 0
  | migrations => 1
  | openapi => 2
  | auth => 3
  | db => 4
  | general => 5
  end.


(* ===================================================================== *)
(** * Concrete inputs used by the examples below *)
(* ===================================================================== *)

Module Fixtures.

(** An item of collection "docvault" with the given path, section and
    text. *)
Definition mkItem (path : string) (section : option string)
    (body : jsstring) : RetrievedChunk :=
  {| chunk := {| id := lit path ++ lit "#" ++ body;
                 text := body;
                 metadata := {| collection := lit "docvault";
                                sourcePath := lit path;
                                sourceType := markdown;
                                sectionPath := option_map lit section;
                                contentHash := [] |} |};
     similarity := 0.5%float;
     vector := None |}.

(** The defaults of eval.ts: topK 16, maxChunks 8, maxPerFile 2,
    minChars 120, status sections dropped. *)
Definition evalDefaults : Eval.Args :=
  {| Eval.topK := 16; Eval.argMaxChunks := 8; Eval.argMaxPerFile := 2;
     Eval.argMinChars := 120; Eval.argDropStatus := true;
     Eval.debugMisses := false |}.

(** The defaults of ask.ts: maxChunks 6, maxPerFile 2, minChars 120,
    maxCharsPerChunk 1600. *)
Definition askDefaults (pre : list jsstring) : Ask.Opts :=
  {| Ask.maxChunks := 6; Ask.maxPerFile := 2; Ask.maxCharsPerChunk := 1600;
     Ask.minChars := 120; Ask.dropStatus := true;
     Ask.priorityPrefixes := pre |}.

(** ["a\u{1F600}b"]: the emoji is the pair D83D DE00. *)
Definition emojiText : jsstring := [97; 55357; 56832; 98]%N.

(** Three sections of the routed file README.md. *)
Definition routedPool : list RetrievedChunk :=
  [mkItem "README.md" (Some "A") (lit "x");
   mkItem "README.md" (Some "B") (lit "y");
   mkItem "README.md" (Some "C") (lit "z")].

(** Two one-character chunks of the same section of an unrouted file. *)
Definition twinPool : list RetrievedChunk :=
  [mkItem "a.md" (Some "S") (lit "x"); mkItem "a.md" (Some "S") (lit "y")].

(** Three sections of one unrouted file, each 80 characters long. *)
Definition mediumPool : list RetrievedChunk :=
  [mkItem "a.md" (Some "A") (repeat 120%N 80);
   mkItem "a.md" (Some "B") (repeat 120%N 80);
   mkItem "a.md" (Some "C") (repeat 120%N 80)].

(** An embedding service that answers 500 for the query "q1" and a
    two-dimensional vector for every other text. *)
Definition failingPost (model prompt : jsstring) : option HttpResponse :=
  if bool_decide (prompt = lit "q1")
  then Some {| ok := false; status := 500; payload := NotJson |}
  else Some {| ok := true; status := 200;
               payload := Json (Some [1; 0]%float) |}.

(** An embedding service that always answers. *)
Definition healthyPost (model prompt : jsstring) : option HttpResponse :=
  Some {| ok := true; status := 200; payload := Json (Some [1; 0]%float) |}.

(** A store without rows. *)
Definition emptySearch (p : Eval.SearchParams) : list RetrievedChunk := [].

Definition case1 : Eval.EvalCase :=
  {| Eval.caseId := Some (lit "c1"); Eval.q := lit "q1";
     Eval.caseCollection := lit "docvault";
     Eval.mustContain := [lit "README.md"] |}.

Definition case2 : Eval.EvalCase :=
  {| Eval.caseId := Some (lit "c2"); Eval.q := lit "q2";
     Eval.caseCollection := lit "docvault";
     Eval.mustContain := [lit "README.md"] |}.

(** The defaults with [--maxChunks 2]. *)
Definition twoChunks : Eval.Args :=
  {| Eval.topK := 16; Eval.argMaxChunks := 2; Eval.argMaxPerFile := 2;
     Eval.argMinChars := 120; Eval.argDropStatus := true;
     Eval.debugMisses := false |}.

(** The state in which the run of [case2] alone ends under
    [twoChunks], the store being empty. *)
Definition twoChunksFinal : Eval.LoopState :=
  {| Eval.total := 1;
     Eval.hits := {[ 1 := 0 ]};
     Eval.log := [Eval.CaseLine (Eval.ById (lit "c2")) false None (lit "q2");
                  Eval.ResultsHeader;
                  Eval.ResultLine 1 0 1;
                  Eval.DoneLine] |}.

(** A store that answers a routed query with the three sections of
    README.md and an unfiltered query with these and the three sections of
    a.md. *)
Definition tinySearch (p : Eval.SearchParams) : list RetrievedChunk :=
  match Eval.sourcePathPrefix p with
  | Some _ => routedPool
  | None => mediumPool ++ routedPool
  end.

(** The same store, seen from ask.ts. *)
Definition tinySearchAsk (p : AskFlow.SearchParams) : list RetrievedChunk :=
  match AskFlow.sourcePathPrefix p with
  | Some _ => routedPool
  | None => mediumPool ++ routedPool
  end.

(** An item with a similarity and a vector. *)
Definition mkScored (path : string) (sim : float) (v : list float)
    : RetrievedChunk :=
  {| chunk := {| id := lit path;
                 text := lit path;
                 metadata := {| collection := lit "docvault";
                                sourcePath := lit path;
                                sourceType := markdown;
                                sectionPath := None;
                                contentHash := [] |} |};
     similarity := sim;
     vector := Some v |}.

(** Three scored items: the second is a copy of the first in direction,
    the third is orthogonal to both. *)
Definition scoredPool : list RetrievedChunk :=
  [mkScored "a.md" 1 [1; 0]%float;
   mkScored "b.md" 0.5 [1; 0]%float;
   mkScored "c.md" 0.25 [0; 1]%float].

(** ask.ts with its defaults and [--mmr]. *)
Definition askMmrArgs : AskFlow.Args :=
  {| AskFlow.topK := 8; AskFlow.maxChunks := 6; AskFlow.useMmr := true;
     AskFlow.mmrLambda := 0.75; AskFlow.k := 6; AskFlow.minSim := 0.5 |}.

(** ask.ts with its defaults, without [--mmr]. *)
Definition askPlainArgs : AskFlow.Args :=
  {| AskFlow.topK := 8; AskFlow.maxChunks := 6; AskFlow.useMmr := false;
     AskFlow.mmrLambda := 0.75; AskFlow.k := 6; AskFlow.minSim := 0 |}.


(** ask.ts with [--mmr --minSim 1]: no item of the tiny store passes. *)
Definition askStrictMmrArgs : AskFlow.Args :=
  {| AskFlow.topK := 8; AskFlow.maxChunks := 6; AskFlow.useMmr := true;
     AskFlow.mmrLambda := 0.75; AskFlow.k := 6; AskFlow.minSim := 1 |}.


(** A stand-in for [JSON.parse] on the metadata column: the column holds
    the source path. *)
Definition pathMetadata (json : jsstring) : ChunkMetadata :=
  {| collection := lit "docvault"; sourcePath := json;
     sourceType := markdown; sectionPath := None; contentHash := [] |}.

(** A stand-in for [JSON.stringify] on metadata: the source path. *)
Definition metadataPath (md : ChunkMetadata) : jsstring := sourcePath md.

(** Stand-ins for the vector column: every vector is (1, 0). *)
Definition unitVector (json : jsstring) : list float := [1; 0]%float.
Definition noVectorJson (v : list float) : jsstring := [].

Definition tinyRow (cid path : string) : Store.TableRow :=
  {| Store.chunk_id := lit cid; Store.rowCollection := lit "docvault";
     Store.rowText := lit cid; Store.metadata_json := lit path;
     Store.vector_json := [] |}.

(** A table of three rows, two of them under docs/. *)
Definition tinyTable : list Store.TableRow :=
  [tinyRow "c1" "README.md"; tinyRow "c2" "docs/a.md";
   tinyRow "c3" "docs\b.md"].

(** A search of "docvault" for the prefix "./docs/", two results wanted. *)
Definition docsQuery : Store.SearchParams :=
  {| Store.collections := [lit "docvault"];
     Store.queryVector := [1; 0]%float;
     Store.topK := 2;
     Store.filter :=
       Some {| Store.allowedSourceTypes := None;
               Store.sourcePathPrefix := Some (lit "./docs/") |};
     Store.includeVectors := None |}.

(** Two items with the same chunk id and a third one. *)
Definition tinyItems : list Store.EmbeddedChunk :=
  [{| Store.embeddedChunk := chunk (mkItem "README.md" (Some "A") (lit "x"));
      Store.embeddedVector := [1; 0]%float |};
   {| Store.embeddedChunk := chunk (mkItem "docs/a.md" None (lit "y"));
      Store.embeddedVector := [0; 1]%float |};
   {| Store.embeddedChunk := chunk (mkItem "README.md" (Some "A") (lit "x"));
      Store.embeddedVector := [0; 1]%float |}].





End Fixtures.

(* ===================================================================== *)
(** * Properties *)
(* ===================================================================== *)

(** ** JavaScript strings and arrays *)

Lemma len_nonneg {A} (l : list A) : 0 <= len l.
Proof. unfold len. lia. Qed.

Lemma slice0_firstn {A} (l : list A) (e : Z) :
  0 <= e -> slice0 l e = firstn (Z.to_nat e) l.
Proof.
  intros He. unfold slice0.
  destruct (e <? 0) eqn:E; [apply Z.ltb_lt in E; lia|].
  unfold len. destruct (Z.le_gt_cases e (Z.of_nat (length l))) as [H|H].
  - now rewrite Z.min_l by lia.
  - rewrite Z.min_r by lia. rewrite Nat2Z.id.
    rewrite !firstn_all2; auto; lia.
Qed.

Lemma slice0_len_le {A} (l : list A) (e : Z) :
  0 <= e -> len (slice0 l e) <= e.
Proof.
  intros He. rewrite slice0_firstn by assumption.
  unfold len. rewrite length_firstn. lia.
Qed.

Lemma slice0_len {A} (l : list A) (e : Z) :
  0 <= e -> len (slice0 l e) = Z.min e (len l).
Proof.
  intros He. rewrite slice0_firstn by assumption.
  unfold len. rewrite length_firstn. lia.
Qed.

Lemma trimStart_suffix (s : jsstring) : trimStart s `suffix_of` s.
Proof.
  induction s as [|c s IH]; simpl.
  - reflexivity.
  - destruct (isWhiteSpace c).
    + now apply suffix_cons_r.
    + reflexivity.
Qed.

Lemma trimEnd_prefix (s : jsstring) : trimEnd s `prefix_of` s.
Proof.
  unfold trimEnd.
  destruct (trimStart_suffix (rev s)) as [d Hd].
  exists (rev d).
  rewrite <- (rev_involutive s), Hd at 1.
  now rewrite rev_app_distr.
Qed.

Lemma prefix_len_le (a b : jsstring) : a `prefix_of` b -> len a <= len b.
Proof. intros H. apply prefix_length in H. unfold len. lia. Qed.

(** ** Rendering truncation *)

(** C5, as the code has it: a text of at most [maxChars] code units comes
    back unchanged; a longer one becomes its first [maxChars] code units
    with the trailing white space removed, followed by the marker, and the
    kept part is a prefix of the text of at most [maxChars] units.  Nothing
    is promised about surrogate pairs. *)
Theorem truncateText_prefix_cut (text : jsstring) (maxChars : Z) :
  0 <= maxChars ->
  (len text <= maxChars -> truncateText text maxChars = text) /\
  (maxChars < len text ->
     let kept := trimEnd (firstn (Z.to_nat maxChars) text) in
     truncateText text maxChars = kept ++ continuationMarker /\
     kept `prefix_of` text /\
     len kept <= maxChars).
Proof.
  intros Hmax. unfold truncateText. split.
  - intros Hfit. apply Z.leb_le in Hfit. now rewrite Hfit.
  - intros Hlong. cbv zeta.
    assert (E : (len text <=? maxChars) = false) by (apply Z.leb_gt; lia).
    rewrite E, slice0_firstn by assumption.
    split; [reflexivity|]. split.
    + etransitivity; [apply trimEnd_prefix|apply prefix_take].
    + etransitivity; [apply prefix_len_le, trimEnd_prefix|].
      unfold len. rewrite length_firstn. lia.
Qed.

Lemma truncateText_prefix_cut_witness :
  0 <= 2 /\ 2 < len Fixtures.emojiText /\
  truncateText Fixtures.emojiText 2 = [97; 55357]%N ++ continuationMarker.
Proof.
  assert (H0 : 0 <= 2) by lia.
  assert (H1 : 2 < len Fixtures.emojiText) by (vm_compute; reflexivity).
  split; [exact H0|]. split; [exact H1|].
  exact (proj1 (proj2 (truncateText_prefix_cut Fixtures.emojiText 2 H0) H1)).
Defined.

(** C5, as the specification states it, fails: cutting ["a\u{1F600}b"] at
    two code units keeps the high surrogate D83D and drops its low
    surrogate DE00. *)
Lemma truncateText_splits_surrogate_pair :
  ~ cleanCut Fixtures.emojiText 2 (truncateText Fixtures.emojiText 2).
Proof.
  intros (kept & Hout & _ & _ & Hsplit).
  change (truncateText Fixtures.emojiText 2)
    with ([97; 55357]%N ++ continuationMarker) in Hout.
  apply app_inv_tail in Hout. subst kept.
  vm_compute in Hsplit. discriminate.
Qed.

(** ** Cosine similarity *)

(** Multiplication of binary64 values is commutative: the sign is the
    exclusive or of the signs, the significands and the exponents are
    combined by commutative operations, and the special cases are
    symmetric. *)
Lemma SF64mul_comm (x y : spec_float) : SF64mul x y = SF64mul y x.
Proof.
  unfold SF64mul, SFmul.
  destruct x as [sx|sx| |sx mx ex], y as [sy|sy| |sy my ey];
    try reflexivity; try (now rewrite xorb_comm).
  now rewrite xorb_comm, Pos.mul_comm, Z.add_comm.
Qed.

Lemma float_mul_comm (x y : float) : (x * y)%float = (y * x)%float.
Proof.
  apply Prim2SF_inj. rewrite !mul_spec. apply SF64mul_comm.
Qed.

(** A value that [=== 0] accepts is one of the two zeros. *)
Lemma float_eqb_zero (x : float) :
  (x =? 0)%float = true -> x = 0%float \/ x = neg_zero.
Proof.
  rewrite FloatAxioms.eqb_spec. change (Prim2SF 0) with (S754_zero false).
  intros H. rewrite <- (SF2Prim_Prim2SF x).
  destruct (Prim2SF x) as [s|s| |s m e]; simpl in H.
  - destruct s; [right|left]; reflexivity.
  - destruct s; discriminate.
  - discriminate.
  - destruct s; discriminate.
Qed.

Lemma cosineStep_swap (acc : CosAcc) (x y : float) :
  cosineStep (swapAcc acc) (y, x) = swapAcc (cosineStep acc (x, y)).
Proof.
  unfold cosineStep, swapAcc; simpl. now rewrite (float_mul_comm y x).
Qed.

Lemma cosineFold_swap (a b : list float) (acc : CosAcc) :
  fold_left cosineStep (combine b a) (swapAcc acc)
  = swapAcc (fold_left cosineStep (combine a b) acc).
Proof.
  revert b acc. induction a as [|x a IH]; intros [|y b] acc; simpl;
    try reflexivity.
  rewrite cosineStep_swap. apply IH.
Qed.

Lemma cosineLoop_swap (a b : list float) :
  cosineLoop b a = swapAcc (cosineLoop a b).
Proof. unfold cosineLoop. now rewrite <- cosineFold_swap. Qed.

Lemma cosineSimilarity_sym (a b : list float) :
  cosineSimilarity a b = cosineSimilarity b a.
Proof.
  unfold cosineSimilarity. rewrite (cosineLoop_swap a b). simpl.
  rewrite (orb_comm (nb _ =? 0)%float).
  destruct (_ || _); [reflexivity|].
  now rewrite (float_mul_comm (PrimFloat.sqrt (nb _))).
Qed.

(** Over a vector of zeros the accumulator [na] stays [+0]. *)
Lemma cosineFold_zero_na (a b : list float) (acc : CosAcc) :
  zeroNorm a = true -> na acc = 0%float ->
  na (fold_left cosineStep (combine a b) acc) = 0%float.
Proof.
  revert b acc. induction a as [|x a IH]; intros [|y b] acc Hz H0; simpl;
    try assumption.
  simpl in Hz. apply andb_true_iff in Hz as [Hx Hz].
  apply IH; [assumption|]. simpl. rewrite H0.
  destruct (float_eqb_zero x Hx) as [-> | ->]; reflexivity.
Qed.

Lemma cosineSimilarity_zero_l (a b : list float) :
  zeroNorm a = true -> cosineSimilarity a b = 0%float.
Proof.
  intros Hz. unfold cosineSimilarity, cosineLoop.
  rewrite (cosineFold_zero_na a b {| dot := 0; na := 0; nb := 0 |} Hz);
    reflexivity.
Qed.

Lemma cosineStepR_inv (acc : CosAccR) (p : R * R) :
  csInv acc -> csInv (cosineStepR acc p).
Proof.
  destruct acc as [d A B], p as [x y]. unfold csInv, cosineStepR. simpl.
  intros (HA & HB & Hd). split; [nra|]. split; [nra|].
  destruct (Req_dec_T A 0) as [->|HA0].
  - assert (Hd0 : d = 0%R).
    { destruct (Req_dec_T d 0) as [E|E]; [exact E|].
      apply Rsqr_pos_lt in E. unfold Rsqr in E.
      rewrite Rmult_0_l in Hd. exfalso. lra. }
    subst d. assert (0 <= B * (x * x))%R by (apply Rmult_le_pos; nra). nra.
  - assert (0 < A)%R by lra.
    assert (0 <= A * (A * (y * y) + B * (x * x) - 2 * d * x * y))%R.
    { replace (A * (A * (y * y) + B * (x * x) - 2 * d * x * y))%R
        with ((A * y - d * x) * (A * y - d * x)
              + (A * B - d * d) * (x * x))%R by ring.
      apply Rplus_le_le_0_compat;
        [apply Rle_0_sqr|apply Rmult_le_pos; [lra|apply Rle_0_sqr]]. }
    assert (0 <= A * (y * y) + B * (x * x) - 2 * d * x * y)%R.
    { apply Rmult_le_reg_l with A; [lra|]. now rewrite Rmult_0_r. }
    nra.
Qed.

Lemma cosineFoldR_inv (l : list (R * R)) (acc : CosAccR) :
  csInv acc -> csInv (fold_left cosineStepR l acc).
Proof.
  revert acc. induction l as [|p l IH]; intros acc H; simpl; [exact H|].
  apply IH. now apply cosineStepR_inv.
Qed.

(** In exact arithmetic the value is within [-1, 1]. *)
Lemma cosineR_bounded (a b : list R) : (-1 <= cosineR a b <= 1)%R.
Proof.
  unfold cosineR.
  assert (H : csInv (cosineLoopR a b)).
  { apply cosineFoldR_inv. unfold csInv. simpl. lra. }
  destruct (cosineLoopR a b) as [d A B]. unfold csInv in H. simpl in *.
  destruct H as (HA & HB & Hd).
  destruct (Req_dec_T A 0); [lra|]. destruct (Req_dec_T B 0); [lra|].
  assert (HsA : (0 < sqrt A)%R) by (apply sqrt_lt_R0; lra).
  assert (HsB : (0 < sqrt B)%R) by (apply sqrt_lt_R0; lra).
  set (s := (sqrt A * sqrt B)%R).
  assert (Hs : (0 < s)%R) by (unfold s; nra).
  assert (Hss : (s * s = A * B)%R).
  { unfold s. replace (sqrt A * sqrt B * (sqrt A * sqrt B))%R
      with ((sqrt A * sqrt A) * (sqrt B * sqrt B))%R by ring.
    rewrite !sqrt_sqrt by lra. reflexivity. }
  assert (Hb : (- s <= d <= s)%R) by nra.
  split.
  - apply Rmult_le_reg_r with s; [exact Hs|]. unfold Rdiv.
    rewrite Rmult_assoc, Rinv_l by lra. lra.
  - apply Rmult_le_reg_r with s; [exact Hs|]. unfold Rdiv.
    rewrite Rmult_assoc, Rinv_l by lra. lra.
Qed.

(** C7, as the code has it: the similarity is symmetric, and it is exactly
    [+0] (neither NaN nor an exception) as soon as one of the two vectors
    has zero norm.  The bound [-1, 1] holds of the value that the same
    loop computes in exact arithmetic; it is not a property of the
    binary64 result. *)
Theorem cosineSimilarity_symmetric_zero (a b : list float) (x y : list R) :
  cosineSimilarity a b = cosineSimilarity b a /\
  (zeroNorm a = true \/ zeroNorm b = true ->
   cosineSimilarity a b = 0%float) /\
  (-1 <= cosineR x y <= 1)%R.
Proof.
  split; [apply cosineSimilarity_sym|]. split; [|apply cosineR_bounded].
  intros [Hz|Hz].
  - now apply cosineSimilarity_zero_l.
  - rewrite cosineSimilarity_sym. now apply cosineSimilarity_zero_l.
Qed.

Lemma cosineSimilarity_symmetric_zero_witness :
  (zeroNorm [0; neg_zero]%float = true \/ zeroNorm [1; 2]%float = true) /\
  cosineSimilarity [0; neg_zero]%float [1; 2]%float = 0%float.
Proof.
  assert (H : zeroNorm [0; neg_zero]%float = true \/
              zeroNorm [1; 2]%float = true) by (left; reflexivity).
  split; [exact H|].
  exact (proj1 (proj2 (cosineSimilarity_symmetric_zero [0; neg_zero]%float
                         [1; 2]%float [] [])) H).
Defined.

(** C7, as the specification states it, fails on the bound: the similarity
    of (1,1,1) with itself is 3 / (sqrt 3 * sqrt 3), which binary64
    arithmetic rounds to 1.0000000000000002. *)
Lemma cosineSimilarity_above_one :
  cosineSimilarity [1; 1; 1]%float [1; 1; 1]%float = 0x1.0000000000001p+0%float /\
  inUnitInterval (cosineSimilarity [1; 1; 1]%float [1; 1; 1]%float) = false.
Proof. split; vm_compute; reflexivity. Qed.

(** Squares that overflow give NaN, which is outside every interval. *)
Lemma cosineSimilarity_overflow_nan :
  cosineSimilarity [0x1p+600]%float [0x1p+600]%float = nan.
Proof. vm_compute. reflexivity. Qed.

(** ** Intent routing *)

Lemma Eval_inferRoutePlan_first (lower : jsstring -> jsstring) (query : jsstring) :
  firstMatching Eval.wordsOf (lower query)
  = Some (intent (Eval.inferRoutePlan lower query)).
Proof.
  unfold firstMatching, Eval.inferRoutePlan, precedence. cbn [find Eval.wordsOf].
  destruct (hasAny (lower query) Eval.testsWords); [reflexivity|].
  destruct (hasAny (lower query) Eval.migrationsWords); [reflexivity|].
  destruct (hasAny (lower query) Eval.openApiWords); [reflexivity|].
  destruct (hasAny (lower query) Eval.authWords); [reflexivity|].
  destruct (hasAny (lower query) Eval.dbWords); reflexivity.
Qed.

Lemma Ask_inferRoutePlan_first (lower : jsstring -> jsstring) (query : jsstring) :
  firstMatching Ask.wordsOf (lower query)
  = Some (intent (Ask.inferRoutePlan lower query)).
Proof.
  unfold firstMatching, Ask.inferRoutePlan, precedence. cbn [find Ask.wordsOf].
  destruct (hasAny (lower query) Ask.testsWords); [reflexivity|].
  destruct (hasAny (lower query) Ask.migrationsWords); [reflexivity|].
  destruct (hasAny (lower query) Ask.openApiWords); [reflexivity|].
  destruct (hasAny (lower query) Ask.authWords); [reflexivity|].
  destruct (hasAny (lower query) Ask.dbWords); reflexivity.
Qed.

(** C6, as the code has it: both routers return the first intent, in the
    order tests, migrations, openapi, auth, db, general, whose keywords
    the case-folded query contains; so a query with a migrations keyword
    and a db keyword and no tests keyword is routed to migrations. *)
Theorem inferRoutePlan_precedence (lower : jsstring -> jsstring)
    (query : jsstring) :
  firstMatching Eval.wordsOf (lower query)
    = Some (intent (Eval.inferRoutePlan lower query)) /\
  firstMatching Ask.wordsOf (lower query)
    = Some (intent (Ask.inferRoutePlan lower query)) /\
  (hasAny (lower query) Eval.migrationsWords = true ->
   hasAny (lower query) Eval.dbWords = true ->
   hasAny (lower query) Eval.testsWords = false ->
   intent (Eval.inferRoutePlan lower query) = migrations) /\
  (hasAny (lower query) Ask.migrationsWords = true ->
   hasAny (lower query) Ask.dbWords = true ->
   hasAny (lower query) Ask.testsWords = false ->
   intent (Ask.inferRoutePlan lower query) = migrations).
Proof.
  split; [apply Eval_inferRoutePlan_first|].
  split; [apply Ask_inferRoutePlan_first|].
  split; intros Hm _ Ht.
  - unfold Eval.inferRoutePlan. now rewrite Ht, Hm.
  - unfold Ask.inferRoutePlan. now rewrite Ht, Hm.
Qed.

Lemma inferRoutePlan_precedence_witness :
  let q := asciiLower (lit "How are Database Migrations handled?") in
  (hasAny q Eval.migrationsWords = true /\ hasAny q Eval.dbWords = true /\
   hasAny q Eval.testsWords = false) /\
  (hasAny q Ask.migrationsWords = true /\ hasAny q Ask.dbWords = true /\
   hasAny q Ask.testsWords = false) /\
  intent (Eval.inferRoutePlan asciiLower
            (lit "How are Database Migrations handled?")) = migrations /\
  intent (Ask.inferRoutePlan asciiLower
            (lit "How are Database Migrations handled?")) = migrations.
Proof.
  cbv zeta.
  pose proof (inferRoutePlan_precedence asciiLower
                (lit "How are Database Migrations handled?"))
    as (_ & _ & HE & HA).
  split; [repeat split; vm_compute; reflexivity|].
  split; [repeat split; vm_compute; reflexivity|].
  split.
  - apply HE; vm_compute; reflexivity.
  - apply HA; vm_compute; reflexivity.
Defined.

(** C6, as the specification states it, fails: "vitest database migration"
    contains the migrations keyword "migration" and the db keyword
    "database", and both routers answer tests. *)
Lemma inferRoutePlan_tests_over_migrations :
  let query := lit "vitest database migration" in
  let q := asciiLower query in
  hasAny q Eval.migrationsWords = true /\ hasAny q Eval.dbWords = true /\
  hasAny q Ask.migrationsWords = true /\ hasAny q Ask.dbWords = true /\
  intent (Eval.inferRoutePlan asciiLower query) = tests /\
  intent (Ask.inferRoutePlan asciiLower query) = tests /\
  intent (Eval.inferRoutePlan asciiLower query) <> migrations /\
  intent (Ask.inferRoutePlan asciiLower query) <> migrations.
Proof. cbv zeta. repeat split; vm_compute; congruence. Qed.

(** ** hit@k *)

Lemma existsb_incl {A} (f : A -> bool) (l l' : list A) :
  (forall x, In x l -> In x l') -> existsb f l = true -> existsb f l' = true.
Proof.
  intros Hin H. apply existsb_exists in H as (x & Hx & Hf).
  apply existsb_exists. exists x. auto.
Qed.

Lemma firstn_In_le {A} (l : list A) (n m : nat) (x : A) :
  (n <= m)%nat -> In x (firstn n l) -> In x (firstn m l).
Proof.
  intros Hnm H.
  replace n with (Nat.min n m) in H by lia.
  rewrite <- firstn_firstn in H.
  rewrite <- (firstn_skipn n (firstn m l)). apply in_or_app. now left.
Qed.

(** C8: for fixed selected sources and a fixed [mustContain], a hit at the
    cut-off [k] is a hit at every larger cut-off.  The cut-offs of a hit@k
    metric are counts, [0 <= k]. *)
Theorem hitAtK_monotone (selectedSources mustContain : list jsstring)
    (k k' : Z) :
  0 <= k -> k <= k' ->
  Eval.hitAtK selectedSources mustContain k = true ->
  Eval.hitAtK selectedSources mustContain k' = true.
Proof.
  intros H0 Hle. unfold Eval.hitAtK.
  rewrite !slice0_firstn by lia.
  intros H. apply existsb_exists in H as (needle & Hn & Hex).
  apply existsb_exists. exists needle. split; [assumption|].
  revert Hex. apply existsb_incl. intros s.
  apply firstn_In_le. lia.
Qed.

Lemma hitAtK_monotone_witness :
  0 <= 1 /\ 1 <= 3 /\
  Eval.hitAtK [lit "README.md#Setup"; lit "docs/a.md"] [lit "README.md"] 1 = true /\
  Eval.hitAtK [lit "README.md#Setup"; lit "docs/a.md"] [lit "README.md"] 3 = true.
Proof.
  assert (H0 : 0 <= 1) by lia.
  assert (H1 : 1 <= 3) by lia.
  assert (H : Eval.hitAtK [lit "README.md#Setup"; lit "docs/a.md"]
                [lit "README.md"] 1 = true) by (vm_compute; reflexivity).
  split; [exact H0|]. split; [exact H1|]. split; [exact H|].
  exact (hitAtK_monotone _ _ 1 3 H0 H1 H).
Defined.

(** ** The evaluator's main loop *)

Section EvalRun.
Variable lower : jsstring -> jsstring.
Variable post : jsstring -> jsstring -> option HttpResponse.
Variable search : Eval.SearchParams -> list RetrievedChunk.
Variable args : Eval.Args.

Lemma ks_spec (k : Z) :
  k ∈ Eval.ks args <-> k ∈ [1; 3; 5; 8] /\ k <= Eval.argMaxChunks args.
Proof.
  unfold Eval.ks. rewrite !list_elem_of_In, filter_In, Z.leb_le.
  tauto.
Qed.

Lemma initialState_inv : loopInv args (Eval.initialState args).
Proof.
  split; [|reflexivity]. simpl. unfold Eval.initialHits.
  rewrite dom_list_to_map_L. f_equal.
  generalize (Eval.ks args). intros l.
  induction l as [|k l IH]; simpl; [reflexivity|]. f_equal. exact IH.
Qed.

Lemma countHits_dom_gen (sources must : list jsstring) (l : list Z)
    (h : gmap Z Z) :
  (forall k, k ∈ l -> k ∈ dom h) ->
  dom (fold_left
         (fun h k =>
            if Eval.hitAtK sources must k
            then <[k := default 0 (h !! k) + 1]> h else h) l h) = dom h.
Proof.
  revert h. induction l as [|k l IH]; intros h Hin; simpl; [reflexivity|].
  assert (Hk : k ∈ dom h) by (apply Hin; left).
  destruct (Eval.hitAtK sources must k).
  - rewrite IH.
    + rewrite dom_insert_L. apply set_eq. intros x.
      rewrite elem_of_union, elem_of_singleton.
      split; [intros [->|H]; assumption|auto].
    + intros k' Hk'. rewrite dom_insert_L. apply elem_of_union_r.
      apply Hin. now right.
  - apply IH. intros k' Hk'. apply Hin. now right.
Qed.

Lemma caseStep_inv (st st' : Eval.LoopState) (c : Eval.EvalCase) :
  loopInv args st -> Eval.caseStep lower post search args st c = inr st' ->
  loopInv args st'.
Proof.
  intros [Hdom Hlog]. unfold Eval.caseStep.
  destruct (Embeddings.embed post [Eval.q c] None) as [e|[|qVec vs]];
    [discriminate| |].
  - intros [= <-]. split; [exact Hdom|]. simpl.
    rewrite forallb_app, Hlog. reflexivity.
  - destruct (Eval.retrieveWithRouting _ _ _ _ _ _) as [plan retrieved].
    intros [= <-]. split; simpl.
    + unfold Eval.countHits. rewrite countHits_dom_gen; [exact Hdom|].
      intros k Hk. rewrite Hdom. now apply elem_of_list_to_set.
    + rewrite forallb_app, Hlog. simpl.
      destruct (negb _ && _); reflexivity.
Qed.

Lemma runCases_inv (cases : list Eval.EvalCase) (st st' : Eval.LoopState) :
  loopInv args st -> Eval.runCases lower post search args cases st = inr st' ->
  loopInv args st'.
Proof.
  revert st. induction cases as [|c rest IH]; intros st Hinv; simpl.
  - now intros [= <-].
  - destruct (Eval.caseStep lower post search args st c) as [stop|st1] eqn:E;
      [discriminate|].
    apply IH. eapply caseStep_inv; eauto.
Qed.

Lemma resultKs_loop (l : list Eval.Event) :
  forallb isLoopEvent l = true -> resultKs l = [].
Proof.
  induction l as [|e l IH]; simpl; [reflexivity|].
  intros H. apply andb_true_iff in H as [He Hl].
  rewrite (IH Hl). destruct e; try discriminate; reflexivity.
Qed.

Lemma resultKs_app (l l' : list Eval.Event) :
  resultKs (l ++ l') = resultKs l ++ resultKs l'.
Proof. unfold resultKs. apply flat_map_app. Qed.

Lemma resultKs_report (st : Eval.LoopState) :
  resultKs (Eval.report args st) = Eval.ks args.
Proof.
  unfold Eval.report. simpl. rewrite resultKs_app. simpl.
  rewrite app_nil_r. induction (Eval.ks args) as [|k l IH]; simpl;
    [reflexivity|now rewrite IH].
Qed.

Lemma hitKsOf_loop (e : Eval.Event) (k : Z) :
  isLoopEvent e = true -> k ∈ hitKsOf e -> k = 3.
Proof.
  destruct e; simpl; try discriminate; intros _ Hk.
  - now apply elem_of_nil in Hk.
  - now apply list_elem_of_singleton in Hk.
  - now apply elem_of_nil in Hk.
Qed.

Lemma hitKsOf_report (st : Eval.LoopState) (e : Eval.Event) (k : Z) :
  e ∈ Eval.report args st -> k ∈ hitKsOf e -> k ∈ Eval.ks args.
Proof.
  unfold Eval.report. intros He Hk.
  apply elem_of_cons in He as [->|He];
    [simpl in Hk; now apply elem_of_nil in Hk|].
  apply elem_of_app in He as [He|He].
  - apply list_elem_of_fmap in He as (k' & -> & Hk'). simpl in Hk.
    apply list_elem_of_singleton in Hk. now subst.
  - apply list_elem_of_singleton in He. subst e. simpl in Hk.
    now apply elem_of_nil in Hk.
Qed.

Lemma main_finished (cases : list Eval.EvalCase) (final : Eval.LoopState) :
  Eval.main lower post search args cases = Eval.Finished final ->
  exists st, loopInv args st /\
    Eval.hits final = Eval.hits st /\
    Eval.log final = Eval.log st ++ Eval.report args st.
Proof.
  unfold Eval.main. destruct cases as [|c rest]; [discriminate|].
  destruct (Eval.runCases lower post search args (c :: rest) _)
    as [[e st]|st] eqn:E; [discriminate|].
  intros [= <-]. exists st. split; [|split; reflexivity].
  eapply runCases_inv; [apply initialState_inv|exact E].
Qed.

End EvalRun.

(** C9, as the code has it: when the run reaches its report, the result
    lines are those of [ks], that is of the members of 1, 3, 5, 8 that are
    at most [maxChunks], in that order; the [hits] table has exactly these
    keys; a larger [k] appears nowhere in the metric.  The only other
    hit@k on the console is the [hit@3] of the line of each case, which is
    printed whatever [maxChunks] is. *)
Theorem main_reports_ks (lower : jsstring -> jsstring)
    (post : jsstring -> jsstring -> option HttpResponse)
    (search : Eval.SearchParams -> list RetrievedChunk)
    (args : Eval.Args) (cases : list Eval.EvalCase)
    (final : Eval.LoopState) :
  Eval.main lower post search args cases = Eval.Finished final ->
  resultKs (Eval.log final) = Eval.ks args /\
  (forall k, k ∈ resultKs (Eval.log final) <->
             k ∈ [1; 3; 5; 8] /\ k <= Eval.argMaxChunks args) /\
  (forall k, k ∈ dom (Eval.hits final) <->
             k ∈ [1; 3; 5; 8] /\ k <= Eval.argMaxChunks args) /\
  (forall e k, e ∈ Eval.log final -> k ∈ hitKsOf e ->
               k = 3 \/ (k ∈ [1; 3; 5; 8] /\ k <= Eval.argMaxChunks args)).
Proof.
  intros Hmain.
  destruct (main_finished _ _ _ _ _ _ Hmain) as (st & [Hdom Hlog] & Hh & Hl).
  assert (Hks : resultKs (Eval.log final) = Eval.ks args).
  { rewrite Hl, resultKs_app, (resultKs_loop _ Hlog), resultKs_report.
    reflexivity. }
  split; [exact Hks|]. split; [|split].
  - intros k. rewrite Hks. apply ks_spec.
  - intros k. rewrite Hh, Hdom, elem_of_list_to_set. apply ks_spec.
  - intros e k He Hk. rewrite Hl in He. apply elem_of_app in He as [He|He].
    + left. apply (hitKsOf_loop e); [|exact Hk].
      rewrite forallb_forall in Hlog. apply Hlog.
      now apply list_elem_of_In.
    + right. apply ks_spec. eapply hitKsOf_report; eauto.
Qed.

Lemma main_reports_ks_witness :
  Eval.main asciiLower Fixtures.healthyPost Fixtures.emptySearch
    Fixtures.twoChunks [Fixtures.case2]
  = Eval.Finished Fixtures.twoChunksFinal /\
  resultKs (Eval.log Fixtures.twoChunksFinal) = Eval.ks Fixtures.twoChunks.
Proof.
  assert (H : Eval.main asciiLower Fixtures.healthyPost Fixtures.emptySearch
                Fixtures.twoChunks [Fixtures.case2]
              = Eval.Finished Fixtures.twoChunksFinal)
    by (vm_compute; reflexivity).
  split; [exact H|].
  exact (proj1 (main_reports_ks _ _ _ _ _ _ H)).
Defined.

(** C9, as stated, fails below three chunks: with [--maxChunks 2] the
    line of the case still shows a hit@3, and 3 is more than 2. *)
Lemma main_shows_hit3_above_maxChunks :
  Eval.main asciiLower Fixtures.healthyPost Fixtures.emptySearch
    Fixtures.twoChunks [Fixtures.case2]
  = Eval.Finished Fixtures.twoChunksFinal /\
  exists e k, e ∈ Eval.log Fixtures.twoChunksFinal /\ k ∈ hitKsOf e /\
              ~ k <= Eval.argMaxChunks Fixtures.twoChunks.
Proof.
  split; [vm_compute; reflexivity|].
  exists (Eval.CaseLine (Eval.ById (lit "c2")) false None (lit "q2")), 3.
  split; [left|]. split; [left|].
  simpl. lia.
Qed.

(** ** Embedding failures in the evaluator *)

(** [embed] on a one-element array never answers the empty array: it
    throws or it returns the one vector.  The [if (!qVec)] branch of the
    main loop is therefore never taken. *)
Lemma embed_one_not_empty
    (post : jsstring -> jsstring -> option HttpResponse)
    (t : jsstring) (model : option jsstring) :
  Embeddings.embed post [t] model <> inr [].
Proof.
  unfold Embeddings.embed. simpl.
  destruct (Embeddings.ollamaEmbedOne post _ t) as [e|v]; [discriminate|].
  simpl. rewrite Z.eqb_refl. simpl. discriminate.
Qed.

(** A failure of the embedder is a thrown exception. *)
Lemma embed_failure_throws
    (post : jsstring -> jsstring -> option HttpResponse)
    (t : jsstring) (e : Error) :
  Embeddings.ollamaEmbedOne post Embeddings.DEFAULT_MODEL t = inl e ->
  Embeddings.embed post [t] None = inl e.
Proof. intros H. unfold Embeddings.embed. simpl. now rewrite H. Qed.

(** The exception leaves the loop: the cases that follow are not run. *)
Lemma runCases_stops_at_throw (lower : jsstring -> jsstring)
    (post : jsstring -> jsstring -> option HttpResponse)
    (search : Eval.SearchParams -> list RetrievedChunk)
    (args : Eval.Args) (c : Eval.EvalCase) (rest : list Eval.EvalCase)
    (st : Eval.LoopState) (e : Error) :
  Embeddings.embed post [Eval.q c] None = inl e ->
  Eval.runCases lower post search args (c :: rest) st
  = inl (e, {| Eval.total := Eval.total st + 1;
               Eval.hits := Eval.hits st;
               Eval.log := Eval.log st |}).
Proof. intros H. simpl. unfold Eval.caseStep. now rewrite H. Qed.

Lemma runCases_app (lower : jsstring -> jsstring)
    (post : jsstring -> jsstring -> option HttpResponse)
    (search : Eval.SearchParams -> list RetrievedChunk)
    (args : Eval.Args) (before after : list Eval.EvalCase)
    (st : Eval.LoopState) :
  Eval.runCases lower post search args (before ++ after) st
  = match Eval.runCases lower post search args before st with
    | inl stop => inl stop
    | inr st' => Eval.runCases lower post search args after st'
    end.
Proof.
  revert st. induction before as [|c before IH]; intros st; simpl;
    [reflexivity|].
  destruct (Eval.caseStep lower post search args st c); [reflexivity|].
  apply IH.
Qed.

(** Wherever the failing case stands in the batch, the script ends at it:
    the state is the one reached by the cases before it, with [total]
    incremented once more; the cases after it are not run and the report
    is not printed. *)
Lemma main_aborts_at_first_throw (lower : jsstring -> jsstring)
    (post : jsstring -> jsstring -> option HttpResponse)
    (search : Eval.SearchParams -> list RetrievedChunk)
    (args : Eval.Args) (before rest : list Eval.EvalCase)
    (c : Eval.EvalCase) (st : Eval.LoopState) (e : Error) :
  Eval.runCases lower post search args before (Eval.initialState args)
    = inr st ->
  Embeddings.embed post [Eval.q c] None = inl e ->
  Eval.main lower post search args (before ++ c :: rest)
  = Eval.Threw e {| Eval.total := Eval.total st + 1;
                    Eval.hits := Eval.hits st;
                    Eval.log := Eval.log st |}.
Proof.
  intros Hbefore Hthrow. unfold Eval.main.
  destruct (before ++ c :: rest) eqn:E;
    [now destruct before|]. rewrite <- E.
  rewrite runCases_app, Hbefore.
  now rewrite (runCases_stops_at_throw _ _ _ _ _ _ _ e Hthrow).
Qed.

(** C4 on a two-case run whose first query the embedding service refuses
    with status 500: the script ends with that exception after counting
    the first case; the second case is not processed and no report is
    printed. *)
Theorem main_aborts_on_embedding_failure :
  Eval.main asciiLower Fixtures.failingPost Fixtures.emptySearch
    Fixtures.evalDefaults [Fixtures.case1; Fixtures.case2]
  = Eval.Threw (OllamaRequestFailed 500)
      {| Eval.total := 1;
         Eval.hits := Eval.initialHits Fixtures.evalDefaults;
         Eval.log := [] |}.
Proof. vm_compute. reflexivity. Qed.

(** ** The selection loops *)

Section GenericSelectionFacts.
Variable lower : jsstring -> jsstring.
Variable waive : bool.
Variables (minChars : Z) (dropStatus : bool).
Variable pre : list jsstring.
Variables (maxPerFile maxChunks : Z).

Abbreviation loop :=
  (genLoop lower waive minChars dropStatus pre maxPerFile maxChunks).

(** One turn of the loop on [r], case by case: low signal, key already
    seen, file at its cap, selection full after the push, or not. *)
Ltac turn r st :=
  cbn [genLoop];
  destruct (isLowSignalChunk lower r minChars dropStatus pre) eqn:Elow;
  [|destruct (bool_decide (dedupKey r ∈ seen st)) eqn:Eseen;
    [|destruct (negb (exempt waive pre (sourcePath (metadata (chunk r))))
               && (maxPerFile <=?
                     default 0 (perFileCount st
                                  !! sourcePath (metadata (chunk r)))))
        eqn:Ecap;
      [|cbn [selected];
        destruct (maxChunks <=? len (selected st ++ [r])) eqn:Efull]]].

Lemma len_snoc {A} (l : list A) (x : A) : len (l ++ [x]) = len l + 1.
Proof. unfold len. rewrite length_app. simpl. lia. Qed.

Lemma genLoop_len (cands : list RetrievedChunk) (st : SelState) :
  len (selected (loop cands st)) <= Z.max maxChunks (len (selected st) + 1).
Proof.
  revert st. induction cands as [|r rest IH]; intros st.
  - simpl. lia.
  - turn r st.
    + apply IH.
    + apply IH.
    + specialize (IH {| perFileCount := perFileCount st;
                        seen := {[dedupKey r]} ∪ seen st;
                        selected := selected st |}). exact IH.
    + cbn [selected]. rewrite len_snoc. lia.
    + apply Z.leb_gt in Efull. rewrite len_snoc in Efull.
      etransitivity; [apply IH|]. cbn [selected]. rewrite len_snoc. lia.
Qed.

Lemma genLoop_dedup (cands : list RetrievedChunk) (st : SelState) :
  dedupInv st -> dedupInv (loop cands st).
Proof.
  revert st. induction cands as [|r rest IH]; intros st Hinv.
  - exact Hinv.
  - assert (Hpush : bool_decide (dedupKey r ∈ seen st) = false ->
              forall pfc, dedupInv {| perFileCount := pfc;
                                      seen := {[dedupKey r]} ∪ seen st;
                                      selected := selected st ++ [r] |}).
    { intros Hnew pfc. apply bool_decide_eq_false in Hnew.
      destruct Hinv as [Hnd Hseen]. split; cbn [selected seen].
      - rewrite map_app. apply NoDup_app. split; [exact Hnd|].
        split; [|apply NoDup_singleton].
        intros k Hk Hk'. apply list_elem_of_singleton in Hk'. subst k.
        apply list_elem_of_fmap in Hk as (r' & Hkey & Hr').
        apply Hnew. rewrite Hkey. now apply Hseen.
      - intros r' Hr'. apply elem_of_app in Hr' as [Hr'|Hr'].
        + apply elem_of_union_r. now apply Hseen.
        + apply list_elem_of_singleton in Hr'. subst r'.
          apply elem_of_union_l. now apply elem_of_singleton. }
    turn r st.
    + now apply IH.
    + now apply IH.
    + apply IH. destruct Hinv as [Hnd Hseen]. split; cbn [selected seen].
      * exact Hnd.
      * intros r' Hr'. apply elem_of_union_r. now apply Hseen.
    + now apply Hpush.
    + apply IH. now apply Hpush.
Qed.

Lemma genLoop_all_low (cands : list RetrievedChunk) (st : SelState) :
  forallb (fun r => isLowSignalChunk lower r minChars dropStatus pre) cands
    = true ->
  loop cands st = st.
Proof.
  induction cands as [|r rest IH]; intros H; [reflexivity|].
  simpl in H. apply andb_true_iff in H as [Hr Hrest].
  cbn [genLoop]. rewrite Hr. now apply IH.
Qed.

Lemma fromFile_snoc (file : jsstring) (l : list RetrievedChunk)
    (r : RetrievedChunk) :
  fromFile file (l ++ [r])
  = fromFile file l
    + (if bool_decide (sourcePath (metadata (chunk r)) = file) then 1 else 0).
Proof.
  unfold fromFile. rewrite List.filter_app. simpl.
  destruct (bool_decide _).
  - apply len_snoc.
  - rewrite app_nil_r. lia.
Qed.

Lemma fromFile_nonneg (file : jsstring) (l : list RetrievedChunk) :
  0 <= fromFile file l.
Proof. apply len_nonneg. Qed.

Lemma genLoop_cap (cands : list RetrievedChunk) (st : SelState) :
  capInv waive pre maxPerFile st ->
  capInv waive pre maxPerFile (loop cands st).
Proof.
  revert st. induction cands as [|r rest IH]; intros st Hinv.
  - exact Hinv.
  - assert (Hpush :
      (negb (exempt waive pre (sourcePath (metadata (chunk r))))
       && (maxPerFile <=?
             default 0 (perFileCount st !! sourcePath (metadata (chunk r)))))
      = false ->
      forall sn,
        capInv waive pre maxPerFile
          {| perFileCount :=
               if negb (exempt waive pre (sourcePath (metadata (chunk r))))
               then <[sourcePath (metadata (chunk r)) :=
                        default 0 (perFileCount st
                                     !! sourcePath (metadata (chunk r))) + 1]>
                      (perFileCount st)
               else perFileCount st;
             seen := sn;
             selected := selected st ++ [r] |}).
    { intros Hcap sn file Hfile. cbn [perFileCount selected].
      rewrite fromFile_snoc. destruct (Hinv file Hfile) as [Hcount Hle].
      destruct (exempt waive pre (sourcePath (metadata (chunk r)))) eqn:Ex;
        cbn [negb] in *.
      - rewrite bool_decide_eq_false_2 by congruence. split; lia.
      - rewrite andb_true_l in Hcap. apply Z.leb_gt in Hcap.
        destruct (decide (sourcePath (metadata (chunk r)) = file)) as [E|E].
        + rewrite bool_decide_eq_true_2 by assumption.
          rewrite E in *. rewrite lookup_insert_eq. simpl. split; lia.
        + rewrite bool_decide_eq_false_2 by assumption.
          rewrite lookup_insert_ne by assumption. split; lia. }
    turn r st.
    + now apply IH.
    + now apply IH.
    + apply IH. exact Hinv.
    + now apply Hpush.
    + apply IH. now apply Hpush.
Qed.

End GenericSelectionFacts.

(** With the cap waived, a pool of priority sources with distinct keys is
    taken in order until the selection is full. *)
Lemma genLoop_all_priority (lower : jsstring -> jsstring)
    (minChars : Z) (dropStatus : bool) (pre : list jsstring)
    (maxPerFile maxChunks : Z) (cands : list RetrievedChunk)
    (st : SelState) :
  allPriority pre cands = true ->
  NoDup (map dedupKey cands) ->
  (forall r, r ∈ cands -> dedupKey r ∉ seen st) ->
  selected (genLoop lower true minChars dropStatus pre maxPerFile maxChunks
              cands st)
  = selected st
    ++ firstn (Z.to_nat (Z.max 1 (maxChunks - len (selected st)))) cands.
Proof.
  revert st. induction cands as [|r rest IH]; intros st Hprio Hnd Hfresh.
  - simpl. now rewrite firstn_nil, app_nil_r.
  - simpl in Hprio. apply andb_true_iff in Hprio as [Hr Hrest].
    simpl in Hnd. apply NoDup_cons in Hnd as [Hr_new Hnd].
    cbn [genLoop]. unfold isLowSignalChunk, exempt. rewrite Hr.
    rewrite bool_decide_eq_false_2 by (apply Hfresh; left).
    cbn [andb negb selected].
    destruct (maxChunks <=? len (selected st ++ [r])) eqn:Efull.
    + cbn [selected]. apply Z.leb_le in Efull. rewrite len_snoc in Efull.
      rewrite Z.max_l by lia. reflexivity.
    + apply Z.leb_gt in Efull. rewrite len_snoc in Efull.
      rewrite IH; [|assumption|assumption|].
      * cbn [selected]. rewrite len_snoc, <- app_assoc. f_equal.
        rewrite !Z.max_r by lia.
        replace (Z.to_nat (maxChunks - len (selected st)))
          with (S (Z.to_nat (maxChunks - (len (selected st) + 1)))) by lia.
        reflexivity.
      * intros r' Hr'. cbn [seen]. rewrite elem_of_union, elem_of_singleton.
        intros [Heq|Hin].
        -- apply Hr_new. rewrite <- Heq. apply list_elem_of_fmap.
           exists r'. split; [reflexivity|assumption].
        -- apply (Hfresh r'); [now right|assumption].
Qed.

(** The loop of eval.ts is the generic loop without the waiver. *)
Lemma Eval_selectLoop_gen (lower : jsstring -> jsstring) (opts : Eval.Opts)
    (cands : list RetrievedChunk) (st : SelState) :
  Eval.selectLoop lower opts cands st
  = genLoop lower false (Eval.minChars opts) (Eval.dropStatus opts)
      (Eval.priorityPrefixes opts) (Eval.maxPerFile opts)
      (Eval.maxChunks opts) cands st.
Proof.
  revert st. induction cands as [|r rest IH]; intros st; [reflexivity|].
  cbn [Eval.selectLoop genLoop]. unfold exempt. cbn [andb negb].
  rewrite !IH. reflexivity.
Qed.

(** The loop of ask.ts is the generic loop with the waiver. *)
Lemma Ask_selectLoop_gen (lower : jsstring -> jsstring) (opts : Ask.Opts)
    (cands : list RetrievedChunk) (st : SelState) :
  Ask.selectLoop lower opts cands st
  = genLoop lower true (Ask.minChars opts) (Ask.dropStatus opts)
      (Ask.priorityPrefixes opts) (Ask.maxPerFile opts)
      (Ask.maxChunks opts) cands st.
Proof.
  revert st. induction cands as [|r rest IH]; intros st; [reflexivity|].
  cbn [Ask.selectLoop genLoop]. unfold exempt. cbn [andb negb].
  rewrite !IH. reflexivity.
Qed.

Lemma dedupInv_empty : dedupInv emptySel.
Proof.
  split; simpl.
  - apply NoDup_nil_2.
  - intros r Hr. now apply elem_of_nil in Hr.
Qed.

Lemma capInv_empty (waive : bool) (pre : list jsstring) (maxPerFile : Z) :
  capInv waive pre maxPerFile emptySel.
Proof.
  intros file _. simpl. rewrite lookup_empty. simpl.
  unfold fromFile, len. simpl. lia.
Qed.

Lemma dedupKey_keyPair (r : RetrievedChunk) :
  dedupKey r = keyOfPair (keyPair r).
Proof. unfold dedupKey, keyOfPair, keyPair, sectionKey. simpl.
  now destruct (sectionPath (metadata (chunk r))). Qed.

(** Distinct dedup keys are distinct [(sourcePath, sectionPath)] pairs. *)
Lemma NoDup_keyPair (l : list RetrievedChunk) :
  NoDup (map dedupKey l) -> NoDup (map keyPair l).
Proof.
  intros H. apply (NoDup_fmap_1 keyOfPair).
  rewrite <- list_fmap_compose.
  erewrite list_fmap_ext; [exact H|].
  intros i r _. simpl. symmetry. apply dedupKey_keyPair.
Qed.

Lemma len_zero {A} (l : list A) : (len l =? 0) = true <-> l = [].
Proof.
  rewrite Z.eqb_eq. unfold len. destruct l; simpl; split; intros H;
    try reflexivity; try discriminate; lia.
Qed.

Lemma len_zero_false {A} (l : list A) : (len l =? 0) = false <-> l <> [].
Proof.
  rewrite <- len_zero. destruct (len l =? 0); split; congruence.
Qed.

(** *** One pass of eval.ts *)

Lemma Eval_select_len (lower : jsstring -> jsstring)
    (pool : list RetrievedChunk) (opts : Eval.Opts) :
  len (Eval.selectForContext lower pool opts) <= Z.max (Eval.maxChunks opts) 1.
Proof.
  unfold Eval.selectForContext. rewrite Eval_selectLoop_gen.
  etransitivity; [apply genLoop_len|]. simpl. unfold len. simpl. lia.
Qed.

Lemma Eval_select_nodup (lower : jsstring -> jsstring)
    (pool : list RetrievedChunk) (opts : Eval.Opts) :
  NoDup (map keyPair (Eval.selectForContext lower pool opts)).
Proof.
  unfold Eval.selectForContext. rewrite Eval_selectLoop_gen.
  apply NoDup_keyPair. apply genLoop_dedup, dedupInv_empty.
Qed.

(** In eval.ts the cap binds every file, routed or not. *)
Lemma Eval_select_cap (lower : jsstring -> jsstring)
    (pool : list RetrievedChunk) (opts : Eval.Opts) (file : jsstring) :
  fromFile file (Eval.selectForContext lower pool opts)
  <= Z.max 0 (Eval.maxPerFile opts).
Proof.
  unfold Eval.selectForContext. rewrite Eval_selectLoop_gen.
  apply (genLoop_cap lower false _ _ (Eval.priorityPrefixes opts) _ _ pool
           emptySel (capInv_empty _ _ _) file).
  reflexivity.
Qed.

Lemma Eval_select_all_low (lower : jsstring -> jsstring)
    (pool : list RetrievedChunk) (opts : Eval.Opts) :
  forallb (fun r => isLowSignalChunk lower r (Eval.minChars opts)
                      (Eval.dropStatus opts) (Eval.priorityPrefixes opts))
    pool = true ->
  Eval.selectForContext lower pool opts = [].
Proof.
  intros H. unfold Eval.selectForContext.
  rewrite Eval_selectLoop_gen, genLoop_all_low; [reflexivity|exact H].
Qed.

(** *** One pass of ask.ts *)

Lemma Ask_select_len (lower : jsstring -> jsstring)
    (pool : list RetrievedChunk) (opts : Ask.Opts) :
  len (Ask.chosen (Ask.assembleContextFromCandidates lower pool opts))
  <= Z.max (Ask.maxChunks opts) 1.
Proof.
  unfold Ask.assembleContextFromCandidates. cbn [Ask.chosen].
  rewrite Ask_selectLoop_gen.
  etransitivity; [apply genLoop_len|]. simpl. unfold len. simpl. lia.
Qed.

Lemma Ask_select_nodup (lower : jsstring -> jsstring)
    (pool : list RetrievedChunk) (opts : Ask.Opts) :
  NoDup (map keyPair
           (Ask.chosen (Ask.assembleContextFromCandidates lower pool opts))).
Proof.
  unfold Ask.assembleContextFromCandidates. cbn [Ask.chosen].
  rewrite Ask_selectLoop_gen.
  apply NoDup_keyPair. apply genLoop_dedup, dedupInv_empty.
Qed.

(** In ask.ts the cap binds the files that no priority prefix matches. *)
Lemma Ask_select_cap (lower : jsstring -> jsstring)
    (pool : list RetrievedChunk) (opts : Ask.Opts) (file : jsstring) :
  isPrioritySource file (Ask.priorityPrefixes opts) = false ->
  fromFile file
    (Ask.chosen (Ask.assembleContextFromCandidates lower pool opts))
  <= Z.max 0 (Ask.maxPerFile opts).
Proof.
  intros Hfile. unfold Ask.assembleContextFromCandidates. cbn [Ask.chosen].
  rewrite Ask_selectLoop_gen.
  apply (genLoop_cap lower true _ _ (Ask.priorityPrefixes opts) _ _ pool
           emptySel (capInv_empty _ _ _) file).
  unfold exempt. now rewrite Hfile.
Qed.

(** In ask.ts the priority sources escape the cap: a pool of priority
    sources with distinct keys is selected whole, up to [maxChunks]. *)
Lemma Ask_select_all_priority (lower : jsstring -> jsstring)
    (pool : list RetrievedChunk) (opts : Ask.Opts) :
  allPriority (Ask.priorityPrefixes opts) pool = true ->
  NoDup (map dedupKey pool) ->
  Ask.chosen (Ask.assembleContextFromCandidates lower pool opts)
  = firstn (Z.to_nat (Z.max 1 (Ask.maxChunks opts))) pool.
Proof.
  intros Hprio Hnd. unfold Ask.assembleContextFromCandidates.
  cbn [Ask.chosen]. rewrite Ask_selectLoop_gen.
  rewrite genLoop_all_priority; [|assumption|assumption|].
  - simpl. unfold len. simpl. now rewrite Z.sub_0_r.
  - intros r _. simpl. apply not_elem_of_empty.
Qed.

Lemma Ask_select_all_low (lower : jsstring -> jsstring)
    (pool : list RetrievedChunk) (opts : Ask.Opts) :
  forallb (fun r => isLowSignalChunk lower r (Ask.minChars opts)
                      (Ask.dropStatus opts) (Ask.priorityPrefixes opts))
    pool = true ->
  Ask.chosen (Ask.assembleContextFromCandidates lower pool opts) = [].
Proof.
  intros H. unfold Ask.assembleContextFromCandidates. cbn [Ask.chosen].
  rewrite Ask_selectLoop_gen, genLoop_all_low; [reflexivity|exact H].
Qed.

(** ask.ts on three sections of the routed README.md: all three are
    selected, beyond [maxPerFile] = 2. *)
Lemma Ask_routedPool_all_selected :
  Ask.chosen (Ask.assembleContextFromCandidates asciiLower
                Fixtures.routedPool (Fixtures.askDefaults [lit "README.md"]))
  = Fixtures.routedPool.
Proof. vm_compute. reflexivity. Qed.

(** C1 on eval.ts, at three sections of README.md with README.md the
    priority prefix, [maxPerFile] = 2 and [maxChunks] = 8: the pool is made
    of priority sources with distinct keys and fits in [maxChunks], and
    [selectForContext] keeps the first two sections only. *)
Theorem Eval_selectForContext_caps_priority_source :
  allPriority [lit "README.md"] Fixtures.routedPool = true /\
  NoDup (map dedupKey Fixtures.routedPool) /\
  len Fixtures.routedPool <= Eval.argMaxChunks Fixtures.evalDefaults /\
  Eval.selectForContext asciiLower Fixtures.routedPool
    (Eval.primary Fixtures.evalDefaults [lit "README.md"])
  = firstn 2 Fixtures.routedPool /\
  Eval.selectedFinal asciiLower Fixtures.evalDefaults [lit "README.md"]
    Fixtures.routedPool
  = firstn 2 Fixtures.routedPool.
Proof.
  split; [vm_compute; reflexivity|].
  split; [|split; [vm_compute; discriminate|split; vm_compute; reflexivity]].
  apply (bool_decide_unpack _). vm_compute. exact I.
Qed.

(** *** The fallback ladders *)

Lemma allShort_low (lower : jsstring -> jsstring) (minChars : Z)
    (dropStatus : bool) (pre : list jsstring) (pool : list RetrievedChunk) :
  allShort minChars pre pool = true ->
  forallb (fun r => isLowSignalChunk lower r minChars dropStatus pre) pool
    = true.
Proof.
  unfold allShort. rewrite !forallb_forall. intros H r Hr.
  specialize (H r Hr). apply andb_true_iff in H as [Hp Hs].
  apply negb_true_iff in Hp. unfold isLowSignalChunk. now rewrite Hp, Hs.
Qed.

Lemma slice0_nonempty {A} (l : list A) (e : Z) :
  l <> [] -> 1 <= e -> slice0 l e <> [].
Proof.
  intros Hl He Hs. apply (f_equal len) in Hs.
  rewrite slice0_len in Hs by lia.
  assert (1 <= len l) by (unfold len; destruct l; simpl; [congruence|lia]).
  unfold len in Hs at 2. simpl in Hs. lia.
Qed.

(** The three ways in which [selectedFinal] is built. *)
Lemma Eval_selectedFinal_cases (lower : jsstring -> jsstring)
    (args : Eval.Args) (pre : list jsstring) (pool : list RetrievedChunk) :
  let first := Eval.selectForContext lower pool (Eval.primary args pre) in
  let second := Eval.selectForContext lower pool (Eval.relaxed args pre) in
  let result := Eval.selectedFinal lower args pre pool in
  (first <> [] /\ result = first) \/
  (first = [] /\ second <> [] /\ result = second) \/
  (first = [] /\ second = [] /\
   result = slice0 pool (Eval.argMaxChunks args)).
Proof.
  cbv zeta. unfold Eval.selectedFinal.
  destruct (len (Eval.selectForContext lower pool (Eval.primary args pre))
            =? 0) eqn:E1.
  - apply len_zero in E1. right.
    destruct (len (Eval.selectForContext lower pool (Eval.relaxed args pre))
              =? 0) eqn:E2.
    + apply len_zero in E2. right. auto.
    + apply len_zero_false in E2. left. auto.
  - apply len_zero_false in E1. left. auto.
Qed.

(** The three ways in which [assembled] is built. *)
Lemma Ask_assembled_cases (lower : jsstring -> jsstring)
    (pool : list RetrievedChunk) (opts : Ask.Opts) :
  let first :=
    Ask.chosen (Ask.assembleContextFromCandidates lower pool opts) in
  let second :=
    Ask.chosen (Ask.assembleContextFromCandidates lower pool
                  (Ask.relaxed opts)) in
  let result := Ask.chosen (Ask.assembled lower pool opts) in
  (first <> [] /\ result = first) \/
  (first = [] /\ second <> [] /\ result = second) \/
  (first = [] /\ second = [] /\ result = slice0 pool (Ask.maxChunks opts)).
Proof.
  cbv zeta. unfold Ask.assembled.
  destruct (len (Ask.chosen (Ask.assembleContextFromCandidates lower pool opts))
            =? 0) eqn:E1.
  - apply len_zero in E1. right.
    destruct (len (Ask.chosen (Ask.assembleContextFromCandidates lower pool
                                 (Ask.relaxed opts))) =? 0) eqn:E2.
    + apply len_zero in E2. right. auto.
    + apply len_zero_false in E2. left. auto.
  - apply len_zero_false in E1. left. auto.
Qed.

(** C2, as the code has it.  A selection pass never returns two items
    with the same [(sourcePath, sectionPath)]; with [maxChunks] at least 1
    the output of the ladder has at most [maxChunks] items; and the output
    of the ladder is free of duplicate keys whenever one of the two passes
    selected something.  The last rung, the first [maxChunks] raw
    candidates, is not deduplicated. *)
Theorem selection_bounded_and_deduplicated (lower : jsstring -> jsstring)
    (pool : list RetrievedChunk) :
  (forall opts, NoDup (map keyPair (Eval.selectForContext lower pool opts))) /\
  (forall opts,
     NoDup (map keyPair
              (Ask.chosen (Ask.assembleContextFromCandidates lower pool opts)))) /\
  (forall args pre,
     1 <= Eval.argMaxChunks args ->
     len (Eval.selectedFinal lower args pre pool) <= Eval.argMaxChunks args) /\
  (forall opts,
     1 <= Ask.maxChunks opts ->
     len (Ask.chosen (Ask.assembled lower pool opts)) <= Ask.maxChunks opts) /\
  (forall args pre,
     Eval.selectForContext lower pool (Eval.primary args pre) <> [] \/
     Eval.selectForContext lower pool (Eval.relaxed args pre) <> [] ->
     NoDup (map keyPair (Eval.selectedFinal lower args pre pool))) /\
  (forall opts,
     Ask.chosen (Ask.assembleContextFromCandidates lower pool opts) <> [] \/
     Ask.chosen (Ask.assembleContextFromCandidates lower pool
                   (Ask.relaxed opts)) <> [] ->
     NoDup (map keyPair (Ask.chosen (Ask.assembled lower pool opts)))).
Proof.
  split; [intros opts; apply Eval_select_nodup|].
  split; [intros opts; apply Ask_select_nodup|].
  split; [|split; [|split]].
  - intros args pre Hmax.
    destruct (Eval_selectedFinal_cases lower args pre pool)
      as [[_ ->]|[(_ & _ & ->)|(_ & _ & ->)]].
    + etransitivity; [apply Eval_select_len|]. simpl. lia.
    + etransitivity; [apply Eval_select_len|]. simpl. lia.
    + apply slice0_len_le. lia.
  - intros opts Hmax.
    destruct (Ask_assembled_cases lower pool opts)
      as [[_ ->]|[(_ & _ & ->)|(_ & _ & ->)]].
    + etransitivity; [apply Ask_select_len|]. lia.
    + etransitivity; [apply Ask_select_len|]. simpl. lia.
    + apply slice0_len_le. lia.
  - intros args pre Hsome.
    destruct (Eval_selectedFinal_cases lower args pre pool)
      as [[_ ->]|[(_ & _ & ->)|(H1 & H2 & _)]].
    + apply Eval_select_nodup.
    + apply Eval_select_nodup.
    + destruct Hsome; contradiction.
  - intros opts Hsome.
    destruct (Ask_assembled_cases lower pool opts)
      as [[_ ->]|[(_ & _ & ->)|(H1 & H2 & _)]].
    + apply Ask_select_nodup.
    + apply Ask_select_nodup.
    + destruct Hsome; contradiction.
Qed.

Lemma selection_bounded_and_deduplicated_witness :
  (1 <= Eval.argMaxChunks Fixtures.evalDefaults /\
   len (Eval.selectedFinal asciiLower Fixtures.evalDefaults []
          Fixtures.mediumPool) <= Eval.argMaxChunks Fixtures.evalDefaults) /\
  (1 <= Ask.maxChunks (Fixtures.askDefaults []) /\
   len (Ask.chosen (Ask.assembled asciiLower Fixtures.mediumPool
                      (Fixtures.askDefaults [])))
   <= Ask.maxChunks (Fixtures.askDefaults [])) /\
  (Eval.selectForContext asciiLower Fixtures.mediumPool
     (Eval.relaxed Fixtures.evalDefaults []) <> [] /\
   NoDup (map keyPair (Eval.selectedFinal asciiLower Fixtures.evalDefaults []
                         Fixtures.mediumPool))) /\
  (Ask.chosen (Ask.assembleContextFromCandidates asciiLower
                 Fixtures.mediumPool (Ask.relaxed (Fixtures.askDefaults [])))
   <> [] /\
   NoDup (map keyPair (Ask.chosen (Ask.assembled asciiLower
                                     Fixtures.mediumPool
                                     (Fixtures.askDefaults []))))).
Proof.
  pose proof (selection_bounded_and_deduplicated asciiLower
                Fixtures.mediumPool) as (_ & _ & HlenE & HlenA & HndE & HndA).
  assert (H1 : 1 <= Eval.argMaxChunks Fixtures.evalDefaults)
    by (vm_compute; discriminate).
  assert (H2 : 1 <= Ask.maxChunks (Fixtures.askDefaults []))
    by (vm_compute; discriminate).
  assert (H3 : Eval.selectForContext asciiLower Fixtures.mediumPool
                 (Eval.relaxed Fixtures.evalDefaults []) <> [])
    by (vm_compute; discriminate).
  assert (H4 : Ask.chosen (Ask.assembleContextFromCandidates asciiLower
                 Fixtures.mediumPool (Ask.relaxed (Fixtures.askDefaults [])))
               <> [])
    by (vm_compute; discriminate).
  split; [split; [exact H1|exact (HlenE _ _ H1)]|].
  split; [split; [exact H2|exact (HlenA _ H2)]|].
  split; [split; [exact H3|exact (HndE _ _ (or_intror H3))]|].
  split; [exact H4|exact (HndA _ (or_intror H4))].
Defined.

(** C2, as the specification states it, fails on the last rung of the
    ladder: two one-character chunks of the same section of a.md fail both
    passes, the raw candidates are returned, and the output holds the key
    (a.md, S) twice. *)
Lemma selectedFinal_fallback_duplicates :
  Eval.selectedFinal asciiLower Fixtures.evalDefaults [] Fixtures.twinPool
  = Fixtures.twinPool /\
  ~ NoDup (map keyPair
             (Eval.selectedFinal asciiLower Fixtures.evalDefaults []
                Fixtures.twinPool)).
Proof.
  assert (E : Eval.selectedFinal asciiLower Fixtures.evalDefaults []
                Fixtures.twinPool = Fixtures.twinPool)
    by (vm_compute; reflexivity).
  split; [exact E|]. rewrite E. intros H.
  apply NoDup_cons_1_1 in H. apply H. left.
Qed.

(** The same happens in ask.ts. *)
Lemma assembled_fallback_duplicates :
  ~ NoDup (map keyPair
             (Ask.chosen (Ask.assembled asciiLower Fixtures.twinPool
                            (Fixtures.askDefaults [])))).
Proof.
  replace (Ask.chosen (Ask.assembled asciiLower Fixtures.twinPool
                         (Fixtures.askDefaults [])))
    with Fixtures.twinPool by (vm_compute; reflexivity).
  intros H. apply NoDup_cons_1_1 in H. apply H. left.
Qed.

(** With [maxChunks] = 0 a pass still returns one item: the selection is
    tested for fullness after the push. *)
Lemma selectForContext_zero_maxChunks :
  len (Eval.selectForContext asciiLower Fixtures.routedPool
         {| Eval.maxChunks := 0; Eval.maxPerFile := 2; Eval.minChars := 120;
            Eval.dropStatus := true;
            Eval.priorityPrefixes := [lit "README.md"] |}) = 1.
Proof. vm_compute. reflexivity. Qed.

(** C3, as the code has it.  On a non-empty pool of unrouted chunks whose
    trimmed texts are all shorter than [minChars], with [maxChunks] at
    least 1: the first pass selects nothing, the output of the ladder is
    not empty, and it is either what the relaxed pass selects or, when
    that pass selects nothing, the first [maxChunks] raw candidates.  When
    the texts are also shorter than min(minChars, 60), the output has
    exactly min(maxChunks, pool size) items. *)
Theorem fallback_ladder_nonempty (lower : jsstring -> jsstring)
    (pool : list RetrievedChunk) :
  pool <> [] ->
  (forall args pre,
     1 <= Eval.argMaxChunks args ->
     allShort (Eval.argMinChars args) pre pool = true ->
     let result := Eval.selectedFinal lower args pre pool in
     let second := Eval.selectForContext lower pool (Eval.relaxed args pre) in
     result <> [] /\
     ((second <> [] /\ result = second) \/
      (second = [] /\ result = slice0 pool (Eval.argMaxChunks args))) /\
     (allShort (Z.min (Eval.argMinChars args) 60) pre pool = true ->
      len result = Z.min (Eval.argMaxChunks args) (len pool))) /\
  (forall opts,
     1 <= Ask.maxChunks opts ->
     allShort (Ask.minChars opts) (Ask.priorityPrefixes opts) pool = true ->
     let result := Ask.chosen (Ask.assembled lower pool opts) in
     let second :=
       Ask.chosen (Ask.assembleContextFromCandidates lower pool
                     (Ask.relaxed opts)) in
     result <> [] /\
     ((second <> [] /\ result = second) \/
      (second = [] /\ result = slice0 pool (Ask.maxChunks opts))) /\
     (allShort (Z.min (Ask.minChars opts) 60) (Ask.priorityPrefixes opts) pool
        = true ->
      len result = Z.min (Ask.maxChunks opts) (len pool))).
Proof.
  intros Hpool. split.
  - intros args pre Hmax Hshort. cbv zeta.
    assert (H1 : Eval.selectForContext lower pool (Eval.primary args pre) = []).
    { apply Eval_select_all_low. now apply allShort_low. }
    destruct (Eval_selectedFinal_cases lower args pre pool)
      as [[H _]|[(_ & H2 & E)|(_ & H2 & E)]]; [contradiction| |].
    + rewrite E. split; [exact H2|]. split; [left; auto|].
      intros Hs. exfalso. apply H2. apply Eval_select_all_low.
      now apply allShort_low.
    + rewrite E. split; [now apply slice0_nonempty|].
      split; [right; auto|]. intros _. apply slice0_len. lia.
  - intros opts Hmax Hshort. cbv zeta.
    assert (H1 : Ask.chosen (Ask.assembleContextFromCandidates lower pool opts)
                 = []).
    { apply Ask_select_all_low. now apply allShort_low. }
    destruct (Ask_assembled_cases lower pool opts)
      as [[H _]|[(_ & H2 & E)|(_ & H2 & E)]]; [contradiction| |].
    + rewrite E. split; [exact H2|]. split; [left; auto|].
      intros Hs. exfalso. apply H2. apply Ask_select_all_low.
      now apply allShort_low.
    + rewrite E. split; [now apply slice0_nonempty|].
      split; [right; auto|]. intros _. apply slice0_len. lia.
Qed.

Lemma fallback_ladder_nonempty_witness :
  Fixtures.twinPool <> [] /\
  1 <= Eval.argMaxChunks Fixtures.evalDefaults /\
  allShort (Eval.argMinChars Fixtures.evalDefaults) [] Fixtures.twinPool
    = true /\
  Eval.selectedFinal asciiLower Fixtures.evalDefaults [] Fixtures.twinPool
    <> [] /\
  1 <= Ask.maxChunks (Fixtures.askDefaults []) /\
  allShort (Ask.minChars (Fixtures.askDefaults []))
    (Ask.priorityPrefixes (Fixtures.askDefaults [])) Fixtures.twinPool
    = true /\
  Ask.chosen (Ask.assembled asciiLower Fixtures.twinPool
                (Fixtures.askDefaults [])) <> [].
Proof.
  assert (H0 : Fixtures.twinPool <> []) by discriminate.
  assert (H1 : 1 <= Eval.argMaxChunks Fixtures.evalDefaults)
    by (vm_compute; discriminate).
  assert (H2 : allShort (Eval.argMinChars Fixtures.evalDefaults) []
                 Fixtures.twinPool = true) by (vm_compute; reflexivity).
  assert (H3 : 1 <= Ask.maxChunks (Fixtures.askDefaults []))
    by (vm_compute; discriminate).
  assert (H4 : allShort (Ask.minChars (Fixtures.askDefaults []))
                 (Ask.priorityPrefixes (Fixtures.askDefaults []))
                 Fixtures.twinPool = true) by (vm_compute; reflexivity).
  pose proof (fallback_ladder_nonempty asciiLower Fixtures.twinPool H0)
    as [HE HA].
  split; [exact H0|]. split; [exact H1|]. split; [exact H2|].
  split; [exact (proj1 (HE _ _ H1 H2))|].
  split; [exact H3|]. split; [exact H4|].
  exact (proj1 (HA _ H3 H4)).
Defined.

(** C3, as the specification states it, fails on the count: three
    80-character sections of one unrouted file are all shorter than
    [minChars] = 120; the relaxed pass accepts them and stops at
    [maxPerFile] = 2, so the output has 2 items, fewer than
    min(maxChunks, pool size) = 3. *)
Lemma selectedFinal_below_min :
  Fixtures.mediumPool <> [] /\
  allShort (Eval.argMinChars Fixtures.evalDefaults) [] Fixtures.mediumPool
    = true /\
  len (Eval.selectedFinal asciiLower Fixtures.evalDefaults []
         Fixtures.mediumPool) = 2 /\
  Z.min (Eval.argMaxChunks Fixtures.evalDefaults) (len Fixtures.mediumPool)
    = 3 /\
  ~ Z.min (Eval.argMaxChunks Fixtures.evalDefaults) (len Fixtures.mediumPool)
    <= len (Eval.selectedFinal asciiLower Fixtures.evalDefaults []
              Fixtures.mediumPool).
Proof.
  assert (E : len (Eval.selectedFinal asciiLower Fixtures.evalDefaults []
                     Fixtures.mediumPool) = 2) by (vm_compute; reflexivity).
  split; [discriminate|]. split; [vm_compute; reflexivity|].
  split; [exact E|]. split; [vm_compute; reflexivity|].
  rewrite E. vm_compute. intros H. apply H. reflexivity.
Qed.

(** The same two cases with a service that answers: both are counted and
    the report is printed. *)
Lemma main_healthy_run_counts_both :
  exists final,
    Eval.main asciiLower Fixtures.healthyPost Fixtures.emptySearch
      Fixtures.evalDefaults [Fixtures.case1; Fixtures.case2]
    = Eval.Finished final /\ Eval.total final = 2.
Proof. eexists. split; vm_compute; reflexivity. Qed.

(* ===================================================================== *)
(** * Further properties of the code *)
(* ===================================================================== *)

(** ** The embedder *)

Lemma embedEach_inr (post : jsstring -> jsstring -> option HttpResponse)
    (model : jsstring) (texts : list jsstring) (vs : list (list float)) :
  Embeddings.embedEach post model texts = inr vs ->
  Forall2 (fun t v => Embeddings.ollamaEmbedOne post model t = inr v)
    texts vs.
Proof.
  revert vs. induction texts as [|t rest IH]; intros vs; simpl.
  - intros [= <-]. constructor.
  - destruct (Embeddings.ollamaEmbedOne post model t) as [e|v] eqn:E;
      [discriminate|].
    destruct (Embeddings.embedEach post model rest) as [e|vs'];
      [discriminate|].
    intros [= <-]. constructor; [exact E|]. now apply IH.
Qed.

Lemma embedEach_inl (post : jsstring -> jsstring -> option HttpResponse)
    (model : jsstring) (texts : list jsstring) (e : Error) :
  Embeddings.embedEach post model texts = inl e ->
  exists before t after,
    texts = before ++ t :: after /\
    Embeddings.ollamaEmbedOne post model t = inl e /\
    Forall (fun t' => exists v,
              Embeddings.ollamaEmbedOne post model t' = inr v) before.
Proof.
  induction texts as [|t rest IH]; simpl; [discriminate|].
  destruct (Embeddings.ollamaEmbedOne post model t) as [e'|v] eqn:E.
  - intros [= <-]. exists [], t, rest. repeat split; [exact E|constructor].
  - destruct (Embeddings.embedEach post model rest) as [e'|vs'];
      [|discriminate].
    intros [= <-]. destruct (IH eq_refl) as (b & t' & a & -> & Ht & Hb).
    exists (t :: b), t', a. repeat split; [exact Ht|].
    constructor; [eauto|exact Hb].
Qed.

Lemma embed_inr (post : jsstring -> jsstring -> option HttpResponse)
    (texts : list jsstring) (model : option jsstring)
    (vectors : list (list float)) :
  Embeddings.embed post texts model = inr vectors ->
  Forall2 (fun t v =>
             Embeddings.ollamaEmbedOne post
               (default Embeddings.DEFAULT_MODEL model) t = inr v)
    texts vectors /\
  Forall (fun v => len v = match vectors with
                           | v0 :: _ => len v0
                           | [] => 0
                           end) vectors.
Proof.
  unfold Embeddings.embed. destruct texts as [|t rest].
  - intros [= <-]. split; constructor.
  - destruct (Embeddings.embedEach post _ (t :: rest)) as [e|vs] eqn:E;
      [discriminate|].
    destruct (find _ vs) as [v|] eqn:F; [discriminate|].
    intros [= <-]. split; [now apply embedEach_inr|].
    apply Forall_forall. intros v Hv. apply list_elem_of_In in Hv.
    apply (find_none _ _ F) in Hv.
    apply negb_false_iff, Z.eqb_eq in Hv. exact Hv.
Qed.

(** When [embed] returns, it returns one vector per text, in the order of
    the texts, each the answer of the service for its text, and all of the
    dimension of the first. *)
Theorem embed_returns_one_vector_per_text
    (post : jsstring -> jsstring -> option HttpResponse)
    (texts : list jsstring) (model : option jsstring)
    (vectors : list (list float)) :
  Embeddings.embed post texts model = inr vectors ->
  length vectors = length texts /\
  Forall2 (fun t v =>
             Embeddings.ollamaEmbedOne post
               (default Embeddings.DEFAULT_MODEL model) t = inr v)
    texts vectors /\
  (forall v w, In v vectors -> In w vectors -> len v = len w).
Proof.
  intros H. destruct (embed_inr _ _ _ _ H) as [H2 Hdim].
  split; [symmetry; exact (Forall2_length _ _ _ H2)|].
  split; [exact H2|].
  intros v w Hv Hw. rewrite Forall_forall in Hdim.
  apply list_elem_of_In in Hv, Hw.
  now rewrite (Hdim v Hv), (Hdim w Hw).
Qed.

Lemma embed_returns_one_vector_per_text_witness :
  Embeddings.embed Fixtures.healthyPost [lit "q1"; lit "q2"] None
    = inr [[1; 0]%float; [1; 0]%float] /\
  length [[1; 0]%float; [1; 0]%float] = length [lit "q1"; lit "q2"].
Proof.
  assert (H : Embeddings.embed Fixtures.healthyPost [lit "q1"; lit "q2"] None
              = inr [[1; 0]%float; [1; 0]%float])
    by (vm_compute; reflexivity).
  split; [exact H|].
  exact (proj1 (embed_returns_one_vector_per_text _ _ _ _ H)).
Defined.

(** When [embed] throws, either the exception is that of the first
    request that fails (every earlier text was embedded), or every
    request succeeded and two vectors differ in dimension. *)
Theorem embed_throws_first_failure
    (post : jsstring -> jsstring -> option HttpResponse)
    (texts : list jsstring) (model : option jsstring) (e : Error) :
  Embeddings.embed post texts model = inl e ->
  (exists before t after,
     texts = before ++ t :: after /\
     Embeddings.ollamaEmbedOne post
       (default Embeddings.DEFAULT_MODEL model) t = inl e /\
     Forall (fun t' => exists v,
               Embeddings.ollamaEmbedOne post
                 (default Embeddings.DEFAULT_MODEL model) t' = inr v)
       before) \/
  (exists expected got,
     e = InconsistentDimension expected got /\ expected <> got /\
     exists vectors,
       Embeddings.embedEach post (default Embeddings.DEFAULT_MODEL model)
         texts = inr vectors).
Proof.
  unfold Embeddings.embed. destruct texts as [|t rest]; [discriminate|].
  destruct (Embeddings.embedEach post _ (t :: rest)) as [e'|vs] eqn:E.
  - intros [= <-]. left. now apply embedEach_inl.
  - destruct (find _ vs) as [v|] eqn:F; [|discriminate].
    intros [= <-]. right. apply find_some in F as [_ F].
    apply negb_true_iff, Z.eqb_neq in F.
    eexists _, _. split; [reflexivity|]. split; [congruence|]. eauto.
Qed.

Lemma embed_throws_first_failure_witness :
  Embeddings.embed Fixtures.failingPost [lit "q2"; lit "q1"; lit "q3"] None
    = inl (OllamaRequestFailed 500) /\
  ((exists before t after,
      [lit "q2"; lit "q1"; lit "q3"] = before ++ t :: after /\
      Embeddings.ollamaEmbedOne Fixtures.failingPost
        (default Embeddings.DEFAULT_MODEL None) t
        = inl (OllamaRequestFailed 500) /\
      Forall (fun t' => exists v,
                Embeddings.ollamaEmbedOne Fixtures.failingPost
                  (default Embeddings.DEFAULT_MODEL None) t' = inr v)
        before) \/
   (exists expected got,
      OllamaRequestFailed 500 = InconsistentDimension expected got /\
      expected <> got /\
      exists vectors,
        Embeddings.embedEach Fixtures.failingPost
          (default Embeddings.DEFAULT_MODEL None)
          [lit "q2"; lit "q1"; lit "q3"] = inr vectors)).
Proof.
  assert (H : Embeddings.embed Fixtures.failingPost
                [lit "q2"; lit "q1"; lit "q3"] None
              = inl (OllamaRequestFailed 500)) by (vm_compute; reflexivity).
  split; [exact H|].
  exact (embed_throws_first_failure _ _ _ _ H).
Defined.

(** ** The ingest script after the embedder *)

Lemma pairItems_same_length (i : Z) (chunks : list Chunk)
    (vectors : list (list float)) :
  length chunks = length vectors ->
  Ingest.pairItems i chunks vectors
  = inr (zip_with (fun c v => {| Store.embeddedChunk := c;
                                 Store.embeddedVector := v |})
           chunks vectors).
Proof.
  revert i vectors. induction chunks as [|c rest IH]; intros i [|v vs] Hlen;
    simpl in *; try reflexivity; try discriminate.
  rewrite IH by lia. reflexivity.
Qed.

Lemma find_none_Forall {A} (f : A -> bool) (l : list A) :
  Forall (fun x => f x = false) l -> find f l = None.
Proof.
  induction 1 as [|x l Hx _ IH]; simpl; [reflexivity|]. now rewrite Hx.
Qed.

(** The three checks that ingest.ts makes after [embed] (count of
    vectors, dimensions, a vector for every chunk) never fire: the script
    fails only where [embed] fails, and otherwise hands the store the
    chunks, in order, each with the vector of its own text. *)
Theorem ingest_fails_only_in_embed
    (post : jsstring -> jsstring -> option HttpResponse)
    (chunks : list Chunk) :
  match Ingest.embedChunks post chunks with
  | inl f =>
      exists e, f = Ingest.EmbedFailed e /\
                Embeddings.embed post (map text chunks) None = inl e
  | inr items =>
      map Store.embeddedChunk items = chunks /\
      Forall2 (fun c it =>
                 Embeddings.ollamaEmbedOne post Embeddings.DEFAULT_MODEL
                   (text c) = inr (Store.embeddedVector it))
        chunks items
  end.
Proof.
  unfold Ingest.embedChunks.
  destruct (Embeddings.embed post (map text chunks) None) as [e|vectors] eqn:E.
  - eauto.
  - destruct (embed_inr _ _ _ _ E) as [H2 Hdim]. simpl in H2.
    assert (Hlen : length chunks = length vectors).
    { rewrite <- (Forall2_length _ _ _ H2). now rewrite length_map. }
    assert (Hz : (len vectors =? len chunks) = true).
    { apply Z.eqb_eq. unfold len. now rewrite Hlen. }
    rewrite Hz. cbn [negb].
    rewrite find_none_Forall.
    + rewrite pairItems_same_length by exact Hlen. split.
      * clear -Hlen. revert vectors Hlen.
        induction chunks as [|c rest IH]; intros [|v vs] Hlen; simpl in *;
          try reflexivity; try discriminate.
        f_equal. apply IH. lia.
      * clear -H2. revert vectors H2.
        induction chunks as [|c rest IH]; intros vectors H2;
          inversion H2; subst; simpl; constructor; auto.
    + eapply Forall_impl; [exact Hdim|]. intros v Hv. simpl in Hv.
      apply negb_false_iff, Z.eqb_eq. exact Hv.
Qed.

(** ** Matching a selected source against a needle *)

Lemma toPathOnly_cons (d : N) (s : jsstring) :
  Eval.toPathOnly (d :: s)
  = if N.eqb d 35 then [] else d :: Eval.toPathOnly s.
Proof.
  unfold Eval.toPathOnly. simpl. destruct (N.eqb d 35); [reflexivity|].
  destruct (indexOf s 35); reflexivity.
Qed.

Lemma toPathOnly_no_hash (s : jsstring) : ~ In 35%N (Eval.toPathOnly s).
Proof.
  induction s as [|d s IH]; [intros []|].
  rewrite toPathOnly_cons. destruct (N.eqb d 35) eqn:E; [intros []|].
  apply N.eqb_neq in E. intros [H|H]; [congruence|contradiction].
Qed.

Lemma toPathOnly_hash_free (s : jsstring) :
  ~ In 35%N s -> Eval.toPathOnly s = s.
Proof.
  induction s as [|d s IH]; intros H; [reflexivity|].
  rewrite toPathOnly_cons.
  destruct (N.eqb d 35) eqn:E.
  - apply N.eqb_eq in E. exfalso. apply H. now left.
  - rewrite IH; [reflexivity|]. intros Hin. apply H. now right.
Qed.

Lemma toPathOnly_app_hash (p s : jsstring) :
  Eval.toPathOnly (p ++ 35%N :: s) = Eval.toPathOnly p.
Proof.
  induction p as [|d p IH]; simpl.
  - now rewrite toPathOnly_cons.
  - rewrite !toPathOnly_cons. destruct (N.eqb d 35); [reflexivity|].
    now rewrite IH.
Qed.

Lemma toPathOnly_normalizeSource (r : RetrievedChunk) :
  Eval.toPathOnly (Eval.normalizeSource r)
  = Eval.toPathOnly (sourcePath (metadata (chunk r))).
Proof.
  unfold Eval.normalizeSource, formatSource.
  destruct (sectionPath (metadata (chunk r))) as [[|c s]|].
  - now rewrite app_nil_r.
  - apply toPathOnly_app_hash.
  - now rewrite app_nil_r.
Qed.

Lemma startsWith_nil (s : jsstring) : startsWith s [] = true.
Proof. now destruct s. Qed.

Lemma startsWith_toPathOnly (s p : jsstring) :
  ~ In 35%N p -> startsWith s p = true ->
  startsWith (Eval.toPathOnly s) p = true.
Proof.
  revert s. induction p as [|c p IH]; intros s Hp Hs;
    [apply startsWith_nil|].
  destruct s as [|d s]; [discriminate|]. simpl in Hs.
  apply andb_true_iff in Hs as [Hc Hs]. apply N.eqb_eq in Hc. subst d.
  rewrite toPathOnly_cons.
  destruct (N.eqb c 35) eqn:E.
  - apply N.eqb_eq in E. exfalso. apply Hp. now left.
  - simpl. rewrite N.eqb_refl. apply IH; [|exact Hs].
    intros Hin. apply Hp. now right.
Qed.

Lemma sourceMatchesNeedle_path (r : RetrievedChunk) (needle : jsstring) :
  needle = sourcePath (metadata (chunk r)) \/
  (~ In 35%N needle /\
   startsWith (sourcePath (metadata (chunk r))) needle = true) ->
  Eval.sourceMatchesNeedle (Eval.normalizeSource r) needle = true.
Proof.
  intros H. unfold Eval.sourceMatchesNeedle.
  rewrite toPathOnly_normalizeSource.
  destruct H as [->|[Hfree Hpre]].
  - unfold Eval.jsstring_eqb. now rewrite bool_decide_eq_true_2.
  - destruct (Eval.jsstring_eqb _ _); [reflexivity|].
    rewrite (toPathOnly_hash_free needle Hfree).
    now rewrite (startsWith_toPathOnly _ _ Hfree Hpre).
Qed.

Lemma slice0_map {A B} (f : A -> B) (l : list A) (e : Z) :
  slice0 (map f l) e = map f (slice0 l e).
Proof.
  unfold slice0, len. rewrite length_map. apply firstn_map.
Qed.

(** A case is a hit at [k] as soon as one of the first [k] selected items
    comes from a file that [mustContain] names, whatever the section of
    the item, or from a file under a prefix that [mustContain] names, when
    that prefix has no [#]. *)
Theorem hitAtK_finds_listed_file (sel : list RetrievedChunk)
    (mustContain : list jsstring) (k : Z) (r : RetrievedChunk)
    (needle : jsstring) :
  In r (slice0 sel k) ->
  In needle mustContain ->
  needle = sourcePath (metadata (chunk r)) \/
  (~ In 35%N needle /\
   startsWith (sourcePath (metadata (chunk r))) needle = true) ->
  Eval.hitAtK (map Eval.normalizeSource sel) mustContain k = true.
Proof.
  intros Hr Hn Hmatch. unfold Eval.hitAtK. rewrite slice0_map.
  apply existsb_exists. exists needle. split; [exact Hn|].
  apply existsb_exists. exists (Eval.normalizeSource r).
  split; [now apply in_map|]. now apply sourceMatchesNeedle_path.
Qed.

Lemma hitAtK_finds_listed_file_witness :
  In (Fixtures.mkItem "README.md" (Some "B") (lit "y"))
    (slice0 Fixtures.routedPool 3) /\
  In (lit "README.md") [lit "docs/"; lit "README.md"] /\
  Eval.hitAtK (map Eval.normalizeSource Fixtures.routedPool)
    [lit "docs/"; lit "README.md"] 3 = true.
Proof.
  assert (H1 : In (Fixtures.mkItem "README.md" (Some "B") (lit "y"))
                 (slice0 Fixtures.routedPool 3)) by (right; left; reflexivity).
  assert (H2 : In (lit "README.md") [lit "docs/"; lit "README.md"])
    by (right; left; reflexivity).
  split; [exact H1|]. split; [exact H2|].
  exact (hitAtK_finds_listed_file _ _ _ _ _ H1 H2 (or_introl eq_refl)).
Defined.

(** The path part of a source has no [#], and taking it twice is taking it
    once. *)
Theorem toPathOnly_stable (s : jsstring) :
  ~ In 35%N (Eval.toPathOnly s) /\
  Eval.toPathOnly (Eval.toPathOnly s) = Eval.toPathOnly s /\
  Eval.toPathOnly s `prefix_of` s.
Proof.
  split; [apply toPathOnly_no_hash|].
  split; [apply toPathOnly_hash_free, toPathOnly_no_hash|].
  unfold Eval.toPathOnly. destruct (indexOf s 35); [apply prefix_take|].
  reflexivity.
Qed.

Lemma hitAtK_whole (sel must : list jsstring) (k : Z) :
  len sel <= k ->
  Eval.hitAtK sel must k
  = existsb (fun needle =>
               existsb (fun s => Eval.sourceMatchesNeedle s needle) sel) must.
Proof.
  intros Hk. unfold Eval.hitAtK.
  rewrite slice0_firstn by (pose proof (len_nonneg sel); lia).
  rewrite firstn_all2; [reflexivity|]. unfold len in Hk. lia.
Qed.

(** hit@k at its edges: no hit without a needle, without a selected
    source or at [k = 0]; and beyond the number of selected sources the
    cut-off no longer matters. *)
Theorem hitAtK_edges (sel must : list jsstring) (k : Z) :
  Eval.hitAtK sel [] k = false /\
  Eval.hitAtK [] must k = false /\
  Eval.hitAtK sel must 0 = false /\
  (len sel <= k -> Eval.hitAtK sel must k = Eval.hitAtK sel must (len sel)).
Proof.
  split; [reflexivity|]. split; [|split].
  - unfold Eval.hitAtK, slice0. rewrite firstn_nil.
    induction must; simpl; auto.
  - unfold Eval.hitAtK. rewrite slice0_firstn by lia. simpl.
    induction must; simpl; auto.
  - intros Hk. rewrite (hitAtK_whole sel must k Hk).
    rewrite (hitAtK_whole sel must (len sel)); [reflexivity|lia].
Qed.

Lemma hitAtK_edges_witness :
  len [lit "a.md#S"; lit "b.md"] <= 8 /\
  Eval.hitAtK [lit "a.md#S"; lit "b.md"] [lit "b.md"] 8
  = Eval.hitAtK [lit "a.md#S"; lit "b.md"] [lit "b.md"]
      (len [lit "a.md#S"; lit "b.md"]).
Proof.
  assert (H : len [lit "a.md#S"; lit "b.md"] <= 8)
    by (vm_compute; discriminate).
  split; [exact H|].
  exact (proj2 (proj2 (proj2 (hitAtK_edges [lit "a.md#S"; lit "b.md"]
                                [lit "b.md"] 8))) H).
Defined.

(** ** Routed retrieval *)

Lemma idsOf_app (l l' : list RetrievedChunk) :
  idsOf (l ++ l') = idsOf l ∪ idsOf l'.
Proof. unfold idsOf. rewrite map_app. apply list_to_set_app_L. Qed.

Lemma idsOf_cons (r : RetrievedChunk) (l : list RetrievedChunk) :
  idsOf (r :: l) = {[id (chunk r)]} ∪ idsOf l.
Proof. reflexivity. Qed.

Lemma firstn_len_all {A} (l : list A) (n : nat) :
  (length (firstn n l) < n)%nat -> firstn n l = l.
Proof.
  intros H. rewrite length_firstn in H. apply firstn_all2. lia.
Qed.

(** What [pushDedup] does to [out] and [seen]: it appends the unseen
    items, first occurrences only, until [out] holds [topK] items, and at
    least one if there is one. *)
Lemma pushDedup_spec (topK : Z) (items out : list RetrievedChunk)
    (seen : gset jsstring) :
  let pushed :=
    firstn (Z.to_nat (Z.max 1 (topK - len out))) (dedupFrom seen items) in
  Eval.pushDedup topK items (out, seen) = (out ++ pushed, idsOf pushed ∪ seen).
Proof.
  cbv zeta. revert out seen.
  induction items as [|r rest IH]; intros out seen.
  - simpl. rewrite firstn_nil, app_nil_r. f_equal.
    unfold idsOf. simpl. now rewrite union_empty_l_L.
  - cbn [Eval.pushDedup dedupFrom fst snd].
    destruct (bool_decide (id (chunk r) ∈ seen)); [apply IH|].
    destruct (topK <=? len (out ++ [r])) eqn:Efull.
    + apply Z.leb_le in Efull. rewrite len_snoc in Efull.
      rewrite Z.max_l by lia. simpl. f_equal.
      unfold idsOf. simpl. now rewrite union_empty_r_L.
    + apply Z.leb_gt in Efull. rewrite len_snoc in Efull.
      rewrite IH. rewrite len_snoc.
      rewrite !Z.max_r by lia.
      replace (Z.to_nat (topK - len out))
        with (S (Z.to_nat (topK - (len out + 1)))) by lia.
      cbn [firstn]. rewrite <- app_assoc. cbn [app]. f_equal.
      rewrite idsOf_cons. apply set_eq. intros x.
      rewrite !elem_of_union. tauto.
Qed.

Lemma dedupFrom_app (seen : gset jsstring) (l l' : list RetrievedChunk) :
  dedupFrom seen (l ++ l')
  = dedupFrom seen l ++ dedupFrom (idsOf (dedupFrom seen l) ∪ seen) l'.
Proof.
  revert seen. induction l as [|r l IH]; intros seen.
  - simpl. unfold idsOf. simpl. now rewrite union_empty_l_L.
  - cbn [dedupFrom app].
    destruct (bool_decide (id (chunk r) ∈ seen)); [apply IH|].
    rewrite IH. cbn [app]. do 2 f_equal. rewrite idsOf_cons.
    f_equal. apply set_eq. intros x. rewrite !elem_of_union. tauto.
Qed.

Lemma dedupFrom_fresh (seen : gset jsstring) (l : list RetrievedChunk) :
  NoDup (map (fun r => id (chunk r)) (dedupFrom seen l)) /\
  (forall r, r ∈ dedupFrom seen l -> id (chunk r) ∉ seen) /\
  (forall r, r ∈ dedupFrom seen l -> r ∈ l).
Proof.
  revert seen. induction l as [|r l IH]; intros seen; simpl.
  - split; [constructor|]. split; intros r Hr; now apply elem_of_nil in Hr.
  - destruct (bool_decide (id (chunk r) ∈ seen)) eqn:E.
    + destruct (IH seen) as (H1 & H2 & H3). split; [exact H1|].
      split; [exact H2|]. intros r' Hr'. right. now apply H3.
    + apply bool_decide_eq_false in E.
      destruct (IH ({[id (chunk r)]} ∪ seen)) as (H1 & H2 & H3).
      split; [|split].
      * simpl. apply NoDup_cons. split; [|exact H1].
        intros Hin. apply list_elem_of_fmap in Hin as (r' & Heq & Hr').
        apply (H2 r' Hr'). rewrite <- Heq.
        apply elem_of_union_l. now apply elem_of_singleton.
      * intros r' Hr'. apply elem_of_cons in Hr' as [->|Hr']; [exact E|].
        intros Hin. apply (H2 r' Hr'). now apply elem_of_union_r.
      * intros r' Hr'. apply elem_of_cons in Hr' as [->|Hr']; [left|].
        right. now apply H3.
Qed.

Lemma firstn_app_long {A} (l l' : list A) (n : nat) :
  (n <= length l)%nat -> firstn n (l ++ l') = firstn n l.
Proof.
  intros H. rewrite firstn_app.
  replace (n - length l)%nat with O by lia. simpl. apply app_nil_r.
Qed.

(** The routed-first loop, entered with room left in [out] and with
    [seen] the ids of [out]. *)
Lemma routedOver_spec (topK : Z) (fetched : list (list RetrievedChunk))
    (out : list RetrievedChunk) :
  len out < topK ->
  let all := out ++ dedupFrom (idsOf out) (concat fetched) in
  match routedOver topK fetched (out, idsOf out) with
  | inl o => o = firstn (Z.to_nat topK) all /\ topK <= len all
  | inr (o, s) => o = all /\ s = idsOf o /\ len o < topK
  end.
Proof.
  cbv zeta. revert out. induction fetched as [|items rest IH]; intros out Hroom.
  - simpl. rewrite app_nil_r. auto.
  - cbn [routedOver concat]. rewrite pushDedup_spec. cbn [fst snd].
    rewrite Z.max_r by lia. rewrite dedupFrom_app.
    set (d1 := dedupFrom (idsOf out) items).
    set (n := Z.to_nat (topK - len out)).
    destruct (topK <=? len (out ++ firstn n d1)) eqn:Efull.
    + apply Z.leb_le in Efull. unfold len in Efull, Hroom.
      rewrite length_app, length_firstn in Efull.
      assert (Hn : (n <= length d1)%nat) by (subst n; unfold len; lia).
      split.
      * replace (Z.to_nat topK) with (length out + n)%nat
          by (subst n; unfold len; lia).
        rewrite firstn_app_2. f_equal. symmetry. now apply firstn_app_long.
      * unfold len. rewrite !length_app. lia.
    + apply Z.leb_gt in Efull.
      assert (Hall : firstn n d1 = d1).
      { apply firstn_len_all. unfold len in Efull, Hroom.
        rewrite length_app in Efull. subst n. unfold len in *. lia. }
      rewrite Hall in *.
      replace (idsOf d1 ∪ idsOf out) with (idsOf (out ++ d1))
        by (rewrite idsOf_app; apply union_comm_L).
      specialize (IH (out ++ d1) Efull).
      destruct (routedOver topK rest (out ++ d1, idsOf (out ++ d1)))
        as [o|[o s]]; rewrite <- app_assoc in IH; exact IH.
Qed.

(** A retrieval returns the first [topK] items of its fetches put end to
    end, routed fetches first, each chunk id at its first occurrence. *)
Lemma retrieveOver_spec (topK : Z) (fetched : list (list RetrievedChunk))
    (backfill : list RetrievedChunk) :
  1 <= topK ->
  retrieveOver topK fetched backfill
  = firstn (Z.to_nat topK) (dedupFrom ∅ (concat fetched ++ backfill)).
Proof.
  intros Hk. unfold retrieveOver.
  pose proof (routedOver_spec topK fetched [] ltac:(unfold len; simpl; lia))
    as H.
  change (idsOf []) with (∅ : gset jsstring) in H. cbv zeta in H.
  rewrite app_nil_l in H. rewrite dedupFrom_app.
  destruct (routedOver topK fetched ([], ∅)) as [o|[o s]].
  - destruct H as [-> Hlen]. symmetry. apply firstn_app_long.
    unfold len in Hlen. lia.
  - destruct H as (-> & -> & Hroom).
    rewrite pushDedup_spec. cbn [fst]. rewrite Z.max_r by lia.
    rewrite slice0_firstn by lia.
    rewrite union_empty_r_L.
    set (d1 := dedupFrom ∅ (concat fetched)) in *.
    set (d2 := dedupFrom (idsOf d1) backfill).
    unfold len in Hroom.
    rewrite !firstn_app.
    replace (Z.to_nat topK - length d1)%nat
      with (Z.to_nat (topK - len d1)) by (unfold len; lia).
    rewrite firstn_firstn. now rewrite Nat.min_id.
Qed.

Lemma Eval_routedFirst_over
    (search : Eval.SearchParams -> list RetrievedChunk)
    (coll : jsstring) (qv : list float) (topK : Z) (pre : list jsstring)
    (st : list RetrievedChunk * gset jsstring) :
  Eval.routedFirst search coll qv topK pre st
  = routedOver topK
      (map (fun p => Eval.fetch search coll qv topK (Some p)) pre) st.
Proof.
  revert st. induction pre as [|p pre IH]; intros st; [reflexivity|].
  cbn [Eval.routedFirst routedOver map]. now rewrite IH.
Qed.

Lemma Ask_routedFirst_over
    (search : AskFlow.SearchParams -> list RetrievedChunk)
    (coll : jsstring) (qv : list float) (topK : Z) (vectors : bool)
    (pre : list jsstring) (st : list RetrievedChunk * gset jsstring) :
  AskFlow.routedFirst search coll qv topK vectors pre st
  = routedOver topK
      (map (fun p => AskFlow.fetch search coll qv topK vectors (Some p)) pre)
      st.
Proof.
  revert st. induction pre as [|p pre IH]; intros st; [reflexivity|].
  cbn [AskFlow.routedFirst routedOver map]. now rewrite IH.
Qed.

Lemma Eval_retrieve_over (lower : jsstring -> jsstring)
    (search : Eval.SearchParams -> list RetrievedChunk)
    (coll query : jsstring) (qv : list float) (topK : Z) :
  Eval.retrieveWithRouting lower search coll query qv topK
  = (Eval.inferRoutePlan lower query,
     retrieveOver topK
       (map (fun p => Eval.fetch search coll qv topK (Some p))
          (prefixes (Eval.inferRoutePlan lower query)))
       (Eval.fetch search coll qv topK None)).
Proof.
  unfold Eval.retrieveWithRouting, retrieveOver.
  rewrite Eval_routedFirst_over.
  now destruct (routedOver topK _ _).
Qed.

Lemma Ask_retrieve_over (lower : jsstring -> jsstring)
    (search : AskFlow.SearchParams -> list RetrievedChunk)
    (coll query : jsstring) (qv : list float) (topK : Z) (vectors : bool) :
  AskFlow.retrieveWithRouting lower search coll query qv topK vectors
  = (Ask.inferRoutePlan lower query,
     retrieveOver topK
       (map (fun p => AskFlow.fetch search coll qv topK vectors (Some p))
          (prefixes (Ask.inferRoutePlan lower query)))
       (AskFlow.fetch search coll qv topK vectors None)).
Proof.
  unfold AskFlow.retrieveWithRouting, retrieveOver.
  rewrite Ask_routedFirst_over.
  now destruct (routedOver topK _ _).
Qed.

Lemma firstn_dedup_facts (n : nat) (all : list RetrievedChunk) :
  let out := firstn n (dedupFrom ∅ all) in
  NoDup (map (fun r => id (chunk r)) out) /\
  (length out <= n)%nat /\
  (forall r, In r out -> In r all).
Proof.
  cbv zeta. destruct (dedupFrom_fresh ∅ all) as (Hnd & _ & Hin).
  split; [|split].
  - rewrite <- firstn_map.
    eapply sublist_NoDup; [exact Hnd|apply sublist_take].
  - rewrite length_firstn. lia.
  - intros r Hr. apply list_elem_of_In, Hin, list_elem_of_In.
    rewrite <- (firstn_skipn n (dedupFrom ∅ all)). apply in_or_app. now left.
Qed.

Lemma retrieveOver_facts (topK : Z) (fetched : list (list RetrievedChunk))
    (backfill : list RetrievedChunk) :
  1 <= topK ->
  let out := retrieveOver topK fetched backfill in
  NoDup (map (fun r => id (chunk r)) out) /\
  len out <= topK /\
  (forall r, In r out -> In r backfill \/ exists items,
                                           In items fetched /\ In r items).
Proof.
  intros Hk. cbv zeta. rewrite retrieveOver_spec by exact Hk.
  destruct (firstn_dedup_facts (Z.to_nat topK) (concat fetched ++ backfill))
    as (Hnd & Hlen & Hin).
  split; [exact Hnd|]. split; [unfold len; lia|].
  intros r Hr. apply Hin in Hr. apply in_app_or in Hr as [Hr|Hr]; [|now left].
  right. apply in_concat in Hr as (items & Hitems & Hr). eauto.
Qed.

(** [retrieveWithRouting], in eval.ts and in ask.ts, returns the plan of
    the query and, for [topK] at least 1, the first [topK] items of the
    routed fetches (in the order of the plan's prefixes) followed by the
    backfill fetch, each chunk id kept at its first occurrence only. *)
Theorem retrieveWithRouting_is_deduplicated_prefix
    (lower : jsstring -> jsstring)
    (searchE : Eval.SearchParams -> list RetrievedChunk)
    (searchA : AskFlow.SearchParams -> list RetrievedChunk)
    (coll query : jsstring) (qv : list float) (topK : Z) (vectors : bool) :
  1 <= topK ->
  Eval.retrieveWithRouting lower searchE coll query qv topK
  = (Eval.inferRoutePlan lower query,
     firstn (Z.to_nat topK)
       (dedupFrom ∅
          (flat_map (fun p => Eval.fetch searchE coll qv topK (Some p))
             (prefixes (Eval.inferRoutePlan lower query))
           ++ Eval.fetch searchE coll qv topK None))) /\
  AskFlow.retrieveWithRouting lower searchA coll query qv topK vectors
  = (Ask.inferRoutePlan lower query,
     firstn (Z.to_nat topK)
       (dedupFrom ∅
          (flat_map
             (fun p => AskFlow.fetch searchA coll qv topK vectors (Some p))
             (prefixes (Ask.inferRoutePlan lower query))
           ++ AskFlow.fetch searchA coll qv topK vectors None))).
Proof.
  intros Hk. split.
  - rewrite Eval_retrieve_over, retrieveOver_spec by exact Hk.
    now rewrite flat_map_concat_map.
  - rewrite Ask_retrieve_over, retrieveOver_spec by exact Hk.
    now rewrite flat_map_concat_map.
Qed.

Lemma retrieveWithRouting_is_deduplicated_prefix_witness :
  1 <= 4 /\
  (Eval.retrieveWithRouting asciiLower Fixtures.tinySearch (lit "docvault")
     (lit "how does auth work") [1; 0]%float 4).2
  = Fixtures.routedPool ++ firstn 1 Fixtures.mediumPool.
Proof.
  assert (H : 1 <= 4) by lia.
  split; [exact H|].
  rewrite (proj1 (retrieveWithRouting_is_deduplicated_prefix asciiLower
                    Fixtures.tinySearch Fixtures.tinySearchAsk
                    (lit "docvault") (lit "how does auth work")
                    [1; 0]%float 4 false H)).
  vm_compute. reflexivity.
Defined.



Lemma slice0_all {A} (l : list A) (e : Z) : len l <= e -> slice0 l e = l.
Proof.
  intros H. pose proof (len_nonneg l).
  rewrite slice0_firstn by lia. apply firstn_all2. unfold len in H. lia.
Qed.

(** The candidate pool of eval.ts is the retrieved list itself: for
    [topK] at least 1 the retrieval returns at most [topK] items, so
    cutting it at max(topK, 4 * maxChunks) removes nothing, however large
    [maxChunks] is. *)
Theorem Eval_candidatePool_is_retrieved (lower : jsstring -> jsstring)
    (search : Eval.SearchParams -> list RetrievedChunk)
    (args : Eval.Args) (coll query : jsstring) (qv : list float) :
  1 <= Eval.topK args ->
  let retrieved :=
    (Eval.retrieveWithRouting lower search coll query qv (Eval.topK args)).2 in
  slice0 retrieved (Z.max (Eval.topK args) (Eval.argMaxChunks args * 4))
  = retrieved.
Proof.
  intros Hk. cbv zeta. apply slice0_all.
  rewrite Eval_retrieve_over. cbn [snd].
  destruct (retrieveOver_facts (Eval.topK args)
              (map (fun p => Eval.fetch search coll qv (Eval.topK args)
                               (Some p))
                 (prefixes (Eval.inferRoutePlan lower query)))
              (Eval.fetch search coll qv (Eval.topK args) None) Hk)
    as (_ & Hlen & _).
  lia.
Qed.

Lemma Eval_candidatePool_is_retrieved_witness :
  1 <= Eval.topK Fixtures.evalDefaults /\
  slice0 (Eval.retrieveWithRouting asciiLower Fixtures.tinySearch
            (lit "docvault") (lit "how does auth work") [1; 0]%float
            (Eval.topK Fixtures.evalDefaults)).2
    (Z.max (Eval.topK Fixtures.evalDefaults)
       (Eval.argMaxChunks Fixtures.evalDefaults * 4))
  = (Eval.retrieveWithRouting asciiLower Fixtures.tinySearch
       (lit "docvault") (lit "how does auth work") [1; 0]%float
       (Eval.topK Fixtures.evalDefaults)).2.
Proof.
  assert (H : 1 <= Eval.topK Fixtures.evalDefaults)
    by (vm_compute; discriminate).
  split; [exact H|].
  exact (Eval_candidatePool_is_retrieved asciiLower Fixtures.tinySearch
           Fixtures.evalDefaults (lit "docvault") (lit "how does auth work")
           [1; 0]%float H).
Defined.

(** ** Diversification *)

Lemma bestFold_index (lambda : float) (selected : list RetrievedChunk)
    (l : list (nat * RetrievedChunk)) (best : nat * float) (n : nat) :
  (best.1 < n)%nat -> Forall (fun ic => (ic.1 < n)%nat) l ->
  ((fold_left (AskFlow.bestStep lambda selected) l best).1 < n)%nat.
Proof.
  revert best. induction l as [|ic l IH]; intros best Hb Hl; [exact Hb|].
  inversion Hl; subst. simpl. apply IH; [|assumption].
  unfold AskFlow.bestStep. destruct (_ <? _)%float; assumption.
Qed.

Lemma bestIdx_lt (lambda : float) (selected remaining : list RetrievedChunk) :
  remaining <> [] ->
  (AskFlow.bestIdx lambda selected remaining < length remaining)%nat.
Proof.
  intros Hne. unfold AskFlow.bestIdx. apply bestFold_index.
  - simpl. destruct remaining; [congruence|simpl; lia].
  - apply Forall_forall. intros [i c] Hic. apply list_elem_of_In in Hic.
    apply in_combine_l in Hic. apply in_seq in Hic. simpl. lia.
Qed.

(** The [while] loop with enough fuel: it appends to [selected] items
    taken from [remaining], each position once, until [selected] holds
    [k] items or [remaining] is used up. *)
Lemma mmrLoop_spec (fuel : nat) (k : Z) (lambda : float)
    (selected remaining : list RetrievedChunk) :
  (length remaining <= fuel)%nat ->
  exists picked rest,
    AskFlow.mmrLoop fuel k lambda selected remaining = selected ++ picked /\
    picked ++ rest ≡ₚ remaining /\
    len (selected ++ picked)
    = Z.max (len selected) (Z.min k (len selected + len remaining)).
Proof.
  revert selected remaining.
  induction fuel as [|fuel IH]; intros selected remaining Hfuel.
  - destruct remaining; [|simpl in Hfuel; lia].
    exists [], []. simpl. rewrite app_nil_r. split; [reflexivity|].
    split; [reflexivity|]. unfold len. simpl. lia.
  - cbn [AskFlow.mmrLoop].
    destruct ((len selected <? k) && (0 <? len remaining)) eqn:Econd.
    + apply andb_true_iff in Econd as [Hk Hrem].
      apply Z.ltb_lt in Hk. apply Z.ltb_lt in Hrem.
      assert (Hne : remaining <> [])
        by (intros ->; unfold len in Hrem; simpl in Hrem; lia).
      pose proof (bestIdx_lt lambda selected remaining Hne) as Hi.
      destruct (lookup_lt_is_Some_2 remaining _ Hi) as [c Hc].
      rewrite Hc.
      pose proof (delete_Permutation remaining _ c Hc) as Hperm.
      assert (Hlen : length remaining
                     = S (length (delete (AskFlow.bestIdx lambda selected
                                            remaining) remaining))).
      { rewrite (Permutation_length Hperm). reflexivity. }
      destruct (IH (selected ++ [c])
                  (delete (AskFlow.bestIdx lambda selected remaining)
                     remaining) ltac:(lia))
        as (picked & rest & Hout & Hp & Hl).
      exists (c :: picked), rest. rewrite Hout, <- app_assoc. simpl.
      split; [reflexivity|]. split.
      * rewrite Hperm. now constructor.
      * rewrite <- app_assoc in Hl. simpl in Hl. rewrite Hl.
        rewrite len_snoc. unfold len in *. lia.
    + exists [], remaining. rewrite app_nil_r.
      split; [reflexivity|]. split; [reflexivity|].
      apply andb_false_iff in Econd as [Hk|Hrem].
      * apply Z.ltb_ge in Hk. pose proof (len_nonneg remaining). lia.
      * apply Z.ltb_ge in Hrem. pose proof (len_nonneg remaining). lia.
Qed.

(** More fuel than the length of [remaining] changes nothing: the loop
    has ended by itself. *)
Lemma mmrLoop_fuel (fuel : nat) (k : Z) (lambda : float)
    (selected remaining : list RetrievedChunk) :
  (length remaining <= fuel)%nat ->
  AskFlow.mmrLoop fuel k lambda selected remaining
  = AskFlow.mmrLoop (length remaining) k lambda selected remaining.
Proof.
  revert selected remaining.
  induction fuel as [|fuel IH]; intros selected remaining Hfuel.
  - destruct remaining; [reflexivity|simpl in Hfuel; lia].
  - destruct remaining as [|r rem].
    { cbn [AskFlow.mmrLoop length]. change (0 <? len []) with false.
      now rewrite andb_false_r. }
    cbn [AskFlow.mmrLoop length].
    destruct ((len selected <? k) && (0 <? len (r :: rem))); [|reflexivity].
    pose proof (bestIdx_lt lambda selected (r :: rem) ltac:(discriminate))
      as Hi.
    destruct (lookup_lt_is_Some_2 (r :: rem) _ Hi) as [c Hc]. rewrite Hc.
    pose proof (Permutation_length (delete_Permutation _ _ c Hc)) as Hlen.
    simpl in Hlen, Hfuel.
    rewrite IH by lia. injection Hlen as Hlen. now rewrite <- Hlen.
Qed.

Lemma mmrSelect_spec (candidates : list RetrievedChunk) (k : Z)
    (lambda : float) :
  exists rest,
    AskFlow.mmrSelect candidates k lambda ++ rest ≡ₚ candidates /\
    len (AskFlow.mmrSelect candidates k lambda)
    = Z.max 0 (Z.min k (len candidates)).
Proof.
  unfold AskFlow.mmrSelect.
  destruct (mmrLoop_spec (length candidates) k lambda [] candidates
              ltac:(lia)) as (picked & rest & Hout & Hp & Hl).
  rewrite Hout. simpl in *. exists rest. split; [exact Hp|].
  rewrite Hl. unfold len. simpl. lia.
Qed.

Lemma mmrSelect_all (candidates : list RetrievedChunk) (k : Z)
    (lambda : float) :
  len candidates <= k ->
  AskFlow.mmrSelect candidates k lambda ≡ₚ candidates.
Proof.
  intros Hk. destruct (mmrSelect_spec candidates k lambda)
    as (rest & Hp & Hl).
  assert (Hrest : rest = []).
  { apply Permutation_length in Hp. rewrite length_app in Hp.
    pose proof (len_nonneg candidates). unfold len in *.
    destruct rest; [reflexivity|simpl in Hp; lia]. }
  subst rest. now rewrite app_nil_r in Hp.
Qed.

(** [mmrSelect] returns min(k, number of candidates) items (none for a
    negative [k]); they are candidates, each position used at most once;
    and when [k] reaches the number of candidates the result is a
    reordering of all of them. *)
Theorem mmrSelect_picks_min_k_n (candidates : list RetrievedChunk) (k : Z)
    (lambda : float) :
  len (AskFlow.mmrSelect candidates k lambda)
  = Z.max 0 (Z.min k (len candidates)) /\
  (exists rest, AskFlow.mmrSelect candidates k lambda ++ rest ≡ₚ candidates) /\
  (len candidates <= k ->
   AskFlow.mmrSelect candidates k lambda ≡ₚ candidates).
Proof.
  destruct (mmrSelect_spec candidates k lambda) as (rest & Hp & Hl).
  split; [exact Hl|]. split; [eauto|]. apply mmrSelect_all.
Qed.

Lemma mmrSelect_picks_min_k_n_witness :
  len Fixtures.scoredPool <= 5 /\
  AskFlow.mmrSelect Fixtures.scoredPool 5 0.75 ≡ₚ Fixtures.scoredPool.
Proof.
  assert (H : len Fixtures.scoredPool <= 5) by (vm_compute; discriminate).
  split; [exact H|].
  exact (proj2 (proj2 (mmrSelect_picks_min_k_n Fixtures.scoredPool 5 0.75)) H).
Defined.

(** ** The candidate pool of ask.ts *)

Lemma filter_len_le {A} (f : A -> bool) (l : list A) :
  len (List.filter f l) <= len l.
Proof.
  unfold len. induction l as [|x l IH]; simpl; [lia|].
  destruct (f x); simpl; lia.
Qed.

Lemma candidatesForSelection_cases (args : AskFlow.Args)
    (raw : list RetrievedChunk) :
  len raw <= AskFlow.retrievalTopK args ->
  let pool :=
    List.filter (fun c => (AskFlow.minSim args <=? similarity c)%float) raw in
  let cands := AskFlow.candidatesForSelection args raw in
  (AskFlow.useMmr args = false -> cands = raw) /\
  (AskFlow.useMmr args = true -> pool = [] -> cands = raw) /\
  (AskFlow.useMmr args = true -> pool <> [] -> cands ≡ₚ pool).
Proof.
  intros Hraw. cbv zeta. unfold AskFlow.candidatesForSelection.
  assert (Hsize : AskFlow.retrievalTopK args <= AskFlow.candidatePoolSize args)
    by (unfold AskFlow.candidatePoolSize; lia).
  split; [|split].
  - intros ->. apply slice0_all. lia.
  - intros -> Hpool. rewrite Hpool.
    unfold AskFlow.mmrSelect. simpl. apply slice0_all. lia.
  - intros -> Hpool.
    set (pool := List.filter _ raw) in *.
    set (mmrK := Z.max (AskFlow.candidatePoolSize args) (AskFlow.k args)).
    pose proof (filter_len_le
                  (fun c => (AskFlow.minSim args <=? similarity c)%float) raw)
      as Hle. fold pool in Hle.
    assert (Hk : len pool <= mmrK) by (unfold mmrK; lia).
    pose proof (mmrSelect_all pool mmrK (AskFlow.mmrLambda args) Hk) as Hperm.
    assert (Hlen : len (AskFlow.mmrSelect pool mmrK (AskFlow.mmrLambda args))
                   = len pool).
    { unfold len. now rewrite (Permutation_length Hperm). }
    assert (Hpos : 0 < len pool).
    { unfold len. destruct pool; [congruence|simpl; lia]. }
    replace (0 <? len (AskFlow.mmrSelect pool mmrK (AskFlow.mmrLambda args)))
      with true by (symmetry; apply Z.ltb_lt; lia).
    rewrite slice0_all by lia. exact Hperm.
Qed.

(** In ask.ts the candidates that reach the selection are the retrieved
    items, all of them.  Without [--mmr] they are the retrieved list
    itself.  With [--mmr] they are a reordering of the retrieved items
    whose similarity is at least [minSim], none being dropped, whatever
    [k] is; and the retrieved list itself when no item reaches [minSim]. *)
Theorem Ask_candidates_are_all_retrieved (lower : jsstring -> jsstring)
    (search : AskFlow.SearchParams -> list RetrievedChunk)
    (args : AskFlow.Args) (coll query : jsstring) (qv : list float) :
  let raw :=
    (AskFlow.retrieveWithRouting lower search coll query qv
       (AskFlow.retrievalTopK args) (AskFlow.useMmr args)).2 in
  let pool :=
    List.filter (fun c => (AskFlow.minSim args <=? similarity c)%float) raw in
  let cands :=
    (AskFlow.retrieveCandidates lower search args coll query qv).2 in
  (AskFlow.useMmr args = false -> cands = raw) /\
  (AskFlow.useMmr args = true -> pool = [] -> cands = raw) /\
  (AskFlow.useMmr args = true -> pool <> [] -> cands ≡ₚ pool).
Proof.
  cbv zeta. unfold AskFlow.retrieveCandidates.
  destruct (AskFlow.retrieveWithRouting lower search coll query qv
              (AskFlow.retrievalTopK args) (AskFlow.useMmr args))
    as [plan raw] eqn:E. cbn [snd].
  apply candidatesForSelection_cases.
  assert (Hk : 1 <= AskFlow.retrievalTopK args)
    by (unfold AskFlow.retrievalTopK; lia).
  rewrite Ask_retrieve_over in E. injection E as _ <-.
  apply (retrieveOver_facts _ _ _ Hk).
Qed.

Lemma Ask_candidates_are_all_retrieved_witness :
  let cands args :=
    (AskFlow.retrieveCandidates asciiLower Fixtures.tinySearchAsk args
       (lit "docvault") (lit "how does auth work") [1; 0]%float).2 in
  let raw args :=
    (AskFlow.retrieveWithRouting asciiLower Fixtures.tinySearchAsk
       (lit "docvault") (lit "how does auth work") [1; 0]%float
       (AskFlow.retrievalTopK args) (AskFlow.useMmr args)).2 in
  let pool args :=
    List.filter (fun c => (AskFlow.minSim args <=? similarity c)%float)
      (raw args) in
  (AskFlow.useMmr Fixtures.askPlainArgs = false /\
   cands Fixtures.askPlainArgs = raw Fixtures.askPlainArgs) /\
  (AskFlow.useMmr Fixtures.askStrictMmrArgs = true /\
   pool Fixtures.askStrictMmrArgs = [] /\
   cands Fixtures.askStrictMmrArgs = raw Fixtures.askStrictMmrArgs) /\
  (AskFlow.useMmr Fixtures.askMmrArgs = true /\
   pool Fixtures.askMmrArgs <> [] /\
   cands Fixtures.askMmrArgs ≡ₚ pool Fixtures.askMmrArgs).
Proof.
  cbv zeta.
  pose proof (Ask_candidates_are_all_retrieved asciiLower
                Fixtures.tinySearchAsk Fixtures.askPlainArgs
                (lit "docvault") (lit "how does auth work") [1; 0]%float)
    as (HP & _ & _).
  pose proof (Ask_candidates_are_all_retrieved asciiLower
                Fixtures.tinySearchAsk Fixtures.askStrictMmrArgs
                (lit "docvault") (lit "how does auth work") [1; 0]%float)
    as (_ & HS & _).
  pose proof (Ask_candidates_are_all_retrieved asciiLower
                Fixtures.tinySearchAsk Fixtures.askMmrArgs
                (lit "docvault") (lit "how does auth work") [1; 0]%float)
    as (_ & _ & HM).
  cbv zeta in HP, HS, HM.
  split; [split; [reflexivity|exact (HP eq_refl)]|].
  split.
  - assert (E : List.filter
                  (fun c => (AskFlow.minSim Fixtures.askStrictMmrArgs
                             <=? similarity c)%float)
                  (AskFlow.retrieveWithRouting asciiLower
                     Fixtures.tinySearchAsk (lit "docvault")
                     (lit "how does auth work") [1; 0]%float
                     (AskFlow.retrievalTopK Fixtures.askStrictMmrArgs)
                     (AskFlow.useMmr Fixtures.askStrictMmrArgs)).2 = [])
      by (vm_compute; reflexivity).
    split; [reflexivity|]. split; [exact E|exact (HS eq_refl E)].
  - assert (E : List.filter
                  (fun c => (AskFlow.minSim Fixtures.askMmrArgs
                             <=? similarity c)%float)
                  (AskFlow.retrieveWithRouting asciiLower
                     Fixtures.tinySearchAsk (lit "docvault")
                     (lit "how does auth work") [1; 0]%float
                     (AskFlow.retrievalTopK Fixtures.askMmrArgs)
                     (AskFlow.useMmr Fixtures.askMmrArgs)).2 <> [])
      by (vm_compute; discriminate).
    split; [reflexivity|]. split; [exact E|exact (HM eq_refl E)].
Defined.

(** ** The counters of the evaluator *)

Lemma ks_NoDup (args : Eval.Args) : NoDup (Eval.ks args).
Proof.
  unfold Eval.ks. apply NoDup_ListNoDup, List.NoDup_filter, NoDup_ListNoDup.
  apply (bool_decide_unpack _). vm_compute. exact I.
Qed.

Lemma ks_positive (args : Eval.Args) (k : Z) : k ∈ Eval.ks args -> 1 <= k.
Proof.
  intros H. apply ks_spec in H as [H _].
  repeat (apply elem_of_cons in H as [->|H]; [lia|]).
  now apply elem_of_nil in H.
Qed.

Lemma hitAtK_le (sel must : list jsstring) (k k' : Z) :
  0 <= k -> k <= k' ->
  Eval.hitAtK sel must k = true -> Eval.hitAtK sel must k' = true.
Proof.
  intros H0 Hle. unfold Eval.hitAtK. rewrite !slice0_firstn by lia.
  intros H. apply existsb_exists in H as (needle & Hn & Hex).
  apply existsb_exists. exists needle. split; [assumption|].
  revert Hex. apply existsb_incl. intros s. apply firstn_In_le. lia.
Qed.

(** A count after [countHits]: one more where [k] is in the list and the
    case is a hit at [k]. *)
Lemma countHits_gen (sources must : list jsstring) (l : list Z)
    (h : gmap Z Z) (k : Z) :
  NoDup l ->
  hitCount
    (fold_left
       (fun h k => if Eval.hitAtK sources must k
                   then <[k := default 0 (h !! k) + 1]> h else h) l h) k
  = hitCount h k
    + (if bool_decide (k ∈ l) && Eval.hitAtK sources must k then 1 else 0).
Proof.
  revert h. induction l as [|a l IH]; intros h Hnd; simpl; [lia|].
  apply NoDup_cons in Hnd as [Ha Hnd]. rewrite IH by exact Hnd.
  destruct (decide (k = a)) as [->|Hne].
  - rewrite (bool_decide_eq_false_2 (a ∈ l)) by exact Ha.
    rewrite bool_decide_eq_true_2 by left. simpl.
    destruct (Eval.hitAtK sources must a); [|lia].
    unfold hitCount. rewrite lookup_insert_eq. simpl. lia.
  - assert (Hk : hitCount
                   (if Eval.hitAtK sources must a
                    then <[a := default 0 (h !! a) + 1]> h else h) k
                 = hitCount h k).
    { destruct (Eval.hitAtK sources must a); [|reflexivity].
      unfold hitCount. now rewrite lookup_insert_ne by congruence. }
    rewrite Hk. f_equal.
    destruct (decide (k ∈ l)) as [Hin|Hin].
    + rewrite !bool_decide_eq_true_2; [reflexivity|now right|exact Hin].
    + rewrite !bool_decide_eq_false_2; [reflexivity| |exact Hin].
      intros H. apply elem_of_cons in H as [H|H]; contradiction.
Qed.

Section EvalCounters.
Variable lower : jsstring -> jsstring.
Variable post : jsstring -> jsstring -> option HttpResponse.
Variable search : Eval.SearchParams -> list RetrievedChunk.
Variable args : Eval.Args.

(** One turn that does not throw: [total] grows by one, one line of case
    is printed, no case is reported without embedding, and the counters
    keep their order. *)
Lemma caseStep_counters (st st' : Eval.LoopState) (c : Eval.EvalCase) :
  Eval.caseStep lower post search args st c = inr st' ->
  Eval.total st' = Eval.total st + 1 /\
  length (caseLines (Eval.log st')) = S (length (caseLines (Eval.log st))) /\
  (forall label, In (Eval.MissingEmbedding label) (Eval.log st') ->
                 In (Eval.MissingEmbedding label) (Eval.log st)) /\
  (countersInv args st -> countersInv args st').
Proof.
  unfold Eval.caseStep.
  destruct (Embeddings.embed post [Eval.q c] None) as [e|[|qVec vs]] eqn:E;
    [discriminate|now apply embed_one_not_empty in E|].
  destruct (Eval.retrieveWithRouting _ _ _ _ _ _) as [plan retrieved].
  intros [= <-]. cbn [Eval.total Eval.log Eval.hits].
  split; [reflexivity|]. split; [|split].
  - unfold caseLines. rewrite List.filter_app, length_app. simpl.
    destruct (negb _ && _); simpl; lia.
  - intros label H. apply in_app_or in H as [H|H]; [exact H|].
    destruct H as [H|H]; [discriminate|].
    destruct (negb _ && _); simpl in H; [|contradiction].
    destruct H as [H|H]; [discriminate|contradiction].
  - intros [Hbound Hmono]. split.
    + intros k Hk. cbn [Eval.hits Eval.total]. unfold Eval.countHits.
      rewrite countHits_gen by apply ks_NoDup.
      specialize (Hbound k Hk). destruct (_ && _); lia.
    + intros k k' Hk Hk' Hle. cbn [Eval.hits Eval.total].
      unfold Eval.countHits. rewrite !countHits_gen by apply ks_NoDup.
      specialize (Hmono k k' Hk Hk' Hle).
      rewrite !bool_decide_eq_true_2 by assumption. simpl.
      destruct (Eval.hitAtK _ _ k) eqn:Hhit.
      * rewrite (hitAtK_le _ _ k k') by
          (try exact Hhit; try exact Hle; pose proof (ks_positive args k Hk);
           lia). lia.
      * destruct (Eval.hitAtK _ _ k'); lia.
Qed.

Lemma runCases_counters (cases : list Eval.EvalCase)
    (st st' : Eval.LoopState) :
  Eval.runCases lower post search args cases st = inr st' ->
  Eval.total st' = Eval.total st + len cases /\
  length (caseLines (Eval.log st'))
  = (length (caseLines (Eval.log st)) + length cases)%nat /\
  (forall label, In (Eval.MissingEmbedding label) (Eval.log st') ->
                 In (Eval.MissingEmbedding label) (Eval.log st)) /\
  (countersInv args st -> countersInv args st').
Proof.
  revert st. induction cases as [|c rest IH]; intros st; simpl.
  - intros [= <-]. unfold len. simpl.
    split; [lia|]. split; [lia|]. auto.
  - destruct (Eval.caseStep lower post search args st c) as [stop|st1] eqn:E;
      [discriminate|].
    intros Hrun. destruct (caseStep_counters _ _ _ E) as (T1 & L1 & M1 & C1).
    destruct (IH _ Hrun) as (T2 & L2 & M2 & C2).
    split; [unfold len in *; simpl; lia|]. split; [lia|]. auto.
Qed.

Lemma initialState_counters : countersInv args (Eval.initialState args).
Proof.
  assert (H : forall k, k ∈ Eval.ks args ->
                hitCount (Eval.initialHits args) k = 0).
  { intros k Hk. unfold hitCount, Eval.initialHits.
    assert (Hin : (k, 0) ∈ map (fun k => (k, 0)) (Eval.ks args)).
    { apply list_elem_of_fmap. eauto. }
    apply elem_of_list_to_map_1 in Hin; [now rewrite Hin|].
    assert (E : forall l : list Z, (map (fun k => (k, 0)) l).*1 = l).
    { induction l as [|x l IH]; simpl; [reflexivity|now f_equal]. }
    rewrite E. apply ks_NoDup. }
  split.
  - intros k Hk. simpl. rewrite (H k Hk). lia.
  - intros k k' Hk Hk' _. simpl. rewrite (H k Hk), (H k' Hk'). lia.
Qed.

Lemma main_finished_state (cases : list Eval.EvalCase)
    (final : Eval.LoopState) :
  Eval.main lower post search args cases = Eval.Finished final ->
  exists st,
    Eval.runCases lower post search args cases (Eval.initialState args)
      = inr st /\
    final = {| Eval.total := Eval.total st; Eval.hits := Eval.hits st;
               Eval.log := Eval.log st ++ Eval.report args st |}.
Proof.
  unfold Eval.main. destruct cases as [|c rest]; [discriminate|].
  destruct (Eval.runCases lower post search args (c :: rest) _)
    as [[e st]|st] eqn:E; [discriminate|].
  intros [= <-]. eauto.
Qed.

End EvalCounters.

(** When the run of eval.ts reaches its report, [total] is the number of
    cases, every case has its line in the log, and no case was reported
    as lacking an embedding. *)
Theorem main_counts_every_case (lower : jsstring -> jsstring)
    (post : jsstring -> jsstring -> option HttpResponse)
    (search : Eval.SearchParams -> list RetrievedChunk)
    (args : Eval.Args) (cases : list Eval.EvalCase)
    (final : Eval.LoopState) :
  Eval.main lower post search args cases = Eval.Finished final ->
  Eval.total final = len cases /\
  length (caseLines (Eval.log final)) = length cases /\
  (forall label, ~ In (Eval.MissingEmbedding label) (Eval.log final)).
Proof.
  intros H. destruct (main_finished_state _ _ _ _ _ _ H) as (st & Hrun & ->).
  destruct (runCases_counters _ _ _ _ _ _ _ Hrun) as (T & L & M & _).
  cbn [Eval.total Eval.log]. simpl in T, L, M.
  split; [lia|]. split.
  - unfold caseLines in *. rewrite List.filter_app, length_app, L.
    unfold Eval.report. simpl. rewrite List.filter_app. simpl.
    rewrite length_app. simpl.
    assert (E : forall l, List.filter
                  (fun e => match e with
                            | Eval.CaseLine _ _ _ _ => true
                            | _ => false
                            end)
                  (map (fun k => Eval.ResultLine k
                                   (default 0 (Eval.hits st !! k))
                                   (Eval.total st)) l) = []).
    { induction l as [|k l IH]; simpl; auto. }
    rewrite E. simpl. lia.
  - intros label Hin. apply in_app_or in Hin as [Hin|Hin].
    + exact (M label Hin).
    + unfold Eval.report in Hin. destruct Hin as [Hin|Hin]; [discriminate|].
      apply in_app_or in Hin as [Hin|Hin].
      * apply in_map_iff in Hin as (k & Hk & _). discriminate.
      * destruct Hin as [Hin|[]]. discriminate.
Qed.

Lemma main_counts_every_case_witness :
  Eval.main asciiLower Fixtures.healthyPost Fixtures.emptySearch
    Fixtures.twoChunks [Fixtures.case2]
  = Eval.Finished Fixtures.twoChunksFinal /\
  Eval.total Fixtures.twoChunksFinal = len [Fixtures.case2].
Proof.
  assert (H : Eval.main asciiLower Fixtures.healthyPost Fixtures.emptySearch
                Fixtures.twoChunks [Fixtures.case2]
              = Eval.Finished Fixtures.twoChunksFinal)
    by (vm_compute; reflexivity).
  split; [exact H|].
  exact (proj1 (main_counts_every_case _ _ _ _ _ _ H)).
Defined.

(** The reported hit counts are consistent: every result line shows the
    number of cases as its total and a count between 0 and that total,
    and the counts do not decrease from one [k] of [ks] to a larger
    one. *)
Theorem main_hit_counts_ordered (lower : jsstring -> jsstring)
    (post : jsstring -> jsstring -> option HttpResponse)
    (search : Eval.SearchParams -> list RetrievedChunk)
    (args : Eval.Args) (cases : list Eval.EvalCase)
    (final : Eval.LoopState) :
  Eval.main lower post search args cases = Eval.Finished final ->
  (forall k h t, In (Eval.ResultLine k h t) (Eval.log final) ->
                 t = len cases /\ h = hitCount (Eval.hits final) k /\
                 0 <= h <= t) /\
  (forall k k', k ∈ Eval.ks args -> k' ∈ Eval.ks args -> k <= k' ->
                hitCount (Eval.hits final) k
                <= hitCount (Eval.hits final) k').
Proof.
  intros H. destruct (main_finished_state _ _ _ _ _ _ H) as (st & Hrun & ->).
  destruct (runCases_counters _ _ _ _ _ _ _ Hrun) as (T & _ & _ & C).
  destruct (C (initialState_counters args)) as [Hbound Hmono].
  destruct (runCases_inv _ _ _ _ _ _ _ (initialState_inv args) Hrun)
    as [_ Hlog].
  cbn [Eval.total Eval.log Eval.hits]. simpl in T. split; [|exact Hmono].
  intros k h t Hin. apply in_app_or in Hin as [Hin|Hin].
  - rewrite forallb_forall in Hlog. specialize (Hlog _ Hin). discriminate.
  - unfold Eval.report in Hin. destruct Hin as [Hin|Hin]; [discriminate|].
    apply in_app_or in Hin as [Hin|Hin].
    + apply in_map_iff in Hin as (k' & [= -> <- <-] & Hk).
      apply list_elem_of_In in Hk. specialize (Hbound k Hk).
      unfold hitCount in *. split; [lia|]. split; [reflexivity|lia].
    + destruct Hin as [Hin|[]]. discriminate.
Qed.

Lemma main_hit_counts_ordered_witness :
  Eval.main asciiLower Fixtures.healthyPost Fixtures.emptySearch
    Fixtures.twoChunks [Fixtures.case2]
  = Eval.Finished Fixtures.twoChunksFinal /\
  (forall k h t,
     In (Eval.ResultLine k h t) (Eval.log Fixtures.twoChunksFinal) ->
     t = len [Fixtures.case2] /\
     h = hitCount (Eval.hits Fixtures.twoChunksFinal) k /\ 0 <= h <= t).
Proof.
  assert (H : Eval.main asciiLower Fixtures.healthyPost Fixtures.emptySearch
                Fixtures.twoChunks [Fixtures.case2]
              = Eval.Finished Fixtures.twoChunksFinal)
    by (vm_compute; reflexivity).
  split; [exact H|].
  exact (proj1 (main_hit_counts_ordered _ _ _ _ _ _ H)).
Defined.

(** ** More on the selection loops *)

Section GenericSelectionMore.
Variable lower : jsstring -> jsstring.
Variable waive : bool.
Variables (minChars : Z) (dropStatus : bool).
Variable pre : list jsstring.
Variables (maxPerFile maxChunks : Z).

Abbreviation loop' :=
  (genLoop lower waive minChars dropStatus pre maxPerFile maxChunks).

Ltac turn' r st :=
  cbn [genLoop];
  destruct (isLowSignalChunk lower r minChars dropStatus pre) eqn:Elow;
  [|destruct (bool_decide (dedupKey r ∈ seen st)) eqn:Eseen;
    [|destruct (negb (exempt waive pre (sourcePath (metadata (chunk r))))
               && (maxPerFile <=?
                     default 0 (perFileCount st
                                  !! sourcePath (metadata (chunk r)))))
        eqn:Ecap;
      [|cbn [selected];
        destruct (maxChunks <=? len (selected st ++ [r])) eqn:Efull]]].

(** The loop only appends to [selected], in the order of the candidates,
    items that the low-signal filter lets through. *)
Lemma genLoop_appends (cands : list RetrievedChunk) (st : SelState) :
  exists new,
    selected (loop' cands st) = selected st ++ new /\
    new `sublist_of` cands /\
    Forall (fun r => isLowSignalChunk lower r minChars dropStatus pre = false)
      new.
Proof.
  revert st. induction cands as [|r rest IH]; intros st.
  - exists []. simpl. rewrite app_nil_r. repeat split; constructor.
  - turn' r st.
    + destruct (IH st) as (new & E & S & F). exists new.
      split; [exact E|]. split; [now apply sublist_cons|exact F].
    + destruct (IH st) as (new & E & S & F). exists new.
      split; [exact E|]. split; [now apply sublist_cons|exact F].
    + destruct (IH {| perFileCount := perFileCount st;
                      seen := {[dedupKey r]} ∪ seen st;
                      selected := selected st |}) as (new & E & S & F).
      exists new. split; [exact E|].
      split; [now apply sublist_cons|exact F].
    + exists [r]. cbn [selected]. split; [reflexivity|]. split.
      * apply sublist_skip, sublist_nil_l.
      * constructor; [exact Elow|constructor].
    + match goal with
      | |- context [loop' rest ?s] => destruct (IH s) as (new & E & S & F)
      end.
      exists (r :: new). cbn [selected] in E. rewrite E, <- app_assoc.
      split; [reflexivity|]. split; [now apply sublist_skip|].
      constructor; [exact Elow|exact F].
Qed.

(** The first candidate that the filter lets through is selected, and
    selected first, when its file is not capped at zero. *)
Lemma genLoop_first (lows rest : list RetrievedChunk) (r : RetrievedChunk) :
  forallb (fun x => isLowSignalChunk lower x minChars dropStatus pre) lows
    = true ->
  isLowSignalChunk lower r minChars dropStatus pre = false ->
  exempt waive pre (sourcePath (metadata (chunk r))) = true \/
    1 <= maxPerFile ->
  exists more,
    selected (loop' (lows ++ r :: rest) emptySel) = r :: more.
Proof.
  intros Hlows Hr Hcap. induction lows as [|x lows IH].
  - cbn [app genLoop]. rewrite Hr.
    change (bool_decide (dedupKey r ∈ seen emptySel)) with false.
    cbn [emptySel perFileCount seen selected].
    rewrite lookup_empty. cbn [default].
    assert (E : negb (exempt waive pre (sourcePath (metadata (chunk r))))
                && (maxPerFile <=? 0) = false).
    { destruct Hcap as [->|H]; [reflexivity|].
      apply andb_false_iff. right. apply Z.leb_gt. lia. }
    rewrite E. cbn [app].
    destruct (maxChunks <=? len [r]).
    + exists []. reflexivity.
    + match goal with
      | |- context [loop' rest ?s] =>
          destruct (genLoop_appends rest s) as (new & En & _ & _)
      end.
      cbn [selected] in En. rewrite En. eauto.
  - simpl in Hlows. apply andb_true_iff in Hlows as [Hx Hlows].
    cbn [app genLoop]. rewrite Hx. now apply IH.
Qed.

End GenericSelectionMore.

(** When no candidate comes from a priority source, waiving the cap for
    priority sources changes nothing. *)
Lemma genLoop_waive_irrelevant (lower : jsstring -> jsstring)
    (minChars : Z) (dropStatus : bool) (pre : list jsstring)
    (maxPerFile maxChunks : Z) (cands : list RetrievedChunk)
    (st : SelState) :
  nonePriority pre cands = true ->
  genLoop lower true minChars dropStatus pre maxPerFile maxChunks cands st
  = genLoop lower false minChars dropStatus pre maxPerFile maxChunks cands st.
Proof.
  revert st. induction cands as [|r rest IH]; intros st H; [reflexivity|].
  simpl in H. apply andb_true_iff in H as [Hr Hrest].
  apply negb_true_iff in Hr.
  cbn [genLoop]. unfold exempt. rewrite Hr. cbn [andb negb].
  rewrite !IH by exact Hrest. reflexivity.
Qed.

(** The loop of the legacy ask.ts is the generic loop without priority
    prefixes, with the defaults filled in. *)
Lemma Legacy_selectLoop_gen (lower : jsstring -> jsstring)
    (opts : option Legacy.Opts) (cands : list RetrievedChunk)
    (st : SelState) :
  Legacy.selectLoop lower opts cands st
  = genLoop lower false (default 120 (opts ≫= Legacy.minChars))
      (default true (opts ≫= Legacy.dropStatus)) []
      (default 2 (opts ≫= Legacy.maxPerFile))
      (default 6 (opts ≫= Legacy.maxChunks)) cands st.
Proof.
  revert st. induction cands as [|r rest IH]; intros st; [reflexivity|].
  cbn [Legacy.selectLoop genLoop].
  unfold Legacy.isLowSignalChunk, isLowSignalChunk, Legacy.filterOptsOf,
    exempt.
  cbn [isPrioritySource existsb andb negb mbind option_bind
       Legacy.filterMinChars Legacy.filterDropStatus].
  rewrite !IH. reflexivity.
Qed.

Lemma slice0_sublist {A} (l : list A) (e : Z) : slice0 l e `sublist_of` l.
Proof. unfold slice0. apply sublist_take. Qed.

Lemma Eval_select_appends (lower : jsstring -> jsstring)
    (pool : list RetrievedChunk) (opts : Eval.Opts) :
  Eval.selectForContext lower pool opts `sublist_of` pool /\
  Forall (fun r => isLowSignalChunk lower r (Eval.minChars opts)
                     (Eval.dropStatus opts) (Eval.priorityPrefixes opts)
                   = false)
    (Eval.selectForContext lower pool opts).
Proof.
  unfold Eval.selectForContext. rewrite Eval_selectLoop_gen.
  destruct (genLoop_appends lower false (Eval.minChars opts)
              (Eval.dropStatus opts) (Eval.priorityPrefixes opts)
              (Eval.maxPerFile opts) (Eval.maxChunks opts) pool emptySel)
    as (new & -> & S & F). simpl. auto.
Qed.

Lemma Ask_select_appends (lower : jsstring -> jsstring)
    (pool : list RetrievedChunk) (opts : Ask.Opts) :
  Ask.chosen (Ask.assembleContextFromCandidates lower pool opts)
    `sublist_of` pool /\
  Forall (fun r => isLowSignalChunk lower r (Ask.minChars opts)
                     (Ask.dropStatus opts) (Ask.priorityPrefixes opts)
                   = false)
    (Ask.chosen (Ask.assembleContextFromCandidates lower pool opts)).
Proof.
  unfold Ask.assembleContextFromCandidates. cbn [Ask.chosen].
  rewrite Ask_selectLoop_gen.
  destruct (genLoop_appends lower true (Ask.minChars opts)
              (Ask.dropStatus opts) (Ask.priorityPrefixes opts)
              (Ask.maxPerFile opts) (Ask.maxChunks opts) pool emptySel)
    as (new & -> & S & F). simpl. auto.
Qed.

(** What is selected is a subsequence of the candidates: the items keep
    the order in which they were ranked, in a pass and after the fallback
    ladder, in eval.ts and in ask.ts; and a pass never selects an item
    that its low-signal filter rejects. *)
Theorem selection_keeps_candidate_order (lower : jsstring -> jsstring)
    (pool : list RetrievedChunk) (args : Eval.Args) (pre : list jsstring)
    (eopts : Eval.Opts) (opts : Ask.Opts) :
  Eval.selectForContext lower pool eopts `sublist_of` pool /\
  Eval.selectedFinal lower args pre pool `sublist_of` pool /\
  Ask.chosen (Ask.assembleContextFromCandidates lower pool opts)
    `sublist_of` pool /\
  Ask.chosen (Ask.assembled lower pool opts) `sublist_of` pool /\
  Forall (fun r => isLowSignalChunk lower r (Eval.minChars eopts)
                     (Eval.dropStatus eopts) (Eval.priorityPrefixes eopts)
                   = false)
    (Eval.selectForContext lower pool eopts) /\
  Forall (fun r => isLowSignalChunk lower r (Ask.minChars opts)
                     (Ask.dropStatus opts) (Ask.priorityPrefixes opts)
                   = false)
    (Ask.chosen (Ask.assembleContextFromCandidates lower pool opts)).
Proof.
  split; [apply Eval_select_appends|]. split.
  { destruct (Eval_selectedFinal_cases lower args pre pool)
      as [[_ ->]|[(_ & _ & ->)|(_ & _ & ->)]];
      [apply Eval_select_appends|apply Eval_select_appends
      |apply slice0_sublist]. }
  split; [apply Ask_select_appends|]. split.
  { destruct (Ask_assembled_cases lower pool opts)
      as [[_ ->]|[(_ & _ & ->)|(_ & _ & ->)]];
      [apply Ask_select_appends|apply Ask_select_appends
      |apply slice0_sublist]. }
  split; [apply Eval_select_appends|apply Ask_select_appends].
Qed.

Lemma select_agree (lower : jsstring -> jsstring)
    (pool : list RetrievedChunk) (o : Ask.Opts) :
  nonePriority (Ask.priorityPrefixes o) pool = true ->
  Eval.selectForContext lower pool (evalOptsOf o)
  = Ask.chosen (Ask.assembleContextFromCandidates lower pool o).
Proof.
  intros H. unfold Eval.selectForContext, Ask.assembleContextFromCandidates.
  cbn [Ask.chosen]. rewrite Eval_selectLoop_gen, Ask_selectLoop_gen.
  cbn [evalOptsOf Eval.minChars Eval.dropStatus Eval.priorityPrefixes
       Eval.maxPerFile Eval.maxChunks].
  now rewrite genLoop_waive_irrelevant.
Qed.

(** The selectors of eval.ts and of ask.ts differ only on priority
    sources: on a pool without an item from a priority source they select
    the same items under the same options, in a pass and after the
    fallback ladder. *)
Theorem selectors_agree_without_priority_source
    (lower : jsstring -> jsstring) (pool : list RetrievedChunk)
    (o : Ask.Opts) (topK : Z) (debugMisses : bool) :
  nonePriority (Ask.priorityPrefixes o) pool = true ->
  Eval.selectForContext lower pool (evalOptsOf o)
  = Ask.chosen (Ask.assembleContextFromCandidates lower pool o) /\
  Eval.selectedFinal lower (evalArgsOf o topK debugMisses)
    (Ask.priorityPrefixes o) pool
  = Ask.chosen (Ask.assembled lower pool o).
Proof.
  intros H. split; [now apply select_agree|].
  unfold Eval.selectedFinal, Ask.assembled.
  change (Eval.primary (evalArgsOf o topK debugMisses) (Ask.priorityPrefixes o))
    with (evalOptsOf o).
  change (Eval.relaxed (evalArgsOf o topK debugMisses) (Ask.priorityPrefixes o))
    with (evalOptsOf (Ask.relaxed o)).
  rewrite (select_agree lower pool o H).
  rewrite (select_agree lower pool (Ask.relaxed o) H).
  cbn [evalArgsOf Eval.argMaxChunks].
  destruct (len (Ask.chosen (Ask.assembleContextFromCandidates lower pool o))
            =? 0); [|reflexivity].
  destruct (len (Ask.chosen (Ask.assembleContextFromCandidates lower pool
                               (Ask.relaxed o))) =? 0); reflexivity.
Qed.

Lemma selectors_agree_without_priority_source_witness :
  nonePriority (Ask.priorityPrefixes (Fixtures.askDefaults [lit "README.md"]))
    Fixtures.mediumPool = true /\
  Eval.selectForContext asciiLower Fixtures.mediumPool
    (evalOptsOf (Fixtures.askDefaults [lit "README.md"]))
  = Ask.chosen (Ask.assembleContextFromCandidates asciiLower
                  Fixtures.mediumPool
                  (Fixtures.askDefaults [lit "README.md"])).
Proof.
  assert (H : nonePriority
                (Ask.priorityPrefixes (Fixtures.askDefaults [lit "README.md"]))
                Fixtures.mediumPool = true) by (vm_compute; reflexivity).
  split; [exact H|].
  exact (proj1 (selectors_agree_without_priority_source asciiLower
                  Fixtures.mediumPool (Fixtures.askDefaults [lit "README.md"])
                  16 false H)).
Defined.

(** The legacy [assembleContext] selects what
    [assembleContextFromCandidates] selects without priority prefixes,
    the absent options taking the defaults 6, 2, 120 and true. *)
Theorem Legacy_assembleContext_is_unrouted_selection
    (lower : jsstring -> jsstring) (results : list RetrievedChunk)
    (opts : option Legacy.Opts) :
  Legacy.assembleContext lower results opts
  = Ask.chosen (Ask.assembleContextFromCandidates lower results
                  (askOptsOfLegacy opts)).
Proof.
  unfold Legacy.assembleContext, Ask.assembleContextFromCandidates.
  cbn [Ask.chosen]. rewrite Legacy_selectLoop_gen, Ask_selectLoop_gen.
  cbn [askOptsOfLegacy Ask.minChars Ask.dropStatus Ask.priorityPrefixes
       Ask.maxPerFile Ask.maxChunks].
  rewrite genLoop_waive_irrelevant; [reflexivity|].
  unfold nonePriority. apply forallb_forall. reflexivity.
Qed.

(** The best-ranked candidate that passes the low-signal filter opens the
    selection: in eval.ts when [maxPerFile] is at least 1, in ask.ts when
    [maxPerFile] is at least 1 or the candidate comes from a priority
    source. *)
Theorem selection_starts_with_best_accepted (lower : jsstring -> jsstring)
    (lows rest : list RetrievedChunk) (r : RetrievedChunk)
    (eopts : Eval.Opts) (opts : Ask.Opts) :
  (forallb (fun x => isLowSignalChunk lower x (Eval.minChars eopts)
                       (Eval.dropStatus eopts) (Eval.priorityPrefixes eopts))
     lows = true ->
   isLowSignalChunk lower r (Eval.minChars eopts) (Eval.dropStatus eopts)
     (Eval.priorityPrefixes eopts) = false ->
   1 <= Eval.maxPerFile eopts ->
   head (Eval.selectForContext lower (lows ++ r :: rest) eopts) = Some r) /\
  (forallb (fun x => isLowSignalChunk lower x (Ask.minChars opts)
                       (Ask.dropStatus opts) (Ask.priorityPrefixes opts))
     lows = true ->
   isLowSignalChunk lower r (Ask.minChars opts) (Ask.dropStatus opts)
     (Ask.priorityPrefixes opts) = false ->
   isPrioritySource (sourcePath (metadata (chunk r)))
     (Ask.priorityPrefixes opts) = true \/ 1 <= Ask.maxPerFile opts ->
   head (Ask.chosen (Ask.assembleContextFromCandidates lower
                       (lows ++ r :: rest) opts)) = Some r).
Proof.
  split.
  - intros Hlows Hr Hcap. unfold Eval.selectForContext.
    rewrite Eval_selectLoop_gen.
    destruct (genLoop_first lower false _ _ _ _ (Eval.maxChunks eopts)
                lows rest r Hlows Hr (or_intror Hcap)) as [more ->].
    reflexivity.
  - intros Hlows Hr Hcap. unfold Ask.assembleContextFromCandidates.
    cbn [Ask.chosen]. rewrite Ask_selectLoop_gen.
    destruct (genLoop_first lower true _ _ _ _ (Ask.maxChunks opts)
                lows rest r Hlows Hr Hcap) as [more ->].
    reflexivity.
Qed.

Lemma selection_starts_with_best_accepted_witness :
  let lows := Fixtures.twinPool in
  let r := Fixtures.mkItem "a.md" (Some "A") (repeat 120%N 200) in
  let rest := Fixtures.mediumPool in
  let eopts := Eval.primary Fixtures.evalDefaults [] in
  let opts := Fixtures.askDefaults [] in
  head (Eval.selectForContext asciiLower (lows ++ r :: rest) eopts) = Some r /\
  head (Ask.chosen (Ask.assembleContextFromCandidates asciiLower
                      (lows ++ r :: rest) opts)) = Some r.
Proof.
  cbv zeta.
  pose proof (selection_starts_with_best_accepted asciiLower
                Fixtures.twinPool Fixtures.mediumPool
                (Fixtures.mkItem "a.md" (Some "A") (repeat 120%N 200))
                (Eval.primary Fixtures.evalDefaults [])
                (Fixtures.askDefaults [])) as [HE HA].
  split.
  - apply HE; [vm_compute; reflexivity|vm_compute; reflexivity|].
    vm_compute. discriminate.
  - apply HA; [vm_compute; reflexivity|vm_compute; reflexivity|].
    right. vm_compute. discriminate.
Defined.

(** With [maxChunks] at least 1, the fallback ladder returns an empty
    selection exactly when there is no candidate at all. *)
Theorem ladder_empty_only_without_candidates (lower : jsstring -> jsstring)
    (pool : list RetrievedChunk) (args : Eval.Args) (pre : list jsstring)
    (opts : Ask.Opts) :
  (1 <= Eval.argMaxChunks args ->
   (Eval.selectedFinal lower args pre pool = [] <-> pool = [])) /\
  (1 <= Ask.maxChunks opts ->
   (Ask.chosen (Ask.assembled lower pool opts) = [] <-> pool = [])).
Proof.
  split.
  - intros Hmax. split.
    + intros Hempty.
      destruct (Eval_selectedFinal_cases lower args pre pool)
        as [[H E]|[(_ & H & E)|(_ & _ & E)]].
      * rewrite E in Hempty. contradiction.
      * rewrite E in Hempty. contradiction.
      * rewrite E in Hempty. destruct pool; [reflexivity|].
        exfalso. revert Hempty. now apply slice0_nonempty.
    + intros ->. unfold Eval.selectedFinal, Eval.selectForContext. simpl.
      unfold slice0. apply firstn_nil.
  - intros Hmax. split.
    + intros Hempty.
      destruct (Ask_assembled_cases lower pool opts)
        as [[H E]|[(_ & H & E)|(_ & _ & E)]].
      * rewrite E in Hempty. contradiction.
      * rewrite E in Hempty. contradiction.
      * rewrite E in Hempty. destruct pool; [reflexivity|].
        exfalso. revert Hempty. now apply slice0_nonempty.
    + intros ->. unfold Ask.assembled, Ask.assembleContextFromCandidates.
      simpl. unfold slice0. apply firstn_nil.
Qed.

Lemma ladder_empty_only_without_candidates_witness :
  1 <= Eval.argMaxChunks Fixtures.evalDefaults /\
  (Eval.selectedFinal asciiLower Fixtures.evalDefaults [] Fixtures.twinPool
   = [] <-> Fixtures.twinPool = []) /\
  1 <= Ask.maxChunks (Fixtures.askDefaults []) /\
  (Ask.chosen (Ask.assembled asciiLower Fixtures.twinPool
                 (Fixtures.askDefaults [])) = [] <->
   Fixtures.twinPool = []).
Proof.
  assert (H1 : 1 <= Eval.argMaxChunks Fixtures.evalDefaults)
    by (vm_compute; discriminate).
  assert (H2 : 1 <= Ask.maxChunks (Fixtures.askDefaults []))
    by (vm_compute; discriminate).
  pose proof (ladder_empty_only_without_candidates asciiLower
                Fixtures.twinPool Fixtures.evalDefaults []
                (Fixtures.askDefaults [])) as [HE HA].
  split; [exact H1|]. split; [exact (HE H1)|].
  split; [exact H2|exact (HA H2)].
Defined.

(** ** Rendering *)

Lemma trimEnd_len_le (s : jsstring) : len (trimEnd s) <= len s.
Proof. apply prefix_len_le, trimEnd_prefix. Qed.

(** A truncated text has at most [maxChars] + 2 code units; a text that
    fits keeps its length.  So the rendered text is never longer than
    max(length, maxChars + 2): one unit over, it comes back one unit
    longer than it was. *)
Theorem truncateText_length (text : jsstring) (maxChars : Z) :
  0 <= maxChars ->
  (len text <= maxChars -> len (truncateText text maxChars) = len text) /\
  (maxChars < len text -> len (truncateText text maxChars) <= maxChars + 2) /\
  len (truncateText text maxChars) <= Z.max (len text) (maxChars + 2).
Proof.
  intros Hmax.
  assert (H1 : len text <= maxChars ->
               len (truncateText text maxChars) = len text).
  { intros Hfit. unfold truncateText. apply Z.leb_le in Hfit.
    now rewrite Hfit. }
  assert (H2 : maxChars < len text ->
               len (truncateText text maxChars) <= maxChars + 2).
  { intros Hlong. unfold truncateText.
    assert (E : (len text <=? maxChars) = false) by (apply Z.leb_gt; lia).
    rewrite E. unfold len at 1. rewrite length_app. simpl.
    pose proof (trimEnd_len_le (slice0 text maxChars)) as Ht.
    pose proof (slice0_len_le text maxChars Hmax) as Hs.
    unfold len in *. lia. }
  split; [exact H1|]. split; [exact H2|].
  destruct (Z.le_gt_cases (len text) maxChars) as [Hfit|Hlong].
  - rewrite (H1 Hfit). lia.
  - specialize (H2 ltac:(lia)). lia.
Qed.

Lemma truncateText_length_witness :
  0 <= 2 /\ 2 < len (lit "abc") /\
  len (truncateText (lit "abc") 2) <= 2 + 2 /\
  len (truncateText (lit "abc") 2) = 4.
Proof.
  assert (H0 : 0 <= 2) by lia.
  assert (H1 : 2 < len (lit "abc")) by (vm_compute; reflexivity).
  split; [exact H0|]. split; [exact H1|].
  split; [exact (proj1 (proj2 (truncateText_length (lit "abc") 2 H0)) H1)|].
  vm_compute. reflexivity.
Defined.

Lemma imap_lookup_block (maxChars : Z) (sel : list RetrievedChunk)
    (i : nat) (r : RetrievedChunk) :
  sel !! i = Some r ->
  Ask.render maxChars sel !! i
  = Some {| Ask.citation := Z.of_nat i + 1;
            Ask.source := formatSource r;
            Ask.shownSimilarity := similarity r;
            Ask.body := truncateText (text (chunk r)) maxChars |}.
Proof.
  intros H. unfold Ask.render. rewrite list_lookup_imap, H. reflexivity.
Qed.

(** The context has one block per selected item, in order; the block of
    the item at position [i] carries the citation number [i + 1], the
    source and the similarity of that item, and its text truncated. *)
Theorem context_blocks_follow_selection (lower : jsstring -> jsstring)
    (pool : list RetrievedChunk) (opts : Ask.Opts) :
  let a := Ask.assembled lower pool opts in
  length (Ask.context a) = length (Ask.chosen a) /\
  (forall i r, Ask.chosen a !! i = Some r ->
     Ask.context a !! i
     = Some {| Ask.citation := Z.of_nat i + 1;
               Ask.source := formatSource r;
               Ask.shownSimilarity := similarity r;
               Ask.body := truncateText (text (chunk r))
                             (Ask.maxCharsPerChunk opts) |}).
Proof.
  cbv zeta.
  assert (H : Ask.context (Ask.assembled lower pool opts)
              = Ask.render (Ask.maxCharsPerChunk opts)
                  (Ask.chosen (Ask.assembled lower pool opts))).
  { unfold Ask.assembled, Ask.assembleContextFromCandidates.
    destruct (len _ =? 0); [|reflexivity].
    destruct (len _ =? 0); reflexivity. }
  rewrite H. split.
  - unfold Ask.render. apply length_imap.
  - intros i r Hr. now apply imap_lookup_block.
Qed.

Lemma context_blocks_follow_selection_witness :
  Ask.chosen (Ask.assembled asciiLower Fixtures.routedPool
                (Fixtures.askDefaults [lit "README.md"])) !! 1%nat
  = Some (Fixtures.mkItem "README.md" (Some "B") (lit "y")) /\
  Ask.citation
    <$> (Ask.context (Ask.assembled asciiLower Fixtures.routedPool
                        (Fixtures.askDefaults [lit "README.md"])) !! 1%nat)
  = Some 2.
Proof.
  assert (H : Ask.chosen (Ask.assembled asciiLower Fixtures.routedPool
                            (Fixtures.askDefaults [lit "README.md"]))
              !! 1%nat
              = Some (Fixtures.mkItem "README.md" (Some "B") (lit "y")))
    by (vm_compute; reflexivity).
  split; [exact H|].
  rewrite (proj2 (context_blocks_follow_selection asciiLower
                    Fixtures.routedPool
                    (Fixtures.askDefaults [lit "README.md"])) _ _ H).
  reflexivity.
Defined.

(** ** The vector store *)

Lemma skipn_not_In {A} (x : A) (n : nat) (l : list A) :
  ~ In x l -> ~ In x (skipn n l).
Proof.
  intros H Hin. apply H. rewrite <- (firstn_skipn n l).
  apply in_or_app. now right.
Qed.

(** A normalized path has no backslash and is not longer than the path;
    a path without backslash that starts neither with "./" nor with "/"
    is its own normal form. *)
Theorem normalizePath_clean (p : jsstring) :
  ~ In 92%N (Store.normalizePath p) /\
  len (Store.normalizePath p) <= len p /\
  (~ In 92%N p -> startsWith p (lit "./") = false ->
   startsWith p (lit "/") = false -> Store.normalizePath p = p).
Proof.
  unfold Store.normalizePath.
  set (s := map (fun c => if N.eqb c 92 then 47%N else c) p).
  assert (Hs : ~ In 92%N s).
  { subst s. intros H. apply in_map_iff in H as (c & Hc & _).
    destruct (N.eqb c 92) eqn:E; [discriminate|].
    apply N.eqb_neq in E. congruence. }
  assert (Hl : length s = length p) by (subst s; apply length_map).
  split; [|split].
  - destruct (startsWith s (lit "./")), (startsWith _ (lit "/"));
      repeat apply skipn_not_In; exact Hs.
  - unfold len.
    destruct (startsWith s (lit "./")), (startsWith _ (lit "/"));
      rewrite ?length_skipn; lia.
  - intros Hp H1 H2.
    assert (E : s = p).
    { subst s. clear -Hp. induction p as [|c p IH]; [reflexivity|]. simpl.
      destruct (N.eqb c 92) eqn:E.
      - apply N.eqb_eq in E. exfalso. apply Hp. now left.
      - f_equal. apply IH. intros H. apply Hp. now right. }
    rewrite E, H1, H2. reflexivity.
Qed.

Lemma normalizePath_clean_witness :
  ~ In 92%N (lit "docs/a.md") /\
  startsWith (lit "docs/a.md") (lit "./") = false /\
  startsWith (lit "docs/a.md") (lit "/") = false /\
  Store.normalizePath (lit "docs/a.md") = lit "docs/a.md".
Proof.
  assert (H0 : ~ In 92%N (lit "docs/a.md"))
    by (vm_compute; intuition discriminate).
  assert (H1 : startsWith (lit "docs/a.md") (lit "./") = false)
    by reflexivity.
  assert (H2 : startsWith (lit "docs/a.md") (lit "/") = false)
    by reflexivity.
  split; [exact H0|]. split; [exact H1|]. split; [exact H2|].
  exact (proj2 (proj2 (normalizePath_clean (lit "docs/a.md"))) H0 H1 H2).
Defined.

(** Normalizing is not idempotent: only one leading "./" is removed. *)
Lemma normalizePath_twice :
  Store.normalizePath (lit "././a") = lit "./a" /\
  Store.normalizePath (Store.normalizePath (lit "././a")) = lit "a".
Proof. split; reflexivity. Qed.

Section StoreFacts.
Variable stringifyMetadata : ChunkMetadata -> jsstring.
Variable parseMetadata : jsstring -> ChunkMetadata.
Variable stringifyVector : list float -> jsstring.
Variable parseVector : jsstring -> list float.
Variable sortBySimilarity : list RetrievedChunk -> list RetrievedChunk.

Abbreviation storeSearch :=
  (Store.search parseMetadata parseVector sortBySimilarity).
Abbreviation storeUpsert :=
  (Store.upsertEmbeddedChunks stringifyMetadata stringifyVector).
Abbreviation storeUpsertRow :=
  (Store.upsertRow stringifyMetadata stringifyVector).
Abbreviation storeRow := (rowOfItem stringifyMetadata stringifyVector).
Abbreviation storeOverwritten :=
  (overwrittenBy stringifyMetadata stringifyVector).

Lemma search_unfold (table : list Store.TableRow)
    (params : Store.SearchParams) :
  Store.collections params <> [] -> 0 < Store.topK params ->
  storeSearch table params
  = slice0 (sortBySimilarity
              (map (Store.scoreRow parseMetadata parseVector params)
                 (matchingRows parseMetadata table params)))
      (Store.topK params).
Proof.
  intros Hc Hk. unfold Store.search.
  apply len_zero_false in Hc. rewrite Hc.
  assert (E : (Store.topK params <=? 0) = false) by (apply Z.leb_gt; lia).
  rewrite E. unfold matchingRows. do 3 f_equal.
  induction table as [|row table IH]; simpl; [reflexivity|].
  destruct (existsb _ (Store.collections params)); simpl; [|exact IH].
  destruct (Store.passesFilter _ _); simpl; now rewrite IH.
Qed.

Lemma search_empty (table : list Store.TableRow)
    (params : Store.SearchParams) :
  Store.collections params = [] \/ Store.topK params <= 0 ->
  storeSearch table params = [].
Proof.
  intros [H|H]; unfold Store.search.
  - rewrite H. reflexivity.
  - destruct (len _ =? 0); [reflexivity|].
    apply Z.leb_le in H. now rewrite H.
Qed.

End StoreFacts.

Lemma insertBySimilarity_perm (x : RetrievedChunk) (l : list RetrievedChunk) :
  Store.insertBySimilarity x l ≡ₚ x :: l.
Proof.
  induction l as [|y l IH]; simpl; [reflexivity|].
  destruct (_ <? _)%float; [|reflexivity].
  rewrite IH. apply perm_swap.
Qed.

Lemma insertionSort_perm (l : list RetrievedChunk) :
  Store.insertionSort l ≡ₚ l.
Proof.
  unfold Store.insertionSort. induction l as [|x l IH]; simpl; [reflexivity|].
  rewrite insertBySimilarity_perm. now constructor.
Qed.

Lemma matchingRows_In (parseMetadata : jsstring -> ChunkMetadata)
    (table : list Store.TableRow) (params : Store.SearchParams)
    (row : Store.TableRow) :
  In row (matchingRows parseMetadata table params) <->
  In row table /\
  In (Store.rowCollection row) (Store.collections params) /\
  Store.passesFilter (default Store.emptyFilter (Store.filter params))
    (parseMetadata (Store.metadata_json row)) = true.
Proof.
  unfold matchingRows. rewrite filter_In, andb_true_iff, existsb_exists.
  split.
  - intros (Hin & (c & Hc & Heq) & Hp). apply bool_decide_eq_true in Heq.
    subst c. auto.
  - intros (Hin & Hc & Hp). split; [exact Hin|]. split; [|exact Hp].
    exists (Store.rowCollection row). split; [exact Hc|].
    now apply bool_decide_eq_true.
Qed.

Lemma search_In (parseMetadata : jsstring -> ChunkMetadata)
    (parseVector : jsstring -> list float)
    (sortBySimilarity : list RetrievedChunk -> list RetrievedChunk)
    (table : list Store.TableRow) (params : Store.SearchParams)
    (r : RetrievedChunk) :
  (forall l, sortBySimilarity l ≡ₚ l) ->
  In r (Store.search parseMetadata parseVector sortBySimilarity table params)
  ->
  exists row, In row (matchingRows parseMetadata table params) /\
              r = Store.scoreRow parseMetadata parseVector params row.
Proof.
  intros Hsort Hr.
  destruct (Store.collections params) as [|c cs] eqn:Ec.
  { rewrite search_empty in Hr by (left; exact Ec). destruct Hr. }
  destruct (Z.le_gt_cases (Store.topK params) 0) as [Hk|Hk].
  { rewrite search_empty in Hr by (right; exact Hk). destruct Hr. }
  rewrite search_unfold in Hr; [|rewrite Ec; discriminate|lia].
  apply list_elem_of_In in Hr.
  pose proof (elem_of_sublist _ _ _ Hr (slice0_sublist _ _)) as Hin.
  rewrite Hsort in Hin.
  apply list_elem_of_In, in_map_iff in Hin as (row & <- & Hrow). eauto.
Qed.

(** [search] returns nothing for an empty list of collections or a
    [topK] of 0 or less, and never more than [topK] items.  Every item it
    returns is the scored form of a row of the table that belongs to one
    of the collections and passes the filter; and when [topK] covers the
    matching rows, all of them are returned.  The order is that of
    [Array.prototype.sort], of which only the fact that it permutes its
    input is used. *)
Theorem search_bounded_and_sound
    (parseMetadata : jsstring -> ChunkMetadata)
    (parseVector : jsstring -> list float)
    (sortBySimilarity : list RetrievedChunk -> list RetrievedChunk)
    (table : list Store.TableRow) (params : Store.SearchParams) :
  (forall l, sortBySimilarity l ≡ₚ l) ->
  let found :=
    Store.search parseMetadata parseVector sortBySimilarity table params in
  let matching := matchingRows parseMetadata table params in
  (Store.collections params = [] \/ Store.topK params <= 0 -> found = []) /\
  len found <= Z.max 0 (Store.topK params) /\
  (forall r, In r found ->
     exists row, In row matching /\
                 r = Store.scoreRow parseMetadata parseVector params row) /\
  (Store.collections params <> [] -> 0 < Store.topK params ->
   len matching <= Store.topK params ->
   found ≡ₚ map (Store.scoreRow parseMetadata parseVector params) matching).
Proof.
  intros Hsort. cbv zeta.
  split; [apply search_empty|].
  destruct (Store.collections params) as [|c cs] eqn:Ec.
  { rewrite search_empty by (left; exact Ec). unfold len. simpl.
    split; [lia|]. split; [intros r []|]. congruence. }
  destruct (Z.le_gt_cases (Store.topK params) 0) as [Hk|Hk].
  { rewrite search_empty by (right; exact Hk). unfold len. simpl.
    split; [lia|]. split; [intros r []|]. lia. }
  rewrite search_unfold; [|rewrite Ec; discriminate|lia].
  split; [|split].
  - etransitivity; [apply slice0_len_le; lia|lia].
  - intros r Hr.
    assert (Hin : In r (sortBySimilarity
                          (map (Store.scoreRow parseMetadata parseVector
                                  params)
                             (matchingRows parseMetadata table params)))).
    { apply list_elem_of_In in Hr. apply list_elem_of_In.
      exact (elem_of_sublist _ _ _ Hr (slice0_sublist _ _)). }
    apply list_elem_of_In in Hin. rewrite Hsort in Hin.
    apply list_elem_of_In, in_map_iff in Hin as (row & <- & Hrow). eauto.
  - intros _ _ Hall. rewrite slice0_all; [apply Hsort|].
    unfold len in *. rewrite (Permutation_length (Hsort _)), length_map.
    exact Hall.
Qed.

Lemma search_bounded_and_sound_witness :
  (forall l, Store.insertionSort l ≡ₚ l) /\
  Store.collections Fixtures.docsQuery <> [] /\
  0 < Store.topK Fixtures.docsQuery /\
  len (matchingRows Fixtures.pathMetadata Fixtures.tinyTable
         Fixtures.docsQuery) <= Store.topK Fixtures.docsQuery /\
  Store.search Fixtures.pathMetadata Fixtures.unitVector Store.insertionSort
    Fixtures.tinyTable Fixtures.docsQuery
  ≡ₚ map (Store.scoreRow Fixtures.pathMetadata Fixtures.unitVector
            Fixtures.docsQuery)
       (matchingRows Fixtures.pathMetadata Fixtures.tinyTable
          Fixtures.docsQuery).
Proof.
  assert (H1 : Store.collections Fixtures.docsQuery <> []) by discriminate.
  assert (H2 : 0 < Store.topK Fixtures.docsQuery) by reflexivity.
  assert (H3 : len (matchingRows Fixtures.pathMetadata Fixtures.tinyTable
                      Fixtures.docsQuery) <= Store.topK Fixtures.docsQuery)
    by (vm_compute; discriminate).
  split; [exact insertionSort_perm|]. split; [exact H1|].
  split; [exact H2|]. split; [exact H3|].
  exact (proj2 (proj2 (proj2 (search_bounded_and_sound Fixtures.pathMetadata
                                Fixtures.unitVector Store.insertionSort
                                Fixtures.tinyTable Fixtures.docsQuery
                                insertionSort_perm))) H1 H2 H3).
Defined.

(** With a path prefix whose normal form is not empty, every item that
    [search] returns has a source path whose normal form starts with the
    normal form of the prefix; and the items carry their vector only when
    [includeVectors] is true. *)
Theorem search_respects_prefix_and_vectors
    (parseMetadata : jsstring -> ChunkMetadata)
    (parseVector : jsstring -> list float)
    (sortBySimilarity : list RetrievedChunk -> list RetrievedChunk)
    (table : list Store.TableRow) (params : Store.SearchParams)
    (r : RetrievedChunk) :
  (forall l, sortBySimilarity l ≡ₚ l) ->
  In r (Store.search parseMetadata parseVector sortBySimilarity table params)
  ->
  (forall flt p, Store.filter params = Some flt ->
     Store.sourcePathPrefix flt = Some p -> p <> [] ->
     Store.normalizePath p <> [] ->
     startsWith (Store.normalizePath (sourcePath (metadata (chunk r))))
       (Store.normalizePath p) = true) /\
  (Store.includeVectors params <> Some true -> vector r = None) /\
  (Store.includeVectors params = Some true -> vector r <> None).
Proof.
  intros Hsort Hr.
  destruct (search_In parseMetadata parseVector sortBySimilarity table
              params r Hsort Hr) as (row & Hrow & ->).
  apply matchingRows_In in Hrow as (_ & _ & Hpass).
  split; [|split].
  - intros flt p Hf Hp Hne Hnorm. rewrite Hf in Hpass. simpl in Hpass.
    unfold Store.passesFilter in Hpass.
    apply andb_true_iff in Hpass as [_ Hpass].
    unfold Store.prefixNormOf in Hpass. rewrite Hp in Hpass.
    destruct p as [|c p]; [congruence|].
    destruct (Store.normalizePath (c :: p)) as [|d n]; [congruence|].
    exact Hpass.
  - intros Hv. simpl. destruct (Store.includeVectors params) as [[|]|];
      simpl; congruence.
  - intros Hv. simpl. rewrite Hv. discriminate.
Qed.

Lemma search_respects_prefix_and_vectors_witness :
  let r :=
    Store.scoreRow Fixtures.pathMetadata Fixtures.unitVector
      Fixtures.docsQuery (Fixtures.tinyRow "c3" "docs\b.md") in
  In r (Store.search Fixtures.pathMetadata Fixtures.unitVector
          Store.insertionSort Fixtures.tinyTable Fixtures.docsQuery) /\
  startsWith (Store.normalizePath (sourcePath (metadata (chunk r))))
    (Store.normalizePath (lit "./docs/")) = true /\
  vector r = None.
Proof.
  cbv zeta.
  assert (Hin : In (Store.scoreRow Fixtures.pathMetadata Fixtures.unitVector
                      Fixtures.docsQuery (Fixtures.tinyRow "c3" "docs\b.md"))
                  (Store.search Fixtures.pathMetadata Fixtures.unitVector
                     Store.insertionSort Fixtures.tinyTable
                     Fixtures.docsQuery))
    by (vm_compute; right; left; reflexivity).
  pose proof (search_respects_prefix_and_vectors Fixtures.pathMetadata
                Fixtures.unitVector Store.insertionSort Fixtures.tinyTable
                Fixtures.docsQuery _ insertionSort_perm Hin)
    as (Hp & Hv & _).
  split; [exact Hin|]. split.
  - apply (Hp _ (lit "./docs/") eq_refl eq_refl); discriminate.
  - apply Hv. discriminate.
Defined.

Section UpsertFacts.
Variable stringifyMetadata : ChunkMetadata -> jsstring.
Variable stringifyVector : list float -> jsstring.
Variable collection : jsstring.

#[local] Abbreviation upsert1 :=
  (Store.upsertRow stringifyMetadata stringifyVector collection).
#[local] Abbreviation upsertAll :=
  (Store.upsertEmbeddedChunks stringifyMetadata stringifyVector collection).
#[local] Abbreviation written :=
  (rowOfItem stringifyMetadata stringifyVector collection).
#[local] Abbreviation overwritten :=
  (overwrittenBy stringifyMetadata stringifyVector collection).

Lemma upsertRow_cases (table : list Store.TableRow)
    (it : Store.EmbeddedChunk) :
  (In (id (Store.embeddedChunk it)) (map Store.chunk_id table) /\
   upsert1 table it
   = map (fun r => if bool_decide
                        (Store.chunk_id r = id (Store.embeddedChunk it))
                   then written it else r) table) \/
  (~ In (id (Store.embeddedChunk it)) (map Store.chunk_id table) /\
   upsert1 table it = table ++ [written it]).
Proof.
  unfold Store.upsertRow. cbv zeta. cbn [Store.chunk_id].
  fold (written it).
  destruct (existsb _ table) eqn:E.
  - left. split; [|reflexivity].
    apply existsb_exists in E as (r & Hr & Heq).
    apply bool_decide_eq_true in Heq. rewrite <- Heq. now apply in_map.
  - right. split; [|reflexivity]. intros Hin.
    apply in_map_iff in Hin as (r & Heq & Hr).
    assert (existsb (fun r => bool_decide
                       (Store.chunk_id r = id (Store.embeddedChunk it)))
              table = true) as E'.
    { apply existsb_exists. exists r. split; [exact Hr|].
      now apply bool_decide_eq_true. }
    congruence.
Qed.

Lemma upsertRow_ids_replaced (table : list Store.TableRow)
    (it : Store.EmbeddedChunk) :
  map Store.chunk_id
    (map (fun r => if bool_decide
                        (Store.chunk_id r = id (Store.embeddedChunk it))
                   then written it else r) table)
  = map Store.chunk_id table.
Proof.
  rewrite map_map. apply map_ext. intros r.
  destruct (bool_decide _) eqn:E; [|reflexivity].
  apply bool_decide_eq_true in E. now rewrite E.
Qed.

Lemma upsertRow_uniqueIds (table : list Store.TableRow)
    (it : Store.EmbeddedChunk) :
  uniqueIds table -> uniqueIds (upsert1 table it).
Proof.
  unfold uniqueIds. intros Hu.
  destruct (upsertRow_cases table it) as [[_ ->]|[Hnot ->]].
  - now rewrite upsertRow_ids_replaced.
  - rewrite map_app. apply NoDup_app. split; [exact Hu|]. split.
    + intros x Hx Hx'. simpl in Hx'. apply list_elem_of_singleton in Hx'.
      subst x. apply Hnot. now apply list_elem_of_In.
    + simpl. apply NoDup_singleton.
Qed.

Lemma replaced_rowOf_other (table : list Store.TableRow)
    (it : Store.EmbeddedChunk) (cid : jsstring) :
  id (Store.embeddedChunk it) <> cid ->
  rowOf (map (fun r => if bool_decide
                            (Store.chunk_id r = id (Store.embeddedChunk it))
                       then written it else r) table) cid
  = rowOf table cid.
Proof.
  intros Hne. unfold rowOf.
  induction table as [|r table IH]; [reflexivity|].
  cbn [map find].
  destruct (bool_decide (Store.chunk_id r = id (Store.embeddedChunk it)))
    eqn:E.
  - apply bool_decide_eq_true in E.
    cbn [rowOfItem Store.chunk_id].
    rewrite !bool_decide_eq_false_2 by congruence. exact IH.
  - destruct (bool_decide (Store.chunk_id r = cid)); [reflexivity|exact IH].
Qed.

Lemma replaced_rowOf_same (table : list Store.TableRow)
    (it : Store.EmbeddedChunk) :
  In (id (Store.embeddedChunk it)) (map Store.chunk_id table) ->
  rowOf (map (fun r => if bool_decide
                            (Store.chunk_id r = id (Store.embeddedChunk it))
                       then written it else r) table)
    (id (Store.embeddedChunk it))
  = Some (written it).
Proof.
  unfold rowOf. induction table as [|r table IH]; intros Hin;
    [destruct Hin|].
  cbn [map find].
  destruct (bool_decide (Store.chunk_id r = id (Store.embeddedChunk it)))
    eqn:E.
  - cbn [rowOfItem Store.chunk_id].
    now rewrite bool_decide_eq_true_2 by reflexivity.
  - rewrite E. apply bool_decide_eq_false in E.
    destruct Hin as [Hin|Hin]; [congruence|]. exact (IH Hin).
Qed.

Lemma appended_rowOf (table : list Store.TableRow) (row : Store.TableRow)
    (cid : jsstring) :
  rowOf (table ++ [row]) cid
  = match rowOf table cid with
    | Some r => Some r
    | None => if bool_decide (Store.chunk_id row = cid) then Some row
              else None
    end.
Proof.
  unfold rowOf. induction table as [|r table IH]; [reflexivity|].
  cbn [app find].
  destruct (bool_decide (Store.chunk_id r = cid)); [reflexivity|exact IH].
Qed.

Lemma rowOf_absent (table : list Store.TableRow) (cid : jsstring) :
  ~ In cid (map Store.chunk_id table) -> rowOf table cid = None.
Proof.
  unfold rowOf. induction table as [|r table IH]; intros Hnot;
    [reflexivity|].
  cbn [find]. simpl in Hnot.
  rewrite bool_decide_eq_false_2 by (intros H; apply Hnot; now left).
  apply IH. intros H. apply Hnot. now right.
Qed.

Lemma upsertRow_rowOf (table : list Store.TableRow)
    (it : Store.EmbeddedChunk) (cid : jsstring) :
  rowOf (upsert1 table it) cid
  = if bool_decide (id (Store.embeddedChunk it) = cid)
    then Some (written it) else rowOf table cid.
Proof.
  destruct (bool_decide (id (Store.embeddedChunk it) = cid)) eqn:E.
  - apply bool_decide_eq_true in E. subst cid.
    destruct (upsertRow_cases table it) as [[Hin ->]|[Hnot ->]].
    + now apply replaced_rowOf_same.
    + rewrite appended_rowOf, (rowOf_absent _ _ Hnot).
      cbn [rowOfItem Store.chunk_id].
      now rewrite bool_decide_eq_true_2 by reflexivity.
  - apply bool_decide_eq_false in E.
    destruct (upsertRow_cases table it) as [[_ ->]|[_ ->]].
    + now apply replaced_rowOf_other.
    + rewrite appended_rowOf. cbn [rowOfItem Store.chunk_id].
      rewrite (bool_decide_eq_false_2 _ E).
      destruct (rowOf table cid); reflexivity.
Qed.

Lemma lastWrite_cons (it : Store.EmbeddedChunk)
    (items : list Store.EmbeddedChunk) (cid : jsstring) :
  lastWrite (it :: items) cid
  = match lastWrite items cid with
    | Some it' => Some it'
    | None => if bool_decide (id (Store.embeddedChunk it) = cid)
              then Some it else None
    end.
Proof.
  unfold lastWrite. cbn [rev].
  induction (rev items) as [|x l IH]; [reflexivity|].
  cbn [app find].
  destruct (bool_decide (id (Store.embeddedChunk x) = cid));
    [reflexivity|exact IH].
Qed.

Lemma upsert_uniqueIds (items : list Store.EmbeddedChunk)
    (table : list Store.TableRow) :
  uniqueIds table -> uniqueIds (upsertAll items table).
Proof.
  unfold Store.upsertEmbeddedChunks. revert table.
  induction items as [|it items IH]; intros table Hu; [exact Hu|].
  cbn [fold_left]. apply IH, upsertRow_uniqueIds, Hu.
Qed.

Lemma upsert_rowOf (items : list Store.EmbeddedChunk)
    (table : list Store.TableRow) (cid : jsstring) :
  rowOf (upsertAll items table) cid
  = match lastWrite items cid with
    | Some it => Some (written it)
    | None => rowOf table cid
    end.
Proof.
  unfold Store.upsertEmbeddedChunks. revert table.
  induction items as [|it items IH]; intros table; [reflexivity|].
  cbn [fold_left]. rewrite IH, lastWrite_cons, upsertRow_rowOf.
  destruct (lastWrite items cid); [reflexivity|].
  destruct (bool_decide _); reflexivity.
Qed.


End UpsertFacts.



Section UpsertAgain.
Variable stringifyMetadata : ChunkMetadata -> jsstring.
Variable stringifyVector : list float -> jsstring.
Variable collection : jsstring.

#[local] Abbreviation upsertAll' :=
  (Store.upsertEmbeddedChunks stringifyMetadata stringifyVector collection).
#[local] Abbreviation written' :=
  (rowOfItem stringifyMetadata stringifyVector collection).
#[local] Abbreviation overwritten' :=
  (overwrittenBy stringifyMetadata stringifyVector collection).

Lemma overwrittenBy_lastWrite (items : list Store.EmbeddedChunk)
    (r : Store.TableRow) :
  overwritten' items r
  = match lastWrite items (Store.chunk_id r) with
    | Some it => written' it
    | None => r
    end.
Proof.
  unfold overwrittenBy. revert r.
  induction items as [|it items IH]; intros r; [reflexivity|].
  cbn [fold_left]. rewrite IH, lastWrite_cons.
  destruct (bool_decide (Store.chunk_id r = id (Store.embeddedChunk it)))
    eqn:E.
  - apply bool_decide_eq_true in E. cbn [rowOfItem Store.chunk_id].
    rewrite E.
    destruct (lastWrite items (id (Store.embeddedChunk it)));
      [reflexivity|].
    now rewrite bool_decide_eq_true_2 by reflexivity.
  - apply bool_decide_eq_false in E.
    destruct (lastWrite items (Store.chunk_id r)); [reflexivity|].
    now rewrite bool_decide_eq_false_2 by congruence.
Qed.

Lemma upsert_present (items : list Store.EmbeddedChunk)
    (table : list Store.TableRow) :
  (forall it, In it items ->
     In (id (Store.embeddedChunk it)) (map Store.chunk_id table)) ->
  upsertAll' items table = map (overwritten' items) table.
Proof.
  unfold Store.upsertEmbeddedChunks, overwrittenBy. revert table.
  induction items as [|it items IH]; intros table Hin.
  - cbn [fold_left]. now rewrite map_id.
  - cbn [fold_left].
    destruct (upsertRow_cases stringifyMetadata stringifyVector collection
                table it) as [[_ E]|[Hnot _]].
    + rewrite E, IH.
      * rewrite map_map. reflexivity.
      * intros it' Hit'. rewrite upsertRow_ids_replaced.
        apply Hin. now right.
    + exfalso. apply Hnot, Hin. now left.
Qed.

Lemma rowOf_unique (table : list Store.TableRow) (r : Store.TableRow) :
  uniqueIds table -> In r table -> rowOf table (Store.chunk_id r) = Some r.
Proof.
  unfold uniqueIds, rowOf. induction table as [|r0 table IH];
    intros Hu Hin; [destruct Hin|].
  cbn [map] in Hu. apply NoDup_cons in Hu as [Hfresh Hu].
  cbn [find]. destruct Hin as [->|Hin].
  - now rewrite bool_decide_eq_true_2 by reflexivity.
  - rewrite bool_decide_eq_false_2; [exact (IH Hu Hin)|].
    intros Heq. apply Hfresh. rewrite Heq.
    apply list_elem_of_In. now apply in_map.
Qed.

Lemma rowOf_Some_In (table : list Store.TableRow) (cid : jsstring)
    (r : Store.TableRow) :
  rowOf table cid = Some r -> In cid (map Store.chunk_id table).
Proof.
  unfold rowOf. intros H. apply find_some in H as [Hin Heq].
  apply bool_decide_eq_true in Heq. subst cid. now apply in_map.
Qed.

Lemma lastWrite_In (items : list Store.EmbeddedChunk)
    (it : Store.EmbeddedChunk) :
  In it items ->
  exists it', lastWrite items (id (Store.embeddedChunk it)) = Some it'.
Proof.
  intros Hin. unfold lastWrite.
  destruct (find _ (rev items)) as [it'|] eqn:E; [eauto|].
  exfalso. apply in_rev in Hin. apply (find_none _ _ E it) in Hin.
  now rewrite bool_decide_eq_true_2 in Hin by reflexivity.
Qed.

End UpsertAgain.

(** Writing a batch a second time changes nothing: after
    [upsertEmbeddedChunks] on a table with pairwise distinct chunk ids,
    the same call leaves every row and the order of the rows as they
    are. *)
Theorem upsert_twice_is_upsert_once
    (stringifyMetadata : ChunkMetadata -> jsstring)
    (stringifyVector : list float -> jsstring) (collection : jsstring)
    (items : list Store.EmbeddedChunk) (table : list Store.TableRow) :
  uniqueIds table ->
  Store.upsertEmbeddedChunks stringifyMetadata stringifyVector collection
    items
    (Store.upsertEmbeddedChunks stringifyMetadata stringifyVector collection
       items table)
  = Store.upsertEmbeddedChunks stringifyMetadata stringifyVector collection
      items table.
Proof.
  intros Hu.
  pose proof (upsert_uniqueIds stringifyMetadata stringifyVector collection
                items table Hu) as Hu'.
  rewrite upsert_present.
  - rewrite <- (map_id (Store.upsertEmbeddedChunks stringifyMetadata
                          stringifyVector collection items table)) at 2.
    apply map_ext_in. intros r Hr.
    rewrite overwrittenBy_lastWrite.
    destruct (lastWrite items (Store.chunk_id r)) as [it|] eqn:E;
      [|reflexivity].
    pose proof (rowOf_unique _ r Hu' Hr) as Hrow.
    rewrite upsert_rowOf, E in Hrow. congruence.
  - intros it Hit. destruct (lastWrite_In items it Hit) as [it' E].
    eapply rowOf_Some_In. rewrite upsert_rowOf, E. reflexivity.
Qed.

Lemma upsert_twice_is_upsert_once_witness :
  uniqueIds Fixtures.tinyTable /\
  Store.upsertEmbeddedChunks Fixtures.metadataPath Fixtures.noVectorJson
    (lit "docvault") Fixtures.tinyItems
    (Store.upsertEmbeddedChunks Fixtures.metadataPath Fixtures.noVectorJson
       (lit "docvault") Fixtures.tinyItems Fixtures.tinyTable)
  = Store.upsertEmbeddedChunks Fixtures.metadataPath Fixtures.noVectorJson
      (lit "docvault") Fixtures.tinyItems Fixtures.tinyTable.
Proof.
  assert (Hu : uniqueIds Fixtures.tinyTable)
    by (apply (bool_decide_unpack _); vm_compute; exact I).
  split; [exact Hu|].
  exact (upsert_twice_is_upsert_once Fixtures.metadataPath
           Fixtures.noVectorJson (lit "docvault") Fixtures.tinyItems
           Fixtures.tinyTable Hu).
Defined.

(** ** The two routers side by side *)

Lemma Eval_words_in_Ask (i : Intent) (w : string) :
  In w (Eval.wordsOf i) -> In w (Ask.wordsOf i).
Proof.
  destruct i; cbn; intros H;
    repeat (destruct H as [<-|H]; [tauto|]); destruct H.
Qed.

Lemma hasAny_Eval_Ask (q : jsstring) (i : Intent) :
  hasAny q (Eval.wordsOf i) = true -> hasAny q (Ask.wordsOf i) = true.
Proof. apply existsb_incl, Eval_words_in_Ask. Qed.

(** Every keyword of eval.ts is a keyword of ask.ts for the same intent,
    so on every query the intent that ask.ts infers comes no later in the
    order tests, migrations, openapi, auth, db, general than the intent
    that eval.ts infers: a query that eval.ts routes to tests is routed to
    tests by ask.ts, and a query that ask.ts leaves general is general
    for eval.ts. *)
Theorem Ask_router_not_later_than_Eval (lower : jsstring -> jsstring)
    (query : jsstring) :
  (rank (intent (Ask.inferRoutePlan lower query))
   <= rank (intent (Eval.inferRoutePlan lower query)))%nat /\
  (intent (Eval.inferRoutePlan lower query) = tests ->
   intent (Ask.inferRoutePlan lower query) = tests) /\
  (intent (Ask.inferRoutePlan lower query) = general ->
   intent (Eval.inferRoutePlan lower query) = general /\
   prefixes (Eval.inferRoutePlan lower query) = []).
Proof.
  pose proof (hasAny_Eval_Ask (lower query) tests) as Ht.
  pose proof (hasAny_Eval_Ask (lower query) migrations) as Hm.
  pose proof (hasAny_Eval_Ask (lower query) openapi) as Ho.
  pose proof (hasAny_Eval_Ask (lower query) auth) as Ha.
  pose proof (hasAny_Eval_Ask (lower query) db) as Hd.
  cbn [Eval.wordsOf Ask.wordsOf] in *.
  unfold Eval.inferRoutePlan, Ask.inferRoutePlan. cbv zeta.
  repeat match goal with
         | |- context [hasAny ?q ?w] => destruct (hasAny q w); cbv iota
         end.
  all: cbn [intent prefixes rank].
  all: try (specialize (Ht eq_refl); discriminate).
  all: try (specialize (Hm eq_refl); discriminate).
  all: try (specialize (Ho eq_refl); discriminate).
  all: try (specialize (Ha eq_refl); discriminate).
  all: try (specialize (Hd eq_refl); discriminate).
  all: repeat split; intros; try split; (lia || congruence).
Qed.

Lemma Ask_router_not_later_than_Eval_witness :
  intent (Eval.inferRoutePlan asciiLower (lit "How do I run Vitest?"))
  = tests /\
  intent (Ask.inferRoutePlan asciiLower (lit "How do I run Vitest?"))
  = tests.
Proof.
  assert (H : intent (Eval.inferRoutePlan asciiLower
                        (lit "How do I run Vitest?")) = tests)
    by (vm_compute; reflexivity).
  split; [exact H|].
  exact (proj1 (proj2 (Ask_router_not_later_than_Eval asciiLower
                         (lit "How do I run Vitest?"))) H).
Defined.

(** The routers do differ: "migrate the pg pool" is a db question for
    eval.ts and a migrations question for ask.ts. *)
Lemma routers_differ :
  intent (Eval.inferRoutePlan asciiLower (lit "migrate the pg pool")) = db /\
  intent (Ask.inferRoutePlan asciiLower (lit "migrate the pg pool"))
  = migrations.
Proof. split; vm_compute; reflexivity. Qed.

(** ** From the ingest to the search *)



